(** * CPU process scheduler simulator: a shallow embedding of [main.cpp]

    The five scheduling functions of [main.cpp] are embedded as Rocq
    functions over lists, and the properties of the specification are
    proved about them.

    Conventions of the embedding.
    - A C++ [int] is the 32-bit two's complement integer of the build: a
      [Z] between [- INT_MAX - 1] and [INT_MAX], and every [int] addition
      and subtraction of the program that can leave that range is written
      with [int_add] or [int_sub], which wrap around modulo [2^32] as the
      compiled program does (the C++ standard leaves signed overflow
      undefined).  Where a theorem needs the true sum it assumes the bound
      under which no addition wraps: a total burst time of at most
      [INT_MAX].
    - A [std::vector] is a [list]; [v[i]] is the total lookup [v !!! i] and
      [v[i] = x] is the update [<[i:=x]> v].  Every index the code uses is
      in range, which the lemmas below establish where they need it.  The
      size of a vector is taken to fit an [int], as [int N =
      processes.size()] supposes, so that [N] is the length of the list.
    - A [double] is an IEEE 754 binary64 number: a rational with a 53-bit
      significand, or a non-finite value (NaN or an infinity).  Every
      addition and division rounds its exact result to the nearest double,
      ties to even ([round_double]).  The exponent range is not modelled:
      the program only adds [int]s and divides by a number of processes,
      which stays far inside the range of the normal doubles.
    - The console output is not modelled, except that the rows of the table
      a function prints are the fields of the result it returns here. *)

From Stdlib Require Import ZArith QArith Qround Qabs Qpower Qreduction Lia Lqa.
From Stdlib Require Import Permutation Sorted.
From stdpp Require Import base list sorting.

Local Open Scope Z_scope.

(** ** Configuration constants ([main.cpp], lines 8-15) *)

Definition QUANTUM : Z := 4.
Definition DEFAULT_PROCESS_COUNT : Z := 10.
Definition MAX_BURST_TIME : Z := 20.
Definition MIN_BURST_TIME : Z := 1.
Definition MAX_PRIORITY : Z := 3.
Definition MIN_PRIORITY : Z := 1.
Definition NUM_QUEUES : Z := 3.

(** ** The process record ([class Process], lines 21-29) *)

Record Process := mkProcess {
  pid : Z;
  burst_time : Z;
  priority : Z
}.

#[global] Instance Process_inhabited : Inhabited Process :=
  populate (mkProcess 0 0 0).

(** ** The type [int] *)

Definition INT_MAX : Z := 2147483647.

Definition in_int_range (x : Z) : Prop := - INT_MAX - 1 ≤ x ≤ INT_MAX.

(** The [int] that is congruent to an integer modulo [2^32]. *)
Definition wrap (x : Z) : Z := (x + 2 ^ 31) mod 2 ^ 32 - 2 ^ 31.

(** [a + b] and [a - b] on [int]s. *)
Definition int_add (a b : Z) : Z := wrap (a + b).

Definition int_sub (a b : Z) : Z := wrap (a - b).

(** ** Doubles *)

Inductive double :=
| Finite (q : Q)
| NonFinite.

(** The integer nearest to [x], the even one of two that are equally near. *)
Definition round_half_even (x : Q) : Z :=
  let f := Qfloor x in
  match (x - inject_Z f ?= 1 # 2)%Q with
  | Lt => f
  | Gt => f + 1
  | Eq => if Z.even f then f else f + 1
  end.

Definition pow2 (e : Z) : Q := (2 ^ e)%Q.

(** The exponent [e] with [2^e <= x < 2^(e+1)], for a positive [x]. *)
Definition binade (x : Q) : Z :=
  let e := Z.log2 (Qnum x) - Z.log2 (Zpos (Qden x)) in
  if Qle_bool (pow2 e) x then e else e - 1.

(** The double nearest to [x], ties to even: [x] is rounded to a multiple
    of [2^(e-52)], where [2^e <= |x| < 2^(e+1)].  The result is kept as a
    reduced fraction. *)
Definition round_double (x : Q) : Q :=
  if Qeq_bool x 0 then 0%Q
  else
    let ulp := pow2 (binade (Qabs x) - 52) in
    Qred (inject_Z (Z.sgn (Qnum x) * round_half_even (Qabs x / ulp)) * ulp).

(** [x += n] for a double [x] and an int [n]: [n] converts exactly. *)
Definition dadd_int (x : double) (n : Z) : double :=
  match x with
  | Finite q => Finite (round_double (q + inject_Z n))
  | NonFinite => NonFinite
  end.

(** [x + y] on doubles. *)
Definition dadd (x y : double) : double :=
  match x, y with
  | Finite p, Finite q => Finite (round_double (p + q))
  | _, _ => NonFinite
  end.

(** [x /= n] for a double [x] and an int [n]: IEEE division by zero gives
    NaN (for 0.0 / 0) or an infinity, never a finite value. *)
Definition ddiv_int (x : double) (n : Z) : double :=
  match x with
  | Finite q => if n =? 0 then NonFinite else Finite (round_double (q / inject_Z n))
  | NonFinite => NonFinite
  end.

(** Equality of doubles up to the representation of the rational. *)
Definition double_eq (x y : double) : Prop :=
  match x, y with
  | Finite p, Finite q => (p == q)%Q
  | NonFinite, NonFinite => True
  | _, _ => False
  end.

(** [for (int i = lo; i < hi; i++) body] as a fold over the index range. *)
Definition for_loop {St : Type} (lo hi : nat) (body : nat → St → St) (s : St) : St :=
  foldl (λ s i, body i s) s (seq lo (hi - lo)).

(** [generateProcesses] (lines 36-47).  [rand k] is the value of the [k]-th
    call of [rand()] after [srand]; [rand()] returns a non-negative [int].
    Iteration [i] draws the burst time and then the priority. *)
Definition generateProcesses (rand : nat → nat) (num_processes : nat) : list Process :=
  for_loop 0 num_processes
    (λ i processes,
       let burst_time :=
         Z.rem (Z.of_nat (rand (2 * i)%nat)) (MAX_BURST_TIME - MIN_BURST_TIME + 1)
         + MIN_BURST_TIME in
       let priority :=
         Z.rem (Z.of_nat (rand (2 * i + 1)%nat)) (MAX_PRIORITY - MIN_PRIORITY + 1)
         + MIN_PRIORITY in
       processes ++ [mkProcess (Z.of_nat i) burst_time priority])
    [].

(** [total_burst_time] (lines 75-81): the sum of the burst times, as a
    double. *)
Definition total_burst_time (processes : list Process) : double :=
  foldl (λ total process, dadd_int total (burst_time process)) (Finite 0) processes.

(** ** The metrics of a non-preemptive schedule

    Lines 91-112 of [first_come_first_served]; [shortest_job_first] (lines
    160-181) and [priority_scheduling] (lines 224-245) repeat them word for
    word on the sorted copy. *)

Record ScheduleResult := mkScheduleResult {
  order : list Process;          (* the rows of the table, top to bottom *)
  waiting_time : list Z;
  turnaround_time : list Z;
  avg_waiting_time : double;     (* the value the function returns *)
  avg_turnaround_time : double
}.

Definition waiting_loop (N : nat) (processes : list Process) : list Z :=
  for_loop 1 N
    (λ i waiting_time,
       <[i := int_add (waiting_time !!! (i - 1)%nat)
                      (burst_time (processes !!! (i - 1)%nat))]>
         waiting_time)
    (replicate N 0).

Definition turnaround_loop (N : nat) (processes : list Process)
    (waiting_time : list Z) : list Z :=
  for_loop 0 N
    (λ i turnaround_time,
       <[i := int_add (waiting_time !!! i) (burst_time (processes !!! i))]>
         turnaround_time)
    (replicate N 0).

Definition average_loop (N : nat) (waiting_time turnaround_time : list Z)
    : double * double :=
  let sums :=
    for_loop 0 N
      (λ i avg, (dadd_int avg.1 (waiting_time !!! i),
                 dadd_int avg.2 (turnaround_time !!! i)))
      (Finite 0, Finite 0) in
  (ddiv_int sums.1 (Z.of_nat N), ddiv_int sums.2 (Z.of_nat N)).

Definition non_preemptive_metrics (N : nat) (processes : list Process)
    : ScheduleResult :=
  let waiting_time := waiting_loop N processes in
  let turnaround_time := turnaround_loop N processes waiting_time in
  let avg := average_loop N waiting_time turnaround_time in
  mkScheduleResult processes waiting_time turnaround_time avg.1 avg.2.

(** ** [std::sort]

    [shortest_job_first] and [priority_scheduling] call [std::sort] with a
    comparator.  The program is built with g++ (README), so [std::sort] is
    libstdc++'s introsort ([bits/stl_algo.h], [bits/stl_heap.h]): quicksort
    with a median-of-three pivot on ranges of more than 16 elements, heap
    sort once the depth limit is used up, and a final insertion sort.

    A range [[first, last)] is a list and an iterator is an index into it.
    The library's unguarded loops rely on a sentinel to stay in the range;
    here a loop that would leave the range stops at its end instead.  The
    loops that are not structural run on fuel, which is never used up
    (section [std_sort_fuel]). *)

Section std_sort.
Context {A : Type} (comp : A → A → bool).

(** [std::iter_swap(a + i, a + j)] *)
Definition iter_swap (i j : nat) (a : list A) : list A :=
  match a !! i, a !! j with
  | Some x, Some y => <[i := y]> (<[j := x]> a)
  | _, _ => a
  end.

(** [__move_median_to_first(result, a, b, c, comp)] *)
Definition move_median_to_first (result ia ib ic : nat) (a : list A) : list A :=
  match a !! ia, a !! ib, a !! ic with
  | Some xa, Some xb, Some xc =>
      if comp xa xb then
        if comp xb xc then iter_swap result ib a
        else if comp xa xc then iter_swap result ic a
        else iter_swap result ia a
      else if comp xa xc then iter_swap result ia a
      else if comp xb xc then iter_swap result ic a
      else iter_swap result ib a
  | _, _, _ => a
  end.

(** [while (comp(first, pivot)) ++first;] *)
Fixpoint scan_up (fuel : nat) (a : list A) (pivot : A) (first : nat) : nat :=
  match fuel with
  | O => first
  | S fuel =>
      match a !! first with
      | Some x => if comp x pivot then scan_up fuel a pivot (S first) else first
      | None => first
      end
  end.

(** [while (comp(pivot, last)) --last;] *)
Fixpoint scan_down (a : list A) (pivot : A) (last : nat) : nat :=
  match a !! last with
  | Some x =>
      if comp pivot x then
        match last with
        | O => O
        | S last' => scan_down a pivot last'
        end
      else last
  | None => last
  end.

(** [__unguarded_partition(first, last, pivot, comp)] *)
Fixpoint unguarded_partition (fuel : nat) (first last pivot : nat) (a : list A)
    : list A * nat :=
  match fuel, a !! pivot with
  | S fuel, Some p =>
      let first := scan_up (length a - first) a p first in
      let last := scan_down a p (last - 1) in
      if negb (first <? last)%nat then (a, first)
      else unguarded_partition fuel (S first) last pivot (iter_swap first last a)
  | _, _ => (a, first)
  end.

(** [__unguarded_partition_pivot(first, last, comp)] on the range [a] *)
Definition unguarded_partition_pivot (a : list A) : list A * nat :=
  let last := length a in
  let mid := (last / 2)%nat in
  let a := move_median_to_first 0 1 mid (last - 1) a in
  unguarded_partition (length a) 1 last 0 a.

(** [__push_heap(first, holeIndex, topIndex, value, comp)] *)
Fixpoint push_heap (fuel : nat) (holeIndex topIndex : nat) (value : A) (a : list A)
    : list A :=
  let parent := ((holeIndex - 1) / 2)%nat in
  match fuel, a !! parent with
  | S fuel, Some x =>
      if (topIndex <? holeIndex)%nat && comp x value
      then push_heap fuel parent topIndex value (<[holeIndex := x]> a)
      else <[holeIndex := value]> a
  | _, _ => <[holeIndex := value]> a
  end.

(** The [while (secondChild < (len - 1) / 2)] loop of [__adjust_heap];
    [holeIndex] and [secondChild] are equal at every test of the loop. *)
Fixpoint adjust_heap_loop (fuel : nat) (holeIndex len : nat) (a : list A)
    : list A * nat :=
  match fuel with
  | O => (a, holeIndex)
  | S fuel =>
      if (holeIndex <? (len - 1) / 2)%nat then
        let secondChild := (2 * (holeIndex + 1))%nat in
        match a !! secondChild, a !! (secondChild - 1)%nat with
        | Some r, Some l =>
            let secondChild := if comp r l then (secondChild - 1)%nat else secondChild in
            match a !! secondChild with
            | Some c => adjust_heap_loop fuel secondChild len (<[holeIndex := c]> a)
            | None => (a, holeIndex)
            end
        | _, _ => (a, holeIndex)
        end
      else (a, holeIndex)
  end.

(** [__adjust_heap(first, holeIndex, len, value, comp)] *)
Definition adjust_heap (holeIndex len : nat) (value : A) (a : list A) : list A :=
  let topIndex := holeIndex in
  let '(a, secondChild) := adjust_heap_loop len holeIndex len a in
  let '(a, holeIndex) :=
    if Nat.even len && (Z.of_nat secondChild =? Z.quot (Z.of_nat len - 2) 2) then
      let child := (2 * (secondChild + 1) - 1)%nat in
      match a !! child with
      | Some c => (<[secondChild := c]> a, child)
      | None => (a, secondChild)
      end
    else (a, secondChild) in
  push_heap (length a) holeIndex topIndex value a.

(** [__pop_heap(first, last, result, comp)] with [first] the range start *)
Definition pop_heap (last result : nat) (a : list A) : list A :=
  match a !! result, a !! 0%nat with
  | Some value, Some top => adjust_heap 0 last value (<[result := top]> a)
  | _, _ => a
  end.

(** [__make_heap(first, last, comp)]: [parent] runs from [(len - 2) / 2]
    down to 0. *)
Definition make_heap (a : list A) : list A :=
  let len := length a in
  if (len <? 2)%nat then a
  else
    foldl (λ a parent,
             match a !! parent with
             | Some value => adjust_heap parent len value a
             | None => a
             end)
          a (rev (seq 0 (S ((len - 2) / 2)))).

(** [__sort_heap(first, last, comp)]: [last] runs from [len - 1] down
    to 1. *)
Definition sort_heap (a : list A) : list A :=
  foldl (λ a last, pop_heap last last a) a (rev (seq 1 (length a - 1))).

(** [__partial_sort(first, last, last, comp)]: with [middle = last] the
    loop of [__heap_select] is empty. *)
Definition partial_sort (a : list A) : list A := sort_heap (make_heap a).

Definition S_threshold : nat := 16.

(** [__introsort_loop(first, last, depth_limit, comp)]: the recursive call
    sorts [[cut, last)] and the loop goes on with [[first, cut)]. *)
Fixpoint introsort_loop (depth_limit : nat) (a : list A) : list A :=
  if (length a <=? S_threshold)%nat then a
  else
    match depth_limit with
    | O => partial_sort a
    | S depth_limit =>
        let '(a, cut) := unguarded_partition_pivot a in
        introsort_loop depth_limit (take cut a) ++ introsort_loop depth_limit (drop cut a)
    end.

(** [__unguarded_linear_insert(last, comp)], with [val = *last] taken out
    by the caller. *)
Fixpoint unguarded_linear_insert (val : A) (last : nat) (a : list A) : list A :=
  match last with
  | S next =>
      match a !! next with
      | Some x =>
          if comp val x then unguarded_linear_insert val next (<[last := x]> a)
          else <[last := val]> a
      | None => <[last := val]> a
      end
  | O => <[last := val]> a
  end.

(** The body of the loop of [__insertion_sort(first, last, comp)]. *)
Definition insertion_sort_step (i : nat) (a : list A) : list A :=
  match a !! i, a !! 0%nat with
  | Some val, Some front =>
      if comp val front
      then val :: take i a ++ drop (S i) a   (* move_backward, then *first = val *)
      else unguarded_linear_insert val i a
  | _, _ => a
  end.

Definition insertion_sort (last : nat) (a : list A) : list A :=
  for_loop 1 last insertion_sort_step a.

(** [__unguarded_insertion_sort(first, last, comp)] *)
Definition unguarded_insertion_sort (first last : nat) (a : list A) : list A :=
  for_loop first last
    (λ i a, match a !! i with
            | Some val => unguarded_linear_insert val i a
            | None => a
            end) a.

(** [__final_insertion_sort(first, last, comp)] *)
Definition final_insertion_sort (a : list A) : list A :=
  if (S_threshold <? length a)%nat
  then unguarded_insertion_sort S_threshold (length a) (insertion_sort S_threshold a)
  else insertion_sort (length a) a.

(** [std::sort(first, last, comp)] *)
Definition std_sort (a : list A) : list A :=
  match a with
  | [] => a
  | _ => final_insertion_sort (introsort_loop (Nat.log2 (length a) * 2) a)
  end.
End std_sort.

(** ** First come first served (lines 89-137) *)

Definition first_come_first_served (processes : list Process) : ScheduleResult :=
  non_preemptive_metrics (length processes) processes.

(** ** Shortest job first (lines 142-206) *)

Definition compareByBurstTime (a b : Process) : bool :=
  burst_time a <? burst_time b.

Definition shortest_job_first (processes : list Process) : ScheduleResult :=
  let N := length processes in
  let processes_copy := std_sort compareByBurstTime processes in
  non_preemptive_metrics N processes_copy.

(** ** Priority scheduling (lines 214-270) *)

Definition priority_scheduling (processes : list Process) : ScheduleResult :=
  let N := length processes in
  let processes_copy := std_sort (λ a b, priority a <? priority b) processes in
  non_preemptive_metrics N processes_copy.

(** ** Round robin (lines 278-366)

    The state of the [while (true)] loop.  [rr_trace] is a ghost field: it
    logs every time slice the loop hands out, in the order they run, and no
    other field depends on it. *)

Record Slice := mkSlice {
  who : nat;          (* index of the process that ran *)
  ran : Z;            (* length of the slice *)
  clock : Z;          (* value of [time] at the end of the slice *)
  finished : bool     (* the slice used up the remaining burst *)
}.

Record RRState := mkRRState {
  rr_time : Z;
  rr_remaining_burst_time : list Z;
  rr_waiting_time : list Z;
  rr_completion_time : list Z;
  rr_done : bool;
  rr_trace : list Slice
}.

(** The body of [for (int i = 0; i < N; i++)] (lines 297-320), with the
    quantum as a parameter.  [remaining - quantum] is computed only when
    [remaining > quantum], and the quantum is positive: this difference of
    two [int]s is an [int]. *)
Definition rr_body (quantum : Z) (processes : list Process) (i : nat) (s : RRState)
    : RRState :=
  let remaining := rr_remaining_burst_time s !!! i in
  if 0 <? remaining then
    if quantum <? remaining then
      let time := int_add (rr_time s) quantum in
      mkRRState time
                (<[i := remaining - quantum]> (rr_remaining_burst_time s))
                (rr_waiting_time s)
                (rr_completion_time s)
                false
                (rr_trace s ++ [mkSlice i quantum time false])
    else
      let time := int_add (rr_time s) remaining in
      mkRRState time
                (<[i := 0]> (rr_remaining_burst_time s))
                (<[i := int_sub time (burst_time (processes !!! i))]> (rr_waiting_time s))
                (<[i := time]> (rr_completion_time s))
                false
                (rr_trace s ++ [mkSlice i remaining time true])
  else s.

(** One iteration of [while (true)] up to the test of [done]: [done = true]
    followed by a full sweep over the indices. *)
Definition rr_sweep (quantum : Z) (processes : list Process) (s : RRState) : RRState :=
  for_loop 0 (length processes) (rr_body quantum processes)
    (mkRRState (rr_time s) (rr_remaining_burst_time s) (rr_waiting_time s)
               (rr_completion_time s) true (rr_trace s)).

(** The [while (true)] loop: [None] when [fuel] sweeps do not reach the
    [break]. *)
Fixpoint rr_while (fuel : nat) (quantum : Z) (processes : list Process) (s : RRState)
    : option RRState :=
  match fuel with
  | O => None
  | S fuel =>
      let s := rr_sweep quantum processes s in
      if rr_done s then Some s else rr_while fuel quantum processes s
  end.

(** The state on entry to the loop (lines 279-290). *)
Definition rr_init (processes : list Process) : RRState :=
  let N := length processes in
  mkRRState 0
            (for_loop 0 N (λ i remaining, <[i := burst_time (processes !!! i)]> remaining)
                      (replicate N 0))
            (replicate N 0)
            (replicate N 0)
            true
            [].

Record RoundRobinResult := mkRoundRobinResult {
  rr_waiting : list Z;
  rr_completion : list Z;
  rr_turnaround : list Z;
  rr_avg_waiting_time : double;      (* the value the function returns *)
  rr_avg_turnaround_time : double;
  rr_slices : list Slice             (* ghost: the slices in the order they ran *)
}.

Definition round_robin_with (quantum : Z) (fuel : nat) (processes : list Process)
    : option RoundRobinResult :=
  let N := length processes in
  match rr_while fuel quantum processes (rr_init processes) with
  | Some s =>
      let turnaround_time := turnaround_loop N processes (rr_waiting_time s) in
      let avg := average_loop N (rr_waiting_time s) turnaround_time in
      Some (mkRoundRobinResult (rr_waiting_time s) (rr_completion_time s)
                               turnaround_time avg.1 avg.2 (rr_trace s))
  | None => None
  end.

(** A number of sweeps that is enough for the loop to reach its [break]
    when the quantum is positive (lemmas [rr_while_terminates] and
    [rr_fuel_enough]). *)
Definition rr_fuel (processes : list Process) : nat :=
  S (foldr (λ p n, (Z.to_nat (burst_time p) + n)%nat) O processes).

Definition round_robin (processes : list Process) : option RoundRobinResult :=
  round_robin_with QUANTUM (rr_fuel processes) processes.

(** ** Multilevel queue scheduling (lines 374-442)

    [rand k] is the value of the [k]-th call of [rand()] after
    [srand(time(nullptr))]; [rand()] returns a non-negative [int]. *)

(** [rand() % NUM_QUEUES] at the [k]-th call. *)
Definition queue_number (rand : nat → nat) (k : nat) : nat :=
  Z.to_nat (Z.rem (Z.of_nat (rand k)) NUM_QUEUES).

(** The body of the loop of lines 380-383; the state is the queues and the
    number of calls of [rand()] so far. *)
Definition distribute_step (rand : nat → nat) (st : list (list Process) * nat)
    (process : Process) : list (list Process) * nat :=
  (<[queue_number rand st.2 := st.1 !!! queue_number rand st.2 ++ [process]]> st.1,
   S st.2).

Definition distribute (rand : nat → nat) (processes : list Process)
    : list (list Process) :=
  (foldl (distribute_step rand) (replicate (Z.to_nat NUM_QUEUES) [], O) processes).1.

Record MultilevelResult := mkMultilevelResult {
  queues : list (list Process);
  avg_waiting_time_0 : double;
  avg_waiting_time_1 : double;
  avg_waiting_time_2 : double;
  overall_avg_waiting_time : double      (* the value the function returns *)
}.

Definition is_empty {A : Type} (v : list A) : bool :=
  match v with [] => true | _ => false end.

Definition multilevel_queue_scheduling (rand : nat → nat) (processes : list Process)
    : option MultilevelResult :=
  let queues : list (list Process) := distribute rand processes in
  let queue0 := queues !!! 0%nat in
  let queue1 := queues !!! 1%nat in
  let queue2 := queues !!! 2%nat in
  match (if negb (is_empty queue0)
         then rr_avg_waiting_time <$> round_robin queue0
         else Some (Finite 0)) with
  | Some avg_waiting_time_0 =>
      let total_burst_time_0 := total_burst_time queue0 in
      let avg_waiting_time_1 :=
        if negb (is_empty queue1)
        then dadd (avg_waiting_time (first_come_first_served queue1)) total_burst_time_0
        else Finite 0 in
      let total_burst_time_1 := total_burst_time queue1 in
      let avg_waiting_time_2 :=
        if negb (is_empty queue2)
        then dadd (avg_waiting_time (shortest_job_first queue2))
                  (dadd total_burst_time_0 total_burst_time_1)
        else Finite 0 in
      let total_waiting_time :=
        dadd (dadd avg_waiting_time_0 avg_waiting_time_1) avg_waiting_time_2 in
      Some (mkMultilevelResult queues avg_waiting_time_0 avg_waiting_time_1
                               avg_waiting_time_2
                               (ddiv_int total_waiting_time NUM_QUEUES))
  | None => None
  end.

(** ** The menu loop of [main] (lines 448-531)

    The console is modelled by what the program reads from it.  An
    [Extraction] is the outcome of one [std::cin >> choice]: whether the
    stream is in the failed state afterwards and the value [choice] holds.
    [std::cin.clear()] resets the failed state, and [std::cin.ignore] does
    not set it. *)

Record Extraction := mkExtraction {
  failed : bool;
  value : Z
}.

(** [choice == 6 || choice == 7 || choice < 0 || choice > 9] *)
Definition invalid_choice (choice : Z) : bool :=
  (choice =? 6) || (choice =? 7) || (choice <? 0) || (9 <? choice).

(** One pass through the body of the [do ... while] of lines 463-487, after
    the extraction: whether the message "Invalid option!" is printed, and
    whether the condition of the [while] asks for another pass. *)
Definition menu_pass (e : Extraction) : bool * bool :=
  let fail := failed e in
  let rejected := fail || invalid_choice (value e) in
  let fail := if rejected then false else fail in
  (rejected, fail || invalid_choice (value e)).

(** The branches of the [switch] of lines 489-522. *)
Inductive Action :=
| RunFCFS | RunSJF | RunPriority | RunRoundRobin | RunMultilevel
| Display | Generate | Exit | InvalidOption.

Definition dispatch (choice : Z) : Action :=
  match choice with
  | 1 => RunFCFS
  | 2 => RunSJF
  | 3 => RunPriority
  | 4 => RunRoundRobin
  | 5 => RunMultilevel
  | 8 => Display
  | 9 => Generate
  | 0 => Exit
  | _ => InvalidOption
  end.

(** The [while (true)] loop of [main] over the extractions the console
    delivers, as the log of the branches taken, each with the batch
    [processes] it runs on.  [rands g] is the sequence of values of
    [rand()] during the [g]-th call of [generateProcesses]. *)
Fixpoint main_loop (rands : nat → nat → nat) (generation : nat)
    (processes : list Process) (input : list Extraction)
    : list (Action * list Process) :=
  match input with
  | [] => []
  | e :: input =>
      if (menu_pass e).2 then main_loop rands generation processes input
      else
        match dispatch (value e) with
        | Exit => [(Exit, processes)]
        | Generate =>
            let processes :=
              generateProcesses (rands (S generation)) (Z.to_nat DEFAULT_PROCESS_COUNT) in
            (Generate, processes) :: main_loop rands (S generation) processes input
        | action => (action, processes) :: main_loop rands generation processes input
        end
  end.

Definition main (rands : nat → nat → nat) (input : list Extraction)
    : list (Action * list Process) :=
  main_loop rands O (generateProcesses (rands O) (Z.to_nat DEFAULT_PROCESS_COUNT)) input.

(** The number of times [main] has generated a new batch in a log. *)
Definition is_generate (action : Action) : bool :=
  match action with Generate => true | _ => false end.

Definition generations (log : list (Action * list Process)) : nat :=
  length (filter (λ ap, is_generate ap.1 = true) log).

(** ** Notions of the specification *)

(** Sum and arithmetic mean of a list of integers. *)
Definition Zsum (l : list Z) : Z := foldr Z.add 0 l.

Definition mean (l : list Z) : Q := (inject_Z (Zsum l) / inject_Z (Z.of_nat (length l)))%Q.

(** [ordered] is the batch in ascending order of [key], and processes with
    equal keys keep their relative arrival order. *)
Definition stable_ascending (key : Process → Z) (batch ordered : list Process) : Prop :=
  StronglySorted (λ a b, key a ≤ key b) ordered ∧
  ∀ k : Z, filter (λ p, key p = k) ordered = filter (λ p, key p = k) batch.

(** [ordered] is the batch in ascending order of [key]; the order among
    equal keys is left open. *)
Definition ascending (key : Process → Z) (batch ordered : list Process) : Prop :=
  StronglySorted (λ a b, key a ≤ key b) ordered ∧ ordered ≡ₚ batch.

(** A value that prints as [hundredths / 100] with two decimals, whatever
    the rounding of ties. *)
Definition shown_as (x : Q) (hundredths : Z) : Prop :=
  (inject_Z hundredths - (1 # 2) < 100 * x ∧ 100 * x < inject_Z hundredths + (1 # 2))%Q.

(** The metrics of a result follow the recurrence of the metrics
    calculator over its [N] rows; and when [N] is at most [2^22], so that
    the sums of the columns are exact in double precision, its averages are
    the doubles nearest to the exact means of the columns. *)
Definition metrics_recurrence (N : nat) (r : ScheduleResult) : Prop :=
  length (order r) = N ∧ length (waiting_time r) = N ∧ length (turnaround_time r) = N ∧
  waiting_time r !! 0%nat = Some 0 ∧
  (∀ i, (0 < i < N)%nat →
        waiting_time r !!! i
        = waiting_time r !!! (i - 1)%nat + burst_time (order r !!! (i - 1)%nat)) ∧
  (∀ i, (i < N)%nat →
        turnaround_time r !!! i = waiting_time r !!! i + burst_time (order r !!! i)) ∧
  (Z.of_nat N ≤ 2 ^ 22 →
   avg_waiting_time r = Finite (round_double (mean (waiting_time r))) ∧
   avg_turnaround_time r = Finite (round_double (mean (turnaround_time r)))).

(** The time the slices of a trace give to process [i], and the slices in
    which process [i] finishes. *)
Definition ran_by (i : nat) (trace : list Slice) : Z :=
  Zsum (ran <$> filter (λ e, who e = i) trace).

Definition finishing (i : nat) (trace : list Slice) : list Slice :=
  filter (λ e, who e = i ∧ finished e = true) trace.

(** The clock of every slice is the time elapsed when the slice ends: the
    total length of the slices up to and including it. *)
Definition elapsed_clocks (trace : list Slice) : Prop :=
  ∀ k e, trace !! k = Some e → clock e = Zsum (ran <$> take (S k) trace).

(** What the result of round robin accounts for, with [total] the sum of
    all burst times: the clock of a slice is the time elapsed when it ends;
    every process finishes in exactly one slice, its completion time is the
    clock of that slice and its waiting time that clock minus its burst;
    the slices of a process add up to its burst; the last slice of all
    finishes a process, whose completion time is [total]; and no completion
    time exceeds [total]. *)
Definition round_robin_accounts (processes : list Process) (r : RoundRobinResult) : Prop :=
  let N := length processes in
  let total := Zsum (burst_time <$> processes) in
  length (rr_waiting r) = N ∧ length (rr_completion r) = N ∧
  elapsed_clocks (rr_slices r) ∧
  (∀ i, (i < N)%nat →
     ∃ e, finishing i (rr_slices r) = [e] ∧
          rr_completion r !!! i = clock e ∧
          rr_waiting r !!! i = clock e - burst_time (processes !!! i)) ∧
  (∀ i, (i < N)%nat → ran_by i (rr_slices r) = burst_time (processes !!! i)) ∧
  (∃ e, last (rr_slices r) = Some e ∧ finished e = true ∧ (who e < N)%nat ∧
        rr_completion r !!! who e = total) ∧
  (∀ j, (j < N)%nat → rr_completion r !!! j ≤ total).

(** The processes of a batch whose draw is queue [k], in arrival order. *)
Definition assigned (rand : nat → nat) (k : nat) (batch : list Process) : list Process :=
  snd <$> filter (λ ip, queue_number rand ip.1 = k) (imap pair batch).

(** The mean waiting time over a batch split into queues of the given sizes
    and average waiting times. *)
Definition weighted_mean (n0 n1 n2 : nat) (a0 a1 a2 : Q) : Q :=
  ((inject_Z (Z.of_nat n0) * a0 + inject_Z (Z.of_nat n1) * a1 + inject_Z (Z.of_nat n2) * a2)
   / inject_Z (Z.of_nat (n0 + n1 + n2)))%Q.

(** How the multilevel result [r] is composed, with [rr] the round robin
    result of queue 0 and [a0], [a1], [a2] the three reported averages: an
    empty queue reports 0; queue 0 reports its round robin average; queue
    1 reports its FCFS average plus the total burst time of queue 0; queue
    2 reports its SJF average plus the total burst time of queues 0 and 1;
    the overall average is their sum divided by 3.  The sums and the
    quotient are those of double precision. *)
Definition multilevel_composes (r : MultilevelResult) (rr : RoundRobinResult)
    (a0 a1 a2 : Q) : Prop :=
  let queue0 := queues r !!! 0%nat in
  let queue1 := queues r !!! 1%nat in
  let queue2 := queues r !!! 2%nat in
  avg_waiting_time_0 r = Finite a0 ∧
  avg_waiting_time_1 r = Finite a1 ∧
  avg_waiting_time_2 r = Finite a2 ∧
  Finite a0 = (if is_empty queue0 then Finite 0 else rr_avg_waiting_time rr) ∧
  Finite a1 = (if is_empty queue1 then Finite 0
               else dadd (avg_waiting_time (first_come_first_served queue1))
                         (total_burst_time queue0)) ∧
  Finite a2 = (if is_empty queue2 then Finite 0
               else dadd (avg_waiting_time (shortest_job_first queue2))
                         (dadd (total_burst_time queue0) (total_burst_time queue1))) ∧
  overall_avg_waiting_time r
  = Finite (round_double (round_double (round_double (a0 + a1) + a2) / 3)).

(** The values of the three reported averages in terms of the tables of
    the three strategies and of the burst times: the total burst times are
    exact, and each average is rounded once when the mean of the waiting
    times is taken and once when the burst times of the queues before it are
    added. *)
Definition multilevel_values (r : MultilevelResult) (rr : RoundRobinResult)
    (a0 a1 a2 : Q) : Prop :=
  let queue0 := queues r !!! 0%nat in
  let queue1 := queues r !!! 1%nat in
  let queue2 := queues r !!! 2%nat in
  a0 = (if is_empty queue0 then 0%Q else round_double (mean (rr_waiting rr))) ∧
  a1 = (if is_empty queue1 then 0%Q
        else round_double
               (round_double (mean (waiting_time (first_come_first_served queue1)))
                + inject_Z (Zsum (burst_time <$> queue0)))) ∧
  a2 = (if is_empty queue2 then 0%Q
        else round_double
               (round_double (mean (waiting_time (shortest_job_first queue2)))
                + inject_Z (Zsum (burst_time <$> queue0)
                            + Zsum (burst_time <$> queue1)))).

(** ** Example batches *)

Definition scenario_batch : list Process :=
  [mkProcess 0 5 1; mkProcess 1 3 2; mkProcess 2 8 1].

(** Three processes whose burst times add up to more than [INT_MAX]. *)
Definition overflow_batch : list Process :=
  [mkProcess 0 INT_MAX 1; mkProcess 1 1 1; mkProcess 2 1 1].

(** Two processes with burst times of at least 1 that add up to more than
    [INT_MAX]. *)
Definition long_batch : list Process :=
  [mkProcess 0 INT_MAX 1; mkProcess 1 1 1].

(** Seventeen processes with the same burst time and the same priority. *)
Definition equal_batch : list Process :=
  map (λ i, mkProcess (Z.of_nat i) 5 1) (seq 0 17).

(** ** Auxiliary definitions for the proofs *)

(** Total burst time of the first [i] processes. *)
Definition prefix_burst (processes : list Process) (i : nat) : Z :=
  Zsum (burst_time <$> take i processes).

(** What [__unguarded_linear_insert] does to the range before [last]:
    [v] goes behind the last element that is not greater than it. *)
Fixpoint insert_back {A : Type} (comp : A → A → bool) (v : A) (l : list A) : list A :=
  match l with
  | [] => [v]
  | x :: l' => if forallb (comp v) l then v :: l else x :: insert_back comp v l'
  end.

(** The invariant of the insertion sort loops on entry to iteration [i]:
    the first [i] elements of the array [a] are those of the initial array
    [a0] in ascending order of [key], equal keys in their initial order,
    and the rest of [a] is untouched. *)
Definition sorted_upto {A : Type} (key : A → Z) (i : nat) (a0 a : list A) : Prop :=
  length a = length a0 ∧
  a ≡ₚ a0 ∧
  StronglySorted (λ x y, key x ≤ key y) (take i a) ∧
  drop i a = drop i a0 ∧
  ∀ k : Z, filter (λ x, key x = k) (take i a) = filter (λ x, key x = k) (take i a0).

(** The total waiting time of a schedule that runs the bursts [bs] in
    order: every burst delays all the processes behind it. *)
Fixpoint total_wait (bs : list Z) : Z :=
  match bs with
  | [] => 0
  | b :: bs' => Z.of_nat (length bs') * b + total_wait bs'
  end.

(** Insertion sort of a list of integers. *)
Definition insertion_sorted (l : list Z) : list Z :=
  foldl (λ acc v, insert_back Z.ltb v acc) [] l.

(** What remains to run. *)
Definition rr_measure (s : RRState) : Z :=
  Zsum (Z.max 0 <$> rr_remaining_burst_time s).

(** The invariant of the round robin loop on a batch of [N] processes. *)
Record rr_inv (processes : list Process) (s : RRState) : Prop := mk_rr_inv {
  inv_remaining_length : length (rr_remaining_burst_time s) = length processes;
  inv_waiting_length : length (rr_waiting_time s) = length processes;
  inv_completion_length : length (rr_completion_time s) = length processes;
  inv_remaining_range : ∀ i, (i < length processes)%nat →
    0 ≤ rr_remaining_burst_time s !!! i ≤ burst_time (processes !!! i);
  inv_time_remaining :
    rr_time s + Zsum (rr_remaining_burst_time s) = Zsum (burst_time <$> processes);
  inv_time_trace : rr_time s = Zsum (ran <$> rr_trace s);
  inv_clocks : elapsed_clocks (rr_trace s);
  inv_ran_by : ∀ i, (i < length processes)%nat →
    ran_by i (rr_trace s) = burst_time (processes !!! i) - rr_remaining_burst_time s !!! i;
  inv_finished : ∀ i, (i < length processes)%nat →
    rr_remaining_burst_time s !!! i = 0 →
    ∃ r, finishing i (rr_trace s) = [mkSlice i r (rr_completion_time s !!! i) true] ∧
         rr_waiting_time s !!! i = rr_completion_time s !!! i - burst_time (processes !!! i);
  inv_unfinished : ∀ i, (i < length processes)%nat →
    rr_remaining_burst_time s !!! i ≠ 0 → finishing i (rr_trace s) = [];
  inv_last : ∀ e, last (rr_trace s) = Some e →
    clock e = rr_time s ∧ (who e < length processes)%nat ∧
    (finished e = true ∨ 0 < rr_remaining_burst_time s !!! who e);
  inv_completion_le : ∀ i, (i < length processes)%nat →
    0 ≤ rr_completion_time s !!! i ≤ rr_time s;
  inv_waiting_range : ∀ i, (i < length processes)%nat →
    - burst_time (processes !!! i) ≤ rr_waiting_time s !!! i ≤ rr_time s
}.

(** How far the clock of round robin has come: it has passed the time each
    process has run for, a finished process completed no earlier than its
    burst time, and no waiting time is negative. *)
Definition rr_progress (processes : list Process) (s : RRState) : Prop :=
  ∀ i, (i < length processes)%nat →
    burst_time (processes !!! i) - rr_remaining_burst_time s !!! i ≤ rr_time s ∧
    (rr_remaining_burst_time s !!! i = 0 →
     burst_time (processes !!! i) ≤ rr_completion_time s !!! i) ∧
    0 ≤ rr_waiting_time s !!! i.

(** A value between 0 and the total burst time of the batch. *)
Definition within_total (batch : list Process) (x : Z) : Prop :=
  0 ≤ x ≤ Zsum (burst_time <$> batch).

(** The state of round robin after [n] sweeps. *)
Definition rr_sweeps (n : nat) (processes : list Process) : RRState :=
  Nat.iter n (rr_sweep QUANTUM processes) (rr_init processes).

(** The burst times of the processes that round robin has finished, given
    the array of remaining bursts. *)
Fixpoint finished_bursts (processes : list Process) (remaining : list Z) : list Z :=
  match processes, remaining with
  | p :: processes, r :: remaining =>
      if r =? 0 then burst_time p :: finished_bursts processes remaining
      else finished_bursts processes remaining
  | _, _ => []
  end.

(** * Proofs *)

(** ** Machine arithmetic *)

Lemma wrap_range (x : Z) : in_int_range (wrap x).
Proof.
  unfold in_int_range, wrap, INT_MAX.
  pose proof (Z.mod_pos_bound (x + 2 ^ 31) (2 ^ 32) ltac:(lia)). lia.
Qed.

Lemma wrap_small (x : Z) : in_int_range x → wrap x = x.
Proof.
  unfold in_int_range, wrap, INT_MAX. intros Hx. rewrite Z.mod_small by lia. lia.
Qed.

Lemma wrap_0 : wrap 0 = 0.
Proof. done. Qed.

Lemma wrap_add_l (a b : Z) : wrap (wrap a + b) = wrap (a + b).
Proof.
  unfold wrap. f_equal.
  replace ((a + 2 ^ 31) mod 2 ^ 32 - 2 ^ 31 + b + 2 ^ 31)
    with ((a + 2 ^ 31) mod 2 ^ 32 + b) by lia.
  rewrite Zplus_mod_idemp_l. f_equal. lia.
Qed.

Lemma wrap_sub_l (a b : Z) : wrap (wrap a - b) = wrap (a - b).
Proof. replace (wrap a - b) with (wrap a + - b) by lia. by rewrite wrap_add_l. Qed.

Lemma int_add_small (a b : Z) : in_int_range (a + b) → int_add a b = a + b.
Proof. apply wrap_small. Qed.

Lemma int_sub_small (a b : Z) : in_int_range (a - b) → int_sub a b = a - b.
Proof. apply wrap_small. Qed.

Lemma pow2_pos (e : Z) : (0 < pow2 e)%Q.
Proof. apply Qpower_0_lt. reflexivity. Qed.

Lemma pow2_le (a b : Z) : a <= b -> (pow2 a <= pow2 b)%Q.
Proof. intros H. apply Qpower_le_compat_l; [exact H|discriminate]. Qed.

Lemma pow2_lt_inv (a b : Z) : (pow2 a < pow2 b)%Q -> a < b.
Proof. intros H. eapply Qpower_lt_compat_l_inv; [exact H|reflexivity]. Qed.

Lemma pow2_add (a b : Z) : (pow2 (a + b) == pow2 a * pow2 b)%Q.
Proof. apply Qpower_plus. discriminate. Qed.

Lemma pow2_sub (a b : Z) : (pow2 (a - b) == pow2 a / pow2 b)%Q.
Proof. apply Qpower_minus. discriminate. Qed.

Lemma pow2_Z (e : Z) : 0 <= e -> (pow2 e == inject_Z (2 ^ e))%Q.
Proof. intros H. unfold pow2. rewrite Zpower_Qpower by exact H. reflexivity. Qed.

Lemma Qmake_inject (n : Z) (d : positive) : (n # d == inject_Z n / inject_Z (Zpos d))%Q.
Proof. apply Qmake_Qdiv. Qed.

(** [2^(binade x) <= x < 2^(binade x + 1)] for a positive [x]. *)
Lemma binade_spec (x : Q) :
  (0 < x)%Q -> (pow2 (binade x) <= x)%Q /\ (x < pow2 (binade x + 1))%Q.
Proof.
  intros Hx. destruct x as [n d]. unfold binade. cbn [Qnum Qden].
  assert (0 < n) as Hn by (unfold Qlt in Hx; simpl in Hx; lia).
  set (ln := Z.log2 n). set (ld := Z.log2 (Zpos d)).
  destruct (Z.log2_spec n Hn) as [Hn1 Hn2]. fold ln in Hn1, Hn2.
  destruct (Z.log2_spec (Zpos d) ltac:(lia)) as [Hd1 Hd2]. fold ld in Hd1, Hd2.
  assert (0 <= ln) as Hln by apply Z.log2_nonneg.
  assert (0 <= ld) as Hld by apply Z.log2_nonneg.
  assert (0 < 2 ^ ln) as Hpn by (apply Z.pow_pos_nonneg; lia).
  assert (0 < 2 ^ ld) as Hpd by (apply Z.pow_pos_nonneg; lia).
  replace (Z.succ ln) with (ln + 1) in Hn2 by lia.
  replace (Z.succ ld) with (ld + 1) in Hd2 by lia.
  rewrite Z.pow_add_r in Hn2, Hd2 by lia. change (2 ^ 1) with 2 in *.
  assert (pow2 (ln - ld - 1) < n # d)%Q as Hlow.
  { replace (ln - ld - 1) with (ln - (ld + 1)) by lia.
    rewrite pow2_sub, !pow2_Z, Qmake_inject by lia.
    rewrite Z.pow_add_r by lia. change (2 ^ 1) with 2.
    apply Qlt_shift_div_l; [unfold Qlt; simpl; lia|].
    unfold Qdiv. rewrite <- Qmult_assoc, (Qmult_comm (/ _)), Qmult_assoc.
    apply Qlt_shift_div_r; [unfold Qlt; simpl; lia|].
    rewrite <- !inject_Z_mult, <- Zlt_Qlt. nia. }
  assert (n # d < pow2 (ln - ld + 1))%Q as Hhigh.
  { replace (ln - ld + 1) with (ln + 1 - ld) by lia.
    rewrite pow2_sub, !pow2_Z, Qmake_inject by lia.
    rewrite Z.pow_add_r by lia. change (2 ^ 1) with 2.
    apply Qlt_shift_div_r; [unfold Qlt; simpl; lia|].
    unfold Qdiv. rewrite <- Qmult_assoc, (Qmult_comm (/ _)), Qmult_assoc.
    apply Qlt_shift_div_l; [unfold Qlt; simpl; lia|].
    rewrite <- !inject_Z_mult, <- Zlt_Qlt. nia. }
  destruct (Qle_bool (pow2 (ln - ld)) (n # d)) eqn:Hle.
  - apply Qle_bool_iff in Hle. split; [exact Hle|exact Hhigh].
  - split; [apply Qlt_le_weak, Hlow|].
    replace (ln - ld - 1 + 1) with (ln - ld) by lia.
    apply Qnot_le_lt. intros Hc. apply Qle_bool_iff in Hc. congruence.
Qed.

Lemma binade_unique (x : Q) (e : Z) :
  (pow2 e <= x)%Q -> (x < pow2 (e + 1))%Q -> binade x = e.
Proof.
  intros H1 H2.
  assert (0 < x)%Q as Hx by (eapply Qlt_le_trans; [apply pow2_pos|exact H1]).
  destruct (binade_spec x Hx) as [B1 B2].
  assert (binade x < e + 1).
  { apply pow2_lt_inv. eapply Qle_lt_trans; [exact B1|exact H2]. }
  assert (e < binade x + 1).
  { apply pow2_lt_inv. eapply Qle_lt_trans; [exact H1|exact B2]. }
  lia.
Qed.

Lemma binade_comp (x y : Q) : (0 < x)%Q -> (x == y)%Q -> binade x = binade y.
Proof.
  intros Hx Heq. symmetry. apply binade_unique.
  - rewrite <- Heq. apply binade_spec, Hx.
  - rewrite <- Heq. apply binade_spec, Hx.
Qed.

Lemma binade_mono (x y : Q) : (0 < x)%Q -> (x <= y)%Q -> binade x <= binade y.
Proof.
  intros Hx Hxy.
  assert (0 < y)%Q as Hy by (eapply Qlt_le_trans; eassumption).
  destruct (binade_spec x Hx) as [B1 _]. destruct (binade_spec y Hy) as [_ B2].
  assert (binade x < binade y + 1); [|lia].
  apply pow2_lt_inv. eapply Qle_lt_trans; [exact B1|].
  eapply Qle_lt_trans; [exact Hxy|exact B2].
Qed.

(** Rounding to the nearest integer, ties to even. *)

Lemma round_half_even_comp (x y : Q) :
  (x == y)%Q -> round_half_even x = round_half_even y.
Proof.
  intros Heq. unfold round_half_even.
  rewrite (Qfloor_comp x y Heq).
  replace (x - inject_Z (Qfloor y) ?= 1 # 2)%Q with (y - inject_Z (Qfloor y) ?= 1 # 2)%Q;
    [reflexivity|].
  apply Qcompare_comp; [|reflexivity]. rewrite Heq. reflexivity.
Qed.

Lemma round_half_even_Z (z : Z) : round_half_even (inject_Z z) = z.
Proof.
  unfold round_half_even. rewrite Qfloor_Z.
  destruct (Qcompare_spec (inject_Z z - inject_Z z) (1 # 2)); [lra|reflexivity|lra].
Qed.

Lemma round_half_even_floor (x : Q) :
  round_half_even x = Qfloor x \/ round_half_even x = Qfloor x + 1.
Proof.
  unfold round_half_even. destruct (_ ?= _)%Q; [destruct (Z.even _)|..]; auto.
Qed.

Lemma round_half_even_mono (x y : Q) :
  (x <= y)%Q -> round_half_even x <= round_half_even y.
Proof.
  intros Hxy. pose proof (Qfloor_resp_le x y Hxy) as Hf.
  destruct (Z.eq_dec (Qfloor x) (Qfloor y)) as [Heq|Hne].
  - unfold round_half_even. rewrite <- Heq.
    destruct (Qcompare_spec (x - inject_Z (Qfloor x)) (1 # 2)) as [Hx|Hx|Hx];
      destruct (Qcompare_spec (y - inject_Z (Qfloor x)) (1 # 2)) as [Hy|Hy|Hy];
      try (destruct (Z.even (Qfloor x))); try lia; lra.
  - destruct (round_half_even_floor x) as [->| ->],
      (round_half_even_floor y) as [->| ->]; lia.
Qed.

(** Rounding to the nearest double. *)

Lemma round_double_comp (x y : Q) : (x == y)%Q -> round_double x = round_double y.
Proof.
  intros Heq. unfold round_double.
  destruct (Qeq_bool x 0) eqn:Hx.
  - apply Qeq_bool_iff in Hx. rewrite Heq in Hx. apply Qeq_bool_iff in Hx.
    rewrite Hx. reflexivity.
  - assert (Qeq_bool y 0 = false) as ->.
    { destruct (Qeq_bool y 0) eqn:Hy; [|reflexivity].
      apply Qeq_bool_iff in Hy. rewrite <- Heq in Hy. apply Qeq_bool_iff in Hy.
      congruence. }
    assert (~ x == 0)%Q as Hnz.
    { intros Hc. apply Qeq_bool_iff in Hc. congruence. }
    assert (0 < Qabs x)%Q as Hpos.
    { destruct (Qlt_le_dec 0 (Qabs x)) as [|Hle]; [assumption|].
      exfalso. apply Hnz. apply Qabs_Qle_condition in Hle. lra. }
    assert (Qabs x == Qabs y)%Q as Habs by (rewrite Heq; reflexivity).
    rewrite (binade_comp _ _ Hpos Habs).
    rewrite (round_half_even_comp (Qabs x / _) (Qabs y / pow2 (binade (Qabs y) - 52))).
    + f_equal. f_equal. f_equal. f_equal.
      unfold Qeq in Heq. destruct x as [nx dx], y as [ny dy]. simpl in *.
      destruct nx, ny; simpl in *; try reflexivity; try lia.
    + rewrite Habs. reflexivity.
Qed.

Lemma Qabs_pos_eq (x : Q) : (0 < x)%Q -> Qabs x = x.
Proof.
  destruct x as [n d]. unfold Qlt. simpl. intros H.
  rewrite Z.abs_eq by lia. reflexivity.
Qed.

Lemma round_double_pos (x : Q) :
  (0 < x)%Q ->
  (round_double x
   == inject_Z (round_half_even (x / pow2 (binade x - 52))) * pow2 (binade x - 52))%Q.
Proof.
  intros Hx. unfold round_double.
  destruct (Qeq_bool x 0) eqn:H0.
  { apply Qeq_bool_iff in H0. lra. }
  rewrite (Qabs_pos_eq x Hx), Qred_correct.
  replace (Z.sgn (Qnum x)) with 1.
  - rewrite Z.mul_1_l. reflexivity.
  - destruct x as [n d]. unfold Qlt in Hx. simpl in *. lia.
Qed.

Lemma round_double_opp (x : Q) : (round_double (- x) == - round_double x)%Q.
Proof.
  unfold round_double.
  destruct (Qeq_bool x 0) eqn:H0.
  - apply Qeq_bool_iff in H0.
    assert (- x == 0)%Q as H1 by lra. apply Qeq_bool_iff in H1. rewrite H1. reflexivity.
  - assert (Qeq_bool (- x) 0 = false) as ->.
    { destruct (Qeq_bool (- x) 0) eqn:H1; [|reflexivity].
      apply Qeq_bool_iff in H1. assert (x == 0)%Q as H2 by lra.
      apply Qeq_bool_iff in H2. congruence. }
    assert (Qabs (- x) = Qabs x) as ->.
    { destruct x as [n d]. simpl. rewrite Z.abs_opp. reflexivity. }
    assert (Z.sgn (Qnum (- x)) = - Z.sgn (Qnum x)) as ->.
    { destruct x as [n d]. simpl. apply Z.sgn_opp. }
    rewrite !Qred_correct, Z.mul_opp_l, inject_Z_opp. ring.
Qed.

Lemma round_double_bounds (x : Q) :
  (0 < x)%Q ->
  (pow2 (binade x) <= round_double x)%Q /\ (round_double x <= pow2 (binade x + 1))%Q.
Proof.
  intros Hx. rewrite (round_double_pos x Hx).
  destruct (binade_spec x Hx) as [B1 B2].
  set (e := binade x) in *. set (u := pow2 (e - 52)).
  assert (0 < u)%Q as Hu by apply pow2_pos.
  assert (pow2 e == inject_Z (2 ^ 52) * u)%Q as He.
  { unfold u. replace e with (52 + (e - 52)) at 1 by lia.
    rewrite pow2_add, (pow2_Z 52) by lia. reflexivity. }
  assert (pow2 (e + 1) == inject_Z (2 ^ 53) * u)%Q as He'.
  { unfold u. replace (e + 1) with (53 + (e - 52)) by lia.
    rewrite pow2_add, (pow2_Z 53) by lia. reflexivity. }
  assert (inject_Z (2 ^ 52) <= x / u)%Q as H1.
  { apply Qle_shift_div_l; [exact Hu|]. rewrite <- He. exact B1. }
  assert (x / u <= inject_Z (2 ^ 53))%Q as H2.
  { apply Qle_shift_div_r; [exact Hu|]. rewrite <- He'. apply Qlt_le_weak, B2. }
  apply round_half_even_mono in H1, H2. rewrite round_half_even_Z in H1, H2.
  rewrite He, He'. split.
  - apply Qmult_le_compat_r; [|lra]. rewrite <- Zle_Qle. exact H1.
  - apply Qmult_le_compat_r; [|lra]. rewrite <- Zle_Qle. exact H2.
Qed.

Lemma round_double_mono_pos (x y : Q) :
  (0 < x)%Q -> (x <= y)%Q -> (round_double x <= round_double y)%Q.
Proof.
  intros Hx Hxy.
  assert (0 < y)%Q as Hy by lra.
  pose proof (binade_mono x y Hx Hxy) as He.
  destruct (Z.eq_dec (binade x) (binade y)) as [Heq|Hne].
  - rewrite (round_double_pos x Hx), (round_double_pos y Hy), <- Heq.
    set (u := pow2 (binade x - 52)).
    assert (0 < u)%Q as Hu by apply pow2_pos.
    apply Qmult_le_compat_r; [|lra]. rewrite <- Zle_Qle.
    apply round_half_even_mono.
    apply Qle_shift_div_l; [exact Hu|].
    unfold Qdiv. rewrite <- Qmult_assoc, (Qmult_comm (/ u)), Qmult_inv_r by lra. lra.
  - destruct (round_double_bounds x Hx) as [_ B1].
    destruct (round_double_bounds y Hy) as [B2 _].
    eapply Qle_trans; [exact B1|]. eapply Qle_trans; [|exact B2].
    apply pow2_le. lia.
Qed.

Lemma round_double_0 : round_double 0 = 0%Q.
Proof. reflexivity. Qed.

Lemma round_double_nonneg (x : Q) : (0 <= x)%Q -> (0 <= round_double x)%Q.
Proof.
  intros Hx. destruct (Qlt_le_dec 0 x) as [Hpos|Hle].
  - destruct (round_double_bounds x Hpos) as [B _].
    pose proof (pow2_pos (binade x)). lra.
  - rewrite (round_double_comp x 0) by lra. rewrite round_double_0. lra.
Qed.

Lemma round_double_nonpos (x : Q) : (x <= 0)%Q -> (round_double x <= 0)%Q.
Proof.
  intros Hx. assert (0 <= - x)%Q as H by lra.
  apply round_double_nonneg in H. rewrite round_double_opp in H. lra.
Qed.

(** Rounding is monotone. *)
Lemma round_double_mono (x y : Q) :
  (x <= y)%Q -> (round_double x <= round_double y)%Q.
Proof.
  intros Hxy. destruct (Qlt_le_dec 0 x) as [Hx|Hx].
  - apply round_double_mono_pos; assumption.
  - destruct (Qlt_le_dec y 0) as [Hy|Hy].
    + assert (round_double (- y) <= round_double (- x))%Q as H.
      { apply round_double_mono_pos; lra. }
      rewrite !round_double_opp in H. lra.
    + pose proof (round_double_nonpos x Hx). pose proof (round_double_nonneg y Hy). lra.
Qed.

(** Integers of magnitude at most [2^53] are doubles. *)
Lemma round_double_Z_pos (z : Z) :
  0 < z <= 2 ^ 53 -> (round_double (inject_Z z) == inject_Z z)%Q.
Proof.
  intros Hz.
  assert (0 < inject_Z z)%Q as Hpos by (rewrite <- (Zlt_Qlt 0); lia).
  destruct (Z.log2_spec z ltac:(lia)) as [L1 L2].
  assert (0 <= Z.log2 z) as L0 by apply Z.log2_nonneg.
  assert (binade (inject_Z z) = Z.log2 z) as He.
  { apply binade_unique.
    - rewrite pow2_Z by lia. rewrite <- Zle_Qle. exact L1.
    - rewrite pow2_Z by lia. rewrite <- Zlt_Qlt. lia. }
  destruct (Z.eq_dec z (2 ^ 53)) as [->|Hne]; [reflexivity|].
  assert (Z.log2 z <= 52) as Hlog.
  { assert (Z.log2 z < 53); [|lia]. apply Z.log2_lt_pow2; lia. }
  rewrite (round_double_pos _ Hpos), He.
  set (k := 52 - Z.log2 z).
  assert (pow2 (Z.log2 z - 52) * inject_Z (2 ^ k) == 1)%Q as Hinv.
  { rewrite <- (pow2_Z k) by (unfold k; lia). rewrite <- pow2_add.
    replace (Z.log2 z - 52 + k) with 0 by (unfold k; lia). reflexivity. }
  pose proof (pow2_pos (Z.log2 z - 52)) as Hu.
  rewrite (round_half_even_comp _ (inject_Z (z * 2 ^ k))).
  - rewrite round_half_even_Z, inject_Z_mult.
    rewrite <- Qmult_assoc, (Qmult_comm (inject_Z (2 ^ k))), Hinv. ring.
  - rewrite inject_Z_mult. unfold Qdiv. apply Qmult_comp; [reflexivity|].
    rewrite <- (Qmult_1_r (/ _)), <- Hinv. field. lra.
Qed.

Lemma round_double_Z (z : Z) :
  - 2 ^ 53 <= z <= 2 ^ 53 -> (round_double (inject_Z z) == inject_Z z)%Q.
Proof.
  intros Hz. destruct (Z.lt_trichotomy z 0) as [Hneg|[->|Hpos]].
  - replace z with (- - z) by lia. rewrite inject_Z_opp, round_double_opp.
    rewrite round_double_Z_pos by lia. reflexivity.
  - reflexivity.
  - apply round_double_Z_pos. lia.
Qed.

Lemma Qred_inject_Z (z : Z) : Qred (inject_Z z) = inject_Z z.
Proof.
  pose proof (Qred_correct (inject_Z z)) as Heq.
  pose proof (gcd_Qred (inject_Z z)) as Hgcd.
  destruct (Qred (inject_Z z)) as [n d]. unfold Qeq, inject_Z in *. simpl in *.
  assert (n = z * Zpos d) as -> by lia.
  rewrite Z.gcd_comm, (Z.mul_comm z), Z.gcd_mul_diag_l in Hgcd by lia.
  assert (d = 1%positive) as -> by lia. f_equal. lia.
Qed.

Lemma round_double_reduced (x : Q) : Qred (round_double x) = round_double x.
Proof.
  unfold round_double. destruct (Qeq_bool x 0); [reflexivity|].
  apply Qred_complete, Qred_correct.
Qed.

Lemma round_double_Z_eq (z : Z) :
  - 2 ^ 53 <= z <= 2 ^ 53 -> round_double (inject_Z z) = inject_Z z.
Proof.
  intros Hz. rewrite <- round_double_reduced.
  rewrite <- (Qred_inject_Z z) at 2.
  apply Qred_complete, round_double_Z, Hz.
Qed.

Lemma round_double_idem_Z (q : Q) (z : Z) :
  - 2 ^ 53 <= z <= 2 ^ 53 -> (q == inject_Z z)%Q -> round_double q = inject_Z z.
Proof. intros Hz Hq. rewrite (round_double_comp _ _ Hq). by apply round_double_Z_eq. Qed.

(** ** Loops *)

Lemma for_loop_empty {St : Type} (lo hi : nat) (body : nat → St → St) (s : St) :
  (hi ≤ lo)%nat → for_loop lo hi body s = s.
Proof.
  intros Hle. unfold for_loop. by replace (hi - lo)%nat with O by lia.
Qed.

Lemma for_loop_snoc {St : Type} (lo hi : nat) (body : nat → St → St) (s : St) :
  (lo ≤ hi)%nat → for_loop lo (S hi) body s = body hi (for_loop lo hi body s).
Proof.
  intros Hle. unfold for_loop.
  replace (S hi - lo)%nat with (S (hi - lo)) by lia.
  rewrite seq_S, foldl_snoc. by replace (lo + (hi - lo))%nat with hi by lia.
Qed.

(** Loop invariants: [P i s] holds of the state [s] on entry to
    iteration [i]. *)
Lemma for_loop_ind {St : Type} (P : nat → St → Prop) (lo hi : nat)
    (body : nat → St → St) (s : St) :
  (lo ≤ hi)%nat →
  P lo s →
  (∀ i s, (lo ≤ i < hi)%nat → P i s → P (S i) (body i s)) →
  P hi (for_loop lo hi body s).
Proof.
  intros Hle Hlo Hstep. induction Hle as [|hi Hle IH].
  - by rewrite for_loop_empty.
  - rewrite for_loop_snoc by done. apply Hstep; [lia|].
    apply IH. intros i s' Hi. apply Hstep. lia.
Qed.

(** [loop_invariant P] proves the goal from the invariant [P] of the
    [for_loop] it mentions. *)
Ltac loop_invariant P :=
  match goal with
  | |- context [for_loop ?lo ?hi ?body ?s] =>
      let H := fresh "Hinv" in
      assert (H : P hi (for_loop lo hi body s));
      [ apply (for_loop_ind P); [ | | ]
      | revert H; generalize (for_loop lo hi body s); simpl ]
  end.

(** ** Sums *)

Lemma Zsum_app (l k : list Z) : Zsum (l ++ k) = Zsum l + Zsum k.
Proof. unfold Zsum. induction l as [|x l IH]; simpl; lia. Qed.

Lemma Zsum_insert (l : list Z) (i : nat) (x y : Z) :
  l !! i = Some x → Zsum (<[i := y]> l) = Zsum l - x + y.
Proof.
  revert i. induction l as [|z l IH]; intros [|i] Hi; simplify_eq/=.
  - unfold Zsum; simpl; lia.
  - specialize (IH _ Hi). unfold Zsum in *; simpl in *; lia.
Qed.

Lemma Zsum_replicate_0 (n : nat) : Zsum (replicate n 0) = 0.
Proof. induction n as [|n IH]; [done|]. unfold Zsum in *; simpl; lia. Qed.

Lemma Zsum_cons (x : Z) (l : list Z) : Zsum (x :: l) = x + Zsum l.
Proof. done. Qed.

Lemma Zsum_perm (l k : list Z) : l ≡ₚ k → Zsum l = Zsum k.
Proof.
  induction 1 as [|x l k _ IH|x y l|l k m _ IH1 _ IH2];
    rewrite ?Zsum_cons; try done; lia.
Qed.

Lemma Zsum_snoc (l : list Z) (x : Z) : Zsum (l ++ [x]) = Zsum l + x.
Proof. rewrite Zsum_app. unfold Zsum; simpl; lia. Qed.

Lemma Zsum_insert_total (l : list Z) (i : nat) (y : Z) :
  (i < length l)%nat → Zsum (<[i := y]> l) = Zsum l - l !!! i + y.
Proof. intros Hi. apply Zsum_insert. by apply list_lookup_lookup_total_lt. Qed.

Lemma Zsum_nonneg (l : list Z) : Forall (λ x, 0 ≤ x) l → 0 ≤ Zsum l.
Proof. induction 1; rewrite ?Zsum_cons; [done|lia]. Qed.

Lemma Zsum_zero (l : list Z) : Forall (λ x, x = 0) l → Zsum l = 0.
Proof. induction 1 as [|x l -> _ IH]; rewrite ?Zsum_cons; [done|lia]. Qed.

Lemma Zsum_take_range (l : list Z) (i : nat) :
  Forall (λ x, 0 ≤ x) l → 0 ≤ Zsum (take i l) ≤ Zsum l.
Proof.
  intros Hl. rewrite <- (take_drop i l) at 3. rewrite Zsum_app.
  rewrite <- (take_drop i l) in Hl. apply Forall_app in Hl as [Htake Hdrop].
  apply Zsum_nonneg in Htake, Hdrop. lia.
Qed.

Lemma Zsum_le_pointwise (l k : list Z) :
  length l = length k →
  (∀ i, (i < length l)%nat → l !!! i ≤ k !!! i) → Zsum l ≤ Zsum k.
Proof.
  revert k. induction l as [|x l IH]; intros [|y k] Hlen Hle; try done.
  injection Hlen as Hlen.
  rewrite !Zsum_cons. pose proof (Hle O ltac:(simpl; lia)) as H0. simpl in H0.
  assert (Zsum l ≤ Zsum k); [|lia].
  apply IH; [done|]. intros i Hi. apply (Hle (S i)). simpl. lia.
Qed.

Lemma prefix_burst_range (processes : list Process) (i : nat) :
  Forall (λ p, 0 ≤ burst_time p) processes →
  0 ≤ prefix_burst processes i ≤ Zsum (burst_time <$> processes).
Proof.
  intros Hb. unfold prefix_burst. rewrite fmap_take.
  apply Zsum_take_range. by apply Forall_fmap.
Qed.

Lemma Zsum_lookup_le (l : list Z) (i : nat) :
  Forall (λ x, 0 ≤ x) l → (i < length l)%nat → l !!! i ≤ Zsum l.
Proof.
  intros Hl. revert i. induction Hl as [|x l Hx Hl IH]; intros [|i] Hi;
    cbn [length] in *; try lia; rewrite Zsum_cons.
  - pose proof (Zsum_nonneg l Hl). change ((x :: l) !!! O) with x. lia.
  - change ((x :: l) !!! S i) with (l !!! i). specialize (IH i ltac:(lia)). lia.
Qed.

Lemma prefix_burst_0 (processes : list Process) : prefix_burst processes 0 = 0.
Proof. done. Qed.

Lemma prefix_burst_S (processes : list Process) (i : nat) :
  (i < length processes)%nat →
  prefix_burst processes (S i) = prefix_burst processes i + burst_time (processes !!! i).
Proof.
  intros Hi. unfold prefix_burst.
  rewrite (take_S_r _ _ (processes !!! i)) by by apply list_lookup_lookup_total_lt.
  rewrite fmap_app, Zsum_app. unfold Zsum; simpl; lia.
Qed.

(** ** The metrics loops *)

Lemma waiting_loop_spec (N : nat) (processes : list Process) :
  (N ≤ length processes)%nat →
  length (waiting_loop N processes) = N ∧
  ∀ i, (i < N)%nat →
       waiting_loop N processes !! i = Some (wrap (prefix_burst processes i)).
Proof.
  intros HN. destruct N as [|N].
  { split; [done|lia]. }
  unfold waiting_loop.
  loop_invariant
    (λ (k : nat) (w : list Z),
       length w = S N ∧
       ∀ i, (i < S N)%nat →
            w !! i = Some (if decide (i < k)%nat
                           then wrap (prefix_burst processes i) else 0)).
  - lia.
  - split; [by rewrite length_replicate|].
    intros i Hi. rewrite lookup_replicate_2 by done.
    case_decide; [|done]. replace i with O by lia.
    by rewrite prefix_burst_0, wrap_0.
  - intros k w Hk [Hlen Hw]. split; [by rewrite length_insert|].
    intros i Hi. destruct (decide (i = k)) as [->|Hne].
    + rewrite list_lookup_insert_eq by lia. rewrite decide_True by lia.
      f_equal.
      rewrite (list_lookup_total_correct w (k - 1) (wrap (prefix_burst processes (k - 1)))).
      * unfold int_add. rewrite wrap_add_l. f_equal.
        replace k with (S (k - 1)) at 3 by lia. rewrite prefix_burst_S; [done|lia].
      * rewrite Hw by lia. by rewrite decide_True by lia.
    + rewrite list_lookup_insert_ne by done. rewrite Hw by done.
      repeat case_decide; try done; lia.
  - intros w [Hlen Hw]. split; [done|]. intros i Hi. rewrite Hw by done.
    by rewrite decide_True by lia.
Qed.

Lemma turnaround_loop_spec (N : nat) (processes : list Process) (waiting : list Z) :
  length (turnaround_loop N processes waiting) = N ∧
  ∀ i, (i < N)%nat →
       turnaround_loop N processes waiting !! i
       = Some (int_add (waiting !!! i) (burst_time (processes !!! i))).
Proof.
  unfold turnaround_loop.
  loop_invariant
    (λ (k : nat) (t : list Z),
       length t = N ∧
       ∀ i, (i < N)%nat →
            t !! i = Some (if decide (i < k)%nat
                           then int_add (waiting !!! i) (burst_time (processes !!! i))
                           else 0)).
  - lia.
  - split; [by rewrite length_replicate|].
    intros i Hi. rewrite lookup_replicate_2 by done. case_decide; [lia|done].
  - intros k t Hk [Hlen Ht]. split; [by rewrite length_insert|].
    intros i Hi. destruct (decide (i = k)) as [->|Hne].
    + rewrite list_lookup_insert_eq by lia. by rewrite decide_True by lia.
    + rewrite list_lookup_insert_ne by done. rewrite Ht by done.
      repeat case_decide; try done; lia.
  - intros t [Hlen Ht]. split; [done|]. intros i Hi. rewrite Ht by done.
    by rewrite decide_True by lia.
Qed.

(** The tables hold [int]s. *)
Lemma waiting_loop_int (N : nat) (processes : list Process) :
  (N ≤ length processes)%nat → Forall in_int_range (waiting_loop N processes).
Proof.
  intros HN. destruct (waiting_loop_spec N processes HN) as [Hlen Hw].
  apply Forall_lookup_2. intros i x Hx.
  rewrite Hw in Hx by (apply lookup_lt_Some in Hx; lia).
  injection Hx as <-. apply wrap_range.
Qed.

Lemma turnaround_loop_int (N : nat) (processes : list Process) (waiting : list Z) :
  Forall in_int_range (turnaround_loop N processes waiting).
Proof.
  destruct (turnaround_loop_spec N processes waiting) as [Hlen Ht].
  apply Forall_lookup_2. intros i x Hx.
  rewrite Ht in Hx by (apply lookup_lt_Some in Hx; lia).
  injection Hx as <-. apply wrap_range.
Qed.

(** Without overflow: on a batch whose burst times are not negative and
    add up to at most [INT_MAX], the prefix sums are [int]s. *)
Lemma prefix_burst_int (processes : list Process) (i : nat) :
  Forall (λ p, 0 ≤ burst_time p) processes →
  Zsum (burst_time <$> processes) ≤ INT_MAX →
  in_int_range (prefix_burst processes i).
Proof.
  intros Hb Htotal. pose proof (prefix_burst_range processes i Hb).
  unfold in_int_range, INT_MAX in *. lia.
Qed.

Lemma waiting_loop_exact (N : nat) (processes : list Process) (i : nat) :
  (N ≤ length processes)%nat →
  Forall (λ p, 0 ≤ burst_time p) processes →
  Zsum (burst_time <$> processes) ≤ INT_MAX →
  (i < N)%nat →
  waiting_loop N processes !! i = Some (prefix_burst processes i).
Proof.
  intros HN Hb Htotal Hi. destruct (waiting_loop_spec N processes HN) as [_ Hw].
  rewrite Hw by done. f_equal. by apply wrap_small, prefix_burst_int.
Qed.

Lemma Zsum_take_S (l : list Z) (k : nat) :
  (k < length l)%nat → Zsum (take (S k) l) = Zsum (take k l) + l !!! k.
Proof.
  intros Hk. rewrite (take_S_r _ _ (l !!! k)) by by apply list_lookup_lookup_total_lt.
  rewrite Zsum_app. unfold Zsum; simpl; lia.
Qed.

Lemma Zsum_int_bound (l : list Z) :
  Forall in_int_range l →
  - (Z.of_nat (length l) * 2 ^ 31) ≤ Zsum l ≤ Z.of_nat (length l) * 2 ^ 31.
Proof.
  induction 1 as [|x l Hx _ IH]; [done|].
  rewrite Zsum_cons. cbn [length]. unfold in_int_range, INT_MAX in Hx. lia.
Qed.

Lemma ddiv_int_finite (q : Q) (n : Z) :
  n ≠ 0 → ddiv_int (Finite q) n = Finite (round_double (q / inject_Z n)).
Proof. intros Hn. unfold ddiv_int. by rewrite (proj2 (Z.eqb_neq _ _)). Qed.

(** The two sums of [average_loop] are finite, and so are the averages of
    a non-empty table. *)
Lemma average_loop_finite (N : nat) (waiting turnaround : list Z) :
  N ≠ O → ∃ a b : Q, average_loop N waiting turnaround = (Finite a, Finite b).
Proof.
  intros HN. unfold average_loop.
  loop_invariant
    (λ (k : nat) (sums : double * double), ∃ a b : Q, sums = (Finite a, Finite b)).
  - lia.
  - by eexists _, _.
  - intros k sums Hk (a & b & ->). by eexists _, _.
  - intros sums (a & b & ->). cbn [fst snd]. rewrite !ddiv_int_finite by lia.
    by eexists _, _.
Qed.

(** The sums of at most [2^22] [int]s are exact in double precision: each
    partial sum is an integer of magnitude at most [2^53]. *)
Lemma average_loop_exact (N : nat) (waiting turnaround : list Z) :
  length waiting = N → length turnaround = N →
  Forall in_int_range waiting → Forall in_int_range turnaround →
  Z.of_nat N ≤ 2 ^ 22 → N ≠ O →
  average_loop N waiting turnaround
  = (Finite (round_double (mean waiting)), Finite (round_double (mean turnaround))).
Proof.
  intros Hw Ht Hwr Htr Hcap HN. unfold average_loop.
  assert (∀ (l : list Z) k, length l = N → Forall in_int_range l → (k ≤ N)%nat →
            - 2 ^ 53 ≤ Zsum (take k l) ≤ 2 ^ 53) as Hpartial.
  { intros l k Hl Hr Hk.
    pose proof (Zsum_int_bound (take k l) ltac:(by apply Forall_take)) as Hbound.
    rewrite length_take_le in Hbound by lia. nia. }
  loop_invariant
    (λ (k : nat) (sums : double * double),
       sums = (Finite (inject_Z (Zsum (take k waiting))),
               Finite (inject_Z (Zsum (take k turnaround))))).
  - lia.
  - done.
  - intros k sums Hk ->. cbn [fst snd dadd_int]. f_equal; f_equal.
    + rewrite Zsum_take_S by lia. apply round_double_idem_Z.
      * rewrite <- Zsum_take_S by lia. apply Hpartial; [done..|lia].
      * by rewrite inject_Z_plus.
    + rewrite Zsum_take_S by lia. apply round_double_idem_Z.
      * rewrite <- Zsum_take_S by lia. apply Hpartial; [done..|lia].
      * by rewrite inject_Z_plus.
  - intros sums ->. cbn [fst snd]. rewrite !ddiv_int_finite by lia.
    rewrite <- Hw at 1. rewrite <- Ht at 2. rewrite !firstn_all.
    unfold mean. by rewrite Hw, Ht.
Qed.

(** The sums are monotone in the entries of the tables: rounding is
    monotone. *)
Lemma average_loop_mono (N : nat) (waiting waiting' turnaround turnaround' : list Z) :
  N ≠ O →
  (∀ i, (i < N)%nat → waiting !!! i ≤ waiting' !!! i) →
  ∃ a a' : Q,
    (average_loop N waiting turnaround).1 = Finite a ∧
    (average_loop N waiting' turnaround').1 = Finite a' ∧
    (a <= a')%Q.
Proof.
  intros HN Hle. unfold average_loop. cbn [fst].
  assert (∃ a a' : Q,
            (for_loop 0 N
               (λ i avg, (dadd_int avg.1 (waiting !!! i),
                          dadd_int avg.2 (turnaround !!! i)))
               (Finite 0, Finite 0)).1 = Finite a ∧
            (for_loop 0 N
               (λ i avg, (dadd_int avg.1 (waiting' !!! i),
                          dadd_int avg.2 (turnaround' !!! i)))
               (Finite 0, Finite 0)).1 = Finite a' ∧
            (a <= a')%Q) as (a & a' & -> & -> & Ha).
  { clear HN. induction N as [|N IH].
    - exists 0%Q, 0%Q. by rewrite !for_loop_empty.
    - destruct IH as (a & a' & Ha & Ha' & Hle'); [intros i Hi; apply Hle; lia|].
      rewrite !for_loop_snoc by lia. cbn [fst]. rewrite Ha, Ha'. cbn [dadd_int].
      eexists _, _. split_and!; [done..|].
      apply round_double_mono.
      pose proof (Hle N ltac:(lia)) as HN. rewrite Zle_Qle in HN. lra. }
  rewrite !ddiv_int_finite by lia. eexists _, _. split_and!; [done..|].
  apply round_double_mono.
  assert (0 < inject_Z (Z.of_nat N))%Q as Hpos by (rewrite <- (Zlt_Qlt 0); lia).
  unfold Qdiv. apply Qmult_le_compat_r; [done|].
  apply Qlt_le_weak, Qinv_lt_0_compat, Hpos.
Qed.

(** ** [std::sort] permutes its range *)

Lemma for_loop_perm {A : Type} (lo hi : nat) (body : nat → list A → list A) (a : list A) :
  (∀ i a, body i a ≡ₚ a) → for_loop lo hi body a ≡ₚ a.
Proof.
  intros Hbody. unfold for_loop. generalize (seq lo (hi - lo)). intros l.
  revert a. induction l as [|i l IH]; intros a; simpl; [done|].
  by rewrite IH.
Qed.

Lemma foldl_perm {A B : Type} (f : list A → B → list A) (l : list B) (a : list A) :
  (∀ a x, f a x ≡ₚ a) → foldl f a l ≡ₚ a.
Proof.
  intros Hf. revert a. induction l as [|x l IH]; intros a; simpl; [done|].
  by rewrite IH.
Qed.

(** Moving the hole of an array from [i] to [j]: the element at [j] is
    copied to [i], and the pending value [v] now belongs at [j]. *)
Lemma insert_hole_move {A : Type} (l : list A) (i j : nat) (x v : A) :
  (i < length l)%nat → l !! j = Some x →
  <[j := v]> (<[i := x]> l) ≡ₚ <[i := v]> l.
Proof.
  intros Hi Hj. destruct (decide (i = j)) as [->|Hne].
  - by rewrite list_insert_insert_eq.
  - rewrite <- (list_insert_insert_eq l i x v).
    apply Permutation_insert_swap.
    + by apply list_lookup_insert_eq.
    + by rewrite list_lookup_insert_ne.
Qed.

Section std_sort_perm.
Context {A : Type} (comp : A → A → bool).

Lemma iter_swap_perm (i j : nat) (a : list A) : iter_swap i j a ≡ₚ a.
Proof.
  unfold iter_swap. destruct (a !! i) as [x|] eqn:Hi; [|done].
  destruct (a !! j) as [y|] eqn:Hj; [|done].
  by apply Permutation_insert_swap.
Qed.

Lemma move_median_to_first_perm (result ia ib ic : nat) (a : list A) :
  move_median_to_first comp result ia ib ic a ≡ₚ a.
Proof.
  unfold move_median_to_first.
  repeat case_match; auto using iter_swap_perm.
Qed.

Lemma unguarded_partition_perm (fuel first last pivot : nat) (a : list A) :
  (unguarded_partition comp fuel first last pivot a).1 ≡ₚ a.
Proof.
  revert first last a. induction fuel as [|fuel IH]; intros first last a; simpl; [done|].
  destruct (a !! pivot) as [p|]; [|done].
  destruct (negb _); [done|]. rewrite IH. apply iter_swap_perm.
Qed.

Lemma unguarded_partition_pivot_perm (a : list A) :
  (unguarded_partition_pivot comp a).1 ≡ₚ a.
Proof.
  unfold unguarded_partition_pivot.
  rewrite unguarded_partition_perm. apply move_median_to_first_perm.
Qed.

Lemma push_heap_perm (fuel holeIndex topIndex : nat) (value : A) (a : list A) :
  (holeIndex < length a)%nat →
  push_heap comp fuel holeIndex topIndex value a ≡ₚ <[holeIndex := value]> a.
Proof.
  revert holeIndex a. induction fuel as [|fuel IH]; intros hole a Hhole; cbn [push_heap].
  { done. }
  destruct (a !! ((hole - 1) / 2)%nat) as [x|] eqn:Hparent; [|done].
  destruct (_ && _); [|done].
  rewrite IH.
  - by apply insert_hole_move.
  - rewrite length_insert. by eapply lookup_lt_Some.
Qed.

Lemma adjust_heap_loop_perm (fuel holeIndex len : nat) (a : list A) :
  (holeIndex < length a)%nat →
  ((adjust_heap_loop comp fuel holeIndex len a).2
     < length (adjust_heap_loop comp fuel holeIndex len a).1)%nat ∧
  ∀ value,
    <[(adjust_heap_loop comp fuel holeIndex len a).2 := value]>
      (adjust_heap_loop comp fuel holeIndex len a).1
    ≡ₚ <[holeIndex := value]> a.
Proof.
  revert holeIndex a. induction fuel as [|fuel IH]; intros hole a Hhole;
    cbn [adjust_heap_loop fst snd]; [done|].
  destruct (_ <? _)%nat; [|done].
  destruct (a !! (2 * (hole + 1))%nat) as [r|] eqn:Hr; [|done].
  destruct (a !! (2 * (hole + 1) - 1)%nat) as [l|] eqn:Hl; [|done].
  set (child := if comp r l then _ else _).
  destruct (a !! child) as [c|] eqn:Hc; [|done].
  destruct (IH child (<[hole := c]> a)) as [Hlt Hperm].
  { rewrite length_insert. by eapply lookup_lt_Some. }
  split; [done|]. intros value. rewrite Hperm. by apply insert_hole_move.
Qed.

Lemma adjust_heap_perm (holeIndex len : nat) (value : A) (a : list A) :
  (holeIndex < length a)%nat →
  adjust_heap comp holeIndex len value a ≡ₚ <[holeIndex := value]> a.
Proof.
  intros Hhole. unfold adjust_heap.
  destruct (adjust_heap_loop_perm len holeIndex len a Hhole) as [Hlt Hperm].
  destruct (adjust_heap_loop comp len holeIndex len a) as [a1 hole1].
  cbn [fst snd] in *.
  destruct (_ && _).
  - destruct (a1 !! (2 * (hole1 + 1) - 1)%nat) as [c|] eqn:Hc.
    + rewrite push_heap_perm.
      * rewrite <- Hperm. by apply insert_hole_move.
      * rewrite length_insert. by eapply lookup_lt_Some.
    + by rewrite push_heap_perm.
  - by rewrite push_heap_perm.
Qed.

Lemma pop_heap_perm (last result : nat) (a : list A) : pop_heap comp last result a ≡ₚ a.
Proof.
  unfold pop_heap. destruct (a !! result) as [value|] eqn:Hres; [|done].
  destruct (a !! 0%nat) as [top|] eqn:Htop; [|done].
  rewrite adjust_heap_perm.
  - by apply Permutation_insert_swap.
  - rewrite length_insert. by eapply lookup_lt_Some.
Qed.

Lemma make_heap_perm (a : list A) : make_heap comp a ≡ₚ a.
Proof.
  unfold make_heap. case_match; [done|].
  apply foldl_perm. intros a' parent.
  destruct (a' !! parent) as [value|] eqn:Hp; [|done].
  rewrite adjust_heap_perm by by eapply lookup_lt_Some.
  by rewrite list_insert_id.
Qed.

Lemma sort_heap_perm (a : list A) : sort_heap comp a ≡ₚ a.
Proof. apply foldl_perm. intros a' last. apply pop_heap_perm. Qed.

Lemma partial_sort_perm (a : list A) : partial_sort comp a ≡ₚ a.
Proof. unfold partial_sort. by rewrite sort_heap_perm, make_heap_perm. Qed.

Lemma introsort_loop_perm (depth_limit : nat) (a : list A) :
  introsort_loop comp depth_limit a ≡ₚ a.
Proof.
  revert a. induction depth_limit as [|d IH]; intros a; simpl.
  - case_match; [done|apply partial_sort_perm].
  - case_match; [done|].
    pose proof (unguarded_partition_pivot_perm a) as Hperm.
    destruct (unguarded_partition_pivot comp a) as [a' cut]; simpl in *.
    by rewrite !IH, take_drop.
Qed.

Lemma introsort_loop_small (depth_limit : nat) (a : list A) :
  (length a ≤ S_threshold)%nat → introsort_loop comp depth_limit a = a.
Proof.
  intros Hlen. destruct depth_limit; simpl;
    by rewrite (proj2 (Nat.leb_le _ _) Hlen).
Qed.
End std_sort_perm.

(** ** The insertion sort of [std::sort] *)

Section insertion.
Context {A : Type} (comp : A → A → bool).

Lemma insert_back_snoc (v x : A) (l : list A) :
  insert_back comp v (l ++ [x])
  = if comp v x then insert_back comp v l ++ [x] else l ++ [x; v].
Proof.
  induction l as [|y l IH].
  - simpl. by destruct (comp v x).
  - cbn [insert_back app]. rewrite IH. cbn [forallb]. rewrite forallb_app. cbn [forallb].
    destruct (comp v x), (comp v y), (forallb (comp v) l); simpl; try done.
    all: by destruct l.
Qed.

Lemma insert_back_perm (v : A) (l : list A) : insert_back comp v l ≡ₚ v :: l.
Proof.
  induction l as [|x l IH]; [done|]. cbn [insert_back].
  destruct (forallb _ _); [done|]. rewrite IH. apply Permutation_swap.
Qed.

Lemma insert_back_length (v : A) (l : list A) :
  length (insert_back comp v l) = S (length l).
Proof. by rewrite insert_back_perm. Qed.

Lemma unguarded_linear_insert_refine (val : A) (last : nat) (a : list A) :
  (last < length a)%nat →
  unguarded_linear_insert comp val last a
  = insert_back comp val (take last a) ++ drop (S last) a.
Proof.
  revert a. induction last as [|next IH]; intros a Hlast.
  - destruct a as [|x a]; [simpl in *; lia|done].
  - cbn [unguarded_linear_insert].
    destruct (lookup_lt_is_Some_2 a next) as [x Hx]; [lia|]. rewrite Hx.
    rewrite (take_S_r _ _ x), insert_back_snoc by done.
    destruct (comp val x).
    + rewrite IH by (rewrite length_insert; lia).
      rewrite take_insert_ge by lia. rewrite <- (assoc_L (++)). f_equal.
      rewrite drop_insert_ge by lia.
      replace (S next - S next)%nat with O by lia.
      destruct (lookup_lt_is_Some_2 a (S next)) as [y Hy]; [lia|].
      by rewrite (drop_S a y (S next)).
    + rewrite <- (assoc_L (++)). cbn [app].
      rewrite insert_take_drop, (take_S_r a next x) by done.
      by rewrite <- (assoc_L (++)).
Qed.
End insertion.

Lemma filter_none {A : Type} (P : A → Prop) `{!∀ x, Decision (P x)} (l : list A) :
  Forall (λ x, ¬ P x) l → filter P l = [].
Proof.
  induction 1 as [|x l Hx _ IH]; [done|]. by rewrite filter_cons_False.
Qed.

Section insertion_keyed.
Context {A : Type} (key : A → Z) (comp : A → A → bool).
Hypothesis comp_key : ∀ a b, comp a b = (key a <? key b).

Lemma forallb_comp (v : A) (l : list A) :
  forallb (comp v) l = true ↔ Forall (λ x, key v < key x) l.
Proof.
  rewrite forallb_forall, Forall_forall. setoid_rewrite comp_key.
  setoid_rewrite Z.ltb_lt. setoid_rewrite list_elem_of_In. done.
Qed.

Lemma insert_back_sorted (v : A) (l : list A) :
  StronglySorted (λ x y, key x ≤ key y) l →
  StronglySorted (λ x y, key x ≤ key y) (insert_back comp v l).
Proof.
  induction 1 as [|x l Hsorted IH Hx]; [by repeat constructor|].
  cbn [insert_back]. destruct (forallb (comp v) (x :: l)) eqn:Hall.
  - apply forallb_comp in Hall. constructor; [by constructor|].
    eapply Forall_impl; [done|]. simpl. lia.
  - constructor; [done|]. rewrite insert_back_perm. constructor; [|done].
    destruct (decide (key x ≤ key v)) as [|Hlt]; [done|].
    assert (forallb (comp v) (x :: l) = true) as Hall'; [|congruence].
    apply forallb_comp. constructor; [lia|].
    eapply Forall_impl; [done|]. simpl. lia.
Qed.

Lemma insert_back_filter (k : Z) (v : A) (l : list A) :
  filter (λ x, key x = k) (insert_back comp v l)
  = filter (λ x, key x = k) l ++ filter (λ x, key x = k) [v].
Proof.
  induction l as [|x l IH]; [done|].
  cbn [insert_back]. destruct (forallb (comp v) (x :: l)) eqn:Hall.
  - apply forallb_comp in Hall. rewrite (filter_cons _ v).
    destruct (decide (key v = k)) as [Hk|Hk].
    + rewrite filter_singleton_True by done.
      assert (filter (λ x, key x = k) (x :: l) = []) as ->; [|done].
      apply filter_none.
      eapply Forall_impl; [done|]. simpl. lia.
    + rewrite filter_singleton_False by done. by rewrite (right_id_L [] (++)).
  - rewrite !(filter_cons _ x), IH. by case_decide.
Qed.

Lemma insert_back_front (val front : A) (l : list A) :
  StronglySorted (λ x y, key x ≤ key y) l →
  head l = Some front → comp val front = true →
  insert_back comp val l = val :: l.
Proof.
  intros Hsorted Hhead Hlt. destruct l as [|x l]; simplify_eq/=.
  assert (forallb (comp val) (front :: l) = true) as Hall.
  { rewrite comp_key in Hlt. apply Z.ltb_lt in Hlt.
    apply forallb_comp. apply StronglySorted_inv in Hsorted as [_ Hfront].
    constructor; [done|]. eapply Forall_impl; [done|]. simpl. lia. }
  simpl in Hall. by rewrite Hall.
Qed.

Lemma insertion_sort_step_refine (i : nat) (val : A) (a : list A) :
  (1 ≤ i)%nat → a !! i = Some val →
  StronglySorted (λ x y, key x ≤ key y) (take i a) →
  insertion_sort_step comp i a = insert_back comp val (take i a) ++ drop (S i) a.
Proof.
  intros Hi Hval Hsorted. unfold insertion_sort_step. rewrite Hval.
  destruct (lookup_lt_is_Some_2 a 0) as [front Hfront].
  { apply lookup_lt_Some in Hval. lia. }
  rewrite Hfront. destruct (comp val front) eqn:Hlt.
  - rewrite (insert_back_front val front); [done..| |done].
    destruct a as [|x a]; [done|]. destruct i; [lia|]. by simplify_eq/=.
  - apply unguarded_linear_insert_refine. by eapply lookup_lt_Some.
Qed.

(** One insertion keeps the invariant. *)
Lemma sorted_upto_insert (i : nat) (val : A) (a0 a : list A) :
  sorted_upto key i a0 a → a !! i = Some val →
  sorted_upto key (S i) a0 (insert_back comp val (take i a) ++ drop (S i) a).
Proof.
  intros (Hlen & Hperm & Hsorted & Hdrop & Hfilter) Hval.
  assert (i < length a)%nat as Hi by by eapply lookup_lt_Some.
  assert (a0 !! i = Some val) as Hval0.
  { rewrite <- (Nat.add_0_r i), <- lookup_drop, <- Hdrop, lookup_drop.
    by rewrite Nat.add_0_r. }
  assert (length (insert_back comp val (take i a)) = S i) as Hlen'.
  { rewrite insert_back_length, length_take. lia. }
  split_and!.
  - rewrite length_app, Hlen', length_drop. lia.
  - rewrite insert_back_perm, <- Hperm. simpl.
    by rewrite Permutation_middle, take_drop_middle.
  - rewrite take_app_length' by done. by apply insert_back_sorted.
  - rewrite drop_app_length' by done.
    replace (S i) with (i + 1)%nat by lia.
    rewrite <- !drop_drop. by rewrite Hdrop.
  - intros k. rewrite take_app_length' by done.
    rewrite insert_back_filter, Hfilter, (take_S_r a0 i val) by done.
    by rewrite filter_app.
Qed.

Lemma sorted_upto_init (a : list A) : sorted_upto key 1 a a.
Proof.
  split_and!; try done.
  destruct a; simpl; rewrite ?take_0; repeat constructor.
Qed.

Lemma insertion_sort_spec (last : nat) (a : list A) :
  (1 ≤ last ≤ length a)%nat →
  sorted_upto key last a (insertion_sort comp last a).
Proof.
  intros Hlast. unfold insertion_sort.
  loop_invariant (λ (i : nat) (s : list A), sorted_upto key i a s).
  - lia.
  - apply sorted_upto_init.
  - intros i s Hi Hinv.
    destruct (lookup_lt_is_Some_2 s i) as [val Hval].
    { destruct Hinv as [-> _]. lia. }
    rewrite (insertion_sort_step_refine i val); [|lia|done|apply Hinv].
    by apply sorted_upto_insert.
  - done.
Qed.

Lemma unguarded_insertion_sort_spec (first last : nat) (a0 a : list A) :
  (first ≤ last ≤ length a0)%nat →
  sorted_upto key first a0 a →
  sorted_upto key last a0 (unguarded_insertion_sort comp first last a).
Proof.
  intros Hlast Hfirst. unfold unguarded_insertion_sort.
  loop_invariant (λ (i : nat) (s : list A), sorted_upto key i a0 s).
  - lia.
  - done.
  - intros i s Hi Hinv.
    destruct (lookup_lt_is_Some_2 s i) as [val Hval].
    { destruct Hinv as [-> _]. lia. }
    rewrite Hval, unguarded_linear_insert_refine by by eapply lookup_lt_Some.
    by apply sorted_upto_insert.
  - done.
Qed.

Lemma final_insertion_sort_spec (a : list A) :
  sorted_upto key (length a) a (final_insertion_sort comp a).
Proof.
  unfold final_insertion_sort. destruct (S_threshold <? length a)%nat eqn:Hlen.
  - apply Nat.ltb_lt in Hlen.
    apply (unguarded_insertion_sort_spec S_threshold); [lia|].
    apply insertion_sort_spec. unfold S_threshold in *. lia.
  - destruct a as [|x a].
    + unfold insertion_sort. rewrite for_loop_empty by (simpl; lia).
      split_and!; try done. constructor.
    + apply insertion_sort_spec. simpl. lia.
Qed.

(** The final insertion sort is a stable sort of its input. *)
Lemma final_insertion_sort_stable (a : list A) :
  StronglySorted (λ x y, key x ≤ key y) (final_insertion_sort comp a) ∧
  final_insertion_sort comp a ≡ₚ a ∧
  ∀ k : Z, filter (λ x, key x = k) (final_insertion_sort comp a)
           = filter (λ x, key x = k) a.
Proof.
  destruct (final_insertion_sort_spec a) as (Hlen & Hperm & Hsorted & _ & Hfilter).
  rewrite <- Hlen, firstn_all in Hsorted. split_and!; [done..|].
  intros k. specialize (Hfilter k).
  rewrite <- Hlen in Hfilter at 1. by rewrite !firstn_all in Hfilter.
Qed.

(** [std::sort] sorts, whatever the size of the range. *)
Lemma std_sort_sorted (a : list A) :
  StronglySorted (λ x y, key x ≤ key y) (std_sort comp a).
Proof.
  unfold std_sort. destruct a as [|x a]; [constructor|].
  apply final_insertion_sort_stable.
Qed.

Lemma std_sort_perm (a : list A) : std_sort comp a ≡ₚ a.
Proof.
  unfold std_sort. destruct a as [|x a]; [done|].
  destruct (final_insertion_sort_stable
              (introsort_loop comp (Nat.log2 (length (x :: a)) * 2) (x :: a)))
    as (_ & -> & _).
  apply introsort_loop_perm.
Qed.

(** On a range of at most 16 elements, [std::sort] is a stable sort. *)
Lemma std_sort_small_stable (a : list A) (k : Z) :
  (length a ≤ 16)%nat →
  filter (λ x, key x = k) (std_sort comp a) = filter (λ x, key x = k) a.
Proof.
  intros Hlen. unfold std_sort. destruct a as [|x a]; [done|].
  rewrite introsort_loop_small by done.
  apply final_insertion_sort_stable.
Qed.
End insertion_keyed.

(** ** The non-preemptive strategies *)

Lemma compareByBurstTime_key (a b : Process) :
  compareByBurstTime a b = (burst_time a <? burst_time b).
Proof. done. Qed.

(** The tables of the metrics calculator in closed form: the prefix sums
    of the burst times, as [int]s. *)
Lemma non_preemptive_metrics_tables (N : nat) (processes : list Process) (i : nat) :
  length processes = N → (i < N)%nat →
  waiting_time (non_preemptive_metrics N processes) !! i
  = Some (wrap (prefix_burst processes i)) ∧
  turnaround_time (non_preemptive_metrics N processes) !! i
  = Some (wrap (prefix_burst processes (S i))).
Proof.
  intros Hlen Hi. cbn [non_preemptive_metrics waiting_time turnaround_time].
  destruct (waiting_loop_spec N processes) as [_ Hw]; [lia|].
  destruct (turnaround_loop_spec N processes (waiting_loop N processes)) as [_ Ht].
  split; [by apply Hw|]. rewrite Ht by done. f_equal.
  rewrite (list_lookup_total_correct _ _ _ (Hw i Hi)).
  unfold int_add. rewrite wrap_add_l, prefix_burst_S by lia. done.
Qed.

Lemma non_preemptive_metrics_length (N : nat) (processes : list Process) :
  length processes = N →
  length (waiting_time (non_preemptive_metrics N processes)) = N ∧
  length (turnaround_time (non_preemptive_metrics N processes)) = N.
Proof.
  intros Hlen. cbn [non_preemptive_metrics waiting_time turnaround_time].
  split; [apply waiting_loop_spec; lia|apply turnaround_loop_spec].
Qed.

(** The averages of a table of at most [2^22] rows. *)
Lemma non_preemptive_metrics_averages (N : nat) (processes : list Process) :
  length processes = N → N ≠ O → Z.of_nat N ≤ 2 ^ 22 →
  avg_waiting_time (non_preemptive_metrics N processes)
  = Finite (round_double (mean (waiting_time (non_preemptive_metrics N processes)))) ∧
  avg_turnaround_time (non_preemptive_metrics N processes)
  = Finite (round_double (mean (turnaround_time (non_preemptive_metrics N processes)))).
Proof.
  intros Hlen HN Hcap.
  cbn [non_preemptive_metrics waiting_time turnaround_time avg_waiting_time
         avg_turnaround_time].
  rewrite average_loop_exact; [done| | | | |done|done].
  - apply waiting_loop_spec. lia.
  - apply turnaround_loop_spec.
  - apply waiting_loop_int. lia.
  - apply turnaround_loop_int.
Qed.

Lemma non_preemptive_metrics_finite (N : nat) (processes : list Process) :
  N ≠ O →
  ∃ w t : Q,
    avg_waiting_time (non_preemptive_metrics N processes) = Finite w ∧
    avg_turnaround_time (non_preemptive_metrics N processes) = Finite t.
Proof.
  intros HN.
  cbn [non_preemptive_metrics avg_waiting_time avg_turnaround_time].
  destruct (average_loop_finite N (waiting_loop N processes)
              (turnaround_loop N processes (waiting_loop N processes)) HN)
    as (w & t & ->).
  by exists w, t.
Qed.

(** Without overflow the tables are the prefix sums themselves. *)
Lemma non_preemptive_metrics_lookup (N : nat) (processes : list Process) (i : nat) :
  length processes = N → (i < N)%nat →
  Forall (λ p, 0 ≤ burst_time p) processes →
  Zsum (burst_time <$> processes) ≤ INT_MAX →
  waiting_time (non_preemptive_metrics N processes) !! i
  = Some (prefix_burst processes i) ∧
  turnaround_time (non_preemptive_metrics N processes) !! i
  = Some (prefix_burst processes (S i)).
Proof.
  intros Hlen Hi Hb Htotal.
  destruct (non_preemptive_metrics_tables N processes i Hlen Hi) as [-> ->].
  by rewrite !wrap_small by by apply prefix_burst_int.
Qed.

Lemma non_preemptive_metrics_recurrence (N : nat) (processes : list Process) :
  length processes = N → N ≠ O →
  Forall (λ p, 0 ≤ burst_time p) processes →
  Zsum (burst_time <$> processes) ≤ INT_MAX →
  metrics_recurrence N (non_preemptive_metrics N processes).
Proof.
  intros Hlen HN Hb Htotal.
  destruct (non_preemptive_metrics_length N processes Hlen) as [Hwlen Htlen].
  assert (∀ i, (i < N)%nat →
               waiting_time (non_preemptive_metrics N processes) !!! i
               = prefix_burst processes i) as Hw.
  { intros i Hi. apply list_lookup_total_correct.
    by apply non_preemptive_metrics_lookup. }
  assert (∀ i, (i < N)%nat →
               turnaround_time (non_preemptive_metrics N processes) !!! i
               = prefix_burst processes (S i)) as Ht.
  { intros i Hi. apply list_lookup_total_correct.
    by apply non_preemptive_metrics_lookup. }
  unfold metrics_recurrence. split_and!; [done..| | | |].
  - by apply non_preemptive_metrics_lookup; [|lia|..].
  - intros i Hi. rewrite !Hw by lia. cbn [non_preemptive_metrics order].
    replace i with (S (i - 1)) at 1 by lia. apply prefix_burst_S. lia.
  - intros i Hi. rewrite Hw, Ht by lia. cbn [non_preemptive_metrics order].
    apply prefix_burst_S. lia.
  - intros Hcap. by apply non_preemptive_metrics_averages.
Qed.

Lemma sjf_order_ascending (batch : list Process) :
  ascending burst_time batch (order (shortest_job_first batch)).
Proof.
  split.
  - apply (std_sort_sorted burst_time). apply compareByBurstTime_key.
  - apply (std_sort_perm burst_time). apply compareByBurstTime_key.
Qed.

Lemma priority_order_ascending (batch : list Process) :
  ascending priority batch (order (priority_scheduling batch)).
Proof.
  split.
  - by apply (std_sort_sorted priority).
  - by apply (std_sort_perm priority).
Qed.

(** C2, refuted as stated: on a batch whose burst times add up to more
    than [INT_MAX] the [int] additions of the table wrap around, so that a
    waiting time is not the sum the recurrence asks for; and the returned
    average is a [double], which the exact mean 13/3 of scenario A is not:
    FCFS returns 4878899596318037 / 2^50. *)
Lemma non_preemptive_metrics_not_exact :
  waiting_time (first_come_first_served overflow_batch) = [0; INT_MAX; - INT_MAX - 1] ∧
  waiting_time (first_come_first_served overflow_batch) !!! 2%nat
  ≠ waiting_time (first_come_first_served overflow_batch) !!! 1%nat
    + burst_time (order (first_come_first_served overflow_batch) !!! 1%nat) ∧
  mean (waiting_time (first_come_first_served scenario_batch)) = (13 # 3)%Q ∧
  avg_waiting_time (first_come_first_served scenario_batch)
  = Finite (4878899596318037 # 1125899906842624) ∧
  ¬ double_eq (avg_waiting_time (first_come_first_served scenario_batch))
      (Finite (mean (waiting_time (first_come_first_served scenario_batch)))).
Proof.
  split; [by vm_compute|]. split; [by vm_compute|]. split; [by vm_compute|].
  split; [by vm_compute|]. vm_compute. discriminate.
Qed.

(** C2, amended: for every non-empty batch whose burst times are not
    negative and add up to at most [INT_MAX], and each of FCFS, SJF and
    Priority, with [order r] the execution sequence of the strategy:
    [waiting_time[0] = 0], [waiting_time[i] = waiting_time[i-1] +
    order[i-1].burst_time] for [i > 0], [turnaround_time[i] =
    waiting_time[i] + order[i].burst_time] for every [i]; and for a batch
    of at most [2^22] processes the two averages are the doubles nearest to
    the exact arithmetic means of [waiting_time] and [turnaround_time]. *)
Theorem non_preemptive_metrics_exact (batch : list Process) :
  batch ≠ [] →
  Forall (λ p, 0 ≤ burst_time p) batch →
  Zsum (burst_time <$> batch) ≤ INT_MAX →
  metrics_recurrence (length batch) (first_come_first_served batch) ∧
  metrics_recurrence (length batch) (shortest_job_first batch) ∧
  metrics_recurrence (length batch) (priority_scheduling batch).
Proof.
  intros Hne Hb Htotal. assert (length batch ≠ O) by by destruct batch.
  assert (∀ ordered, ordered ≡ₚ batch →
            length ordered = length batch ∧
            Forall (λ p, 0 ≤ burst_time p) ordered ∧
            Zsum (burst_time <$> ordered) ≤ INT_MAX) as Hperm.
  { intros ordered Hp. split_and!.
    - by apply Permutation_length.
    - by rewrite Hp.
    - by rewrite (Zsum_perm _ _ (fmap_Permutation burst_time _ _ Hp)). }
  split_and!.
  - by apply non_preemptive_metrics_recurrence.
  - destruct (Hperm _ (proj2 (sjf_order_ascending batch))) as (? & ? & ?).
    by apply non_preemptive_metrics_recurrence.
  - destruct (Hperm _ (proj2 (priority_order_ascending batch))) as (? & ? & ?).
    by apply non_preemptive_metrics_recurrence.
Qed.

Lemma non_preemptive_metrics_exact_witness :
  scenario_batch ≠ [] ∧
  Forall (λ p, 0 ≤ burst_time p) scenario_batch ∧
  Zsum (burst_time <$> scenario_batch) ≤ INT_MAX ∧
  metrics_recurrence 3 (first_come_first_served scenario_batch) ∧
  metrics_recurrence 3 (shortest_job_first scenario_batch) ∧
  metrics_recurrence 3 (priority_scheduling scenario_batch).
Proof.
  assert (scenario_batch ≠ []) as Hne by done.
  assert (Forall (λ p, 0 ≤ burst_time p) scenario_batch) as Hb.
  { repeat constructor; simpl; lia. }
  assert (Zsum (burst_time <$> scenario_batch) ≤ INT_MAX) as Htotal.
  { vm_compute. discriminate. }
  split; [exact Hne|]. split; [exact Hb|]. split; [exact Htotal|].
  exact (non_preemptive_metrics_exact scenario_batch Hne Hb Htotal).
Defined.

(** C6: FCFS executes every batch in its arrival order, the first process
    of a non-empty batch waits 0, and the batch of scenario A yields
    waiting = [0,5,8], turnaround = [5,8,16] and, as its average waiting
    time, the double nearest to 13/3, which prints as 4.33. *)
Theorem fcfs_order_preserving (batch : list Process) :
  order (first_come_first_served batch) = batch ∧
  waiting_time (first_come_first_served batch) !! 0%nat
  = (if is_empty batch then None else Some 0) ∧
  waiting_time (first_come_first_served scenario_batch) = [0; 5; 8] ∧
  turnaround_time (first_come_first_served scenario_batch) = [5; 8; 16] ∧
  avg_waiting_time (first_come_first_served scenario_batch)
  = Finite (round_double (13 # 3)) ∧
  shown_as (round_double (13 # 3)) 433.
Proof.
  split_and!; [done| |by vm_compute|by vm_compute|by vm_compute|].
  - destruct batch as [|p batch]; [done|].
    destruct (non_preemptive_metrics_tables (length (p :: batch)) (p :: batch) O)
      as [Hw _]; [done|cbn [length]; lia|].
    cbn [is_empty]. unfold first_come_first_served. rewrite Hw.
    by rewrite prefix_burst_0, wrap_0.
  - unfold shown_as. split; by vm_compute.
Qed.

(** C1, refuted as stated: on seventeen processes with the same burst time
    and the same priority, neither SJF nor Priority keeps the arrival
    order.  [std::sort] swaps the middle element to the front as the pivot
    and its partition then swaps the elements of the two halves pairwise,
    so that the processes run in the order 8, 16, 15, ..., 9, 0, 7, ..., 1. *)
Lemma sort_strategies_not_stable :
  pid <$> order (shortest_job_first equal_batch)
  = [8; 16; 15; 14; 13; 12; 11; 10; 9; 0; 7; 6; 5; 4; 3; 2; 1] ∧
  pid <$> order (priority_scheduling equal_batch)
  = [8; 16; 15; 14; 13; 12; 11; 10; 9; 0; 7; 6; 5; 4; 3; 2; 1] ∧
  ¬ stable_ascending burst_time equal_batch (order (shortest_job_first equal_batch)) ∧
  ¬ stable_ascending priority equal_batch (order (priority_scheduling equal_batch)).
Proof.
  split; [by vm_compute|]. split; [by vm_compute|].
  split; intros [_ Hstable].
  - specialize (Hstable 5). vm_compute in Hstable. discriminate.
  - specialize (Hstable 1). vm_compute in Hstable. discriminate.
Qed.

(** C1, amended: for every batch of at most 16 processes, the execution
    order of SJF is the stable ascending sort of the batch by burst time
    and that of Priority the stable ascending sort by priority; for the
    batch of scenario C, Priority runs id0, id2, id1 with waiting =
    [0,5,13] and turnaround = [5,13,16].  On a batch of any size the two
    orders are ascending permutations of the batch. *)
Theorem sort_strategies_stable_small (batch : list Process) :
  (length batch ≤ 16)%nat →
  stable_ascending burst_time batch (order (shortest_job_first batch)) ∧
  stable_ascending priority batch (order (priority_scheduling batch)) ∧
  pid <$> order (priority_scheduling scenario_batch) = [0; 2; 1] ∧
  waiting_time (priority_scheduling scenario_batch) = [0; 5; 13] ∧
  turnaround_time (priority_scheduling scenario_batch) = [5; 13; 16] ∧
  ∀ larger : list Process,
    ascending burst_time larger (order (shortest_job_first larger)) ∧
    ascending priority larger (order (priority_scheduling larger)).
Proof.
  intros Hlen. split_and!; try done.
  - split; [apply sjf_order_ascending|].
    intros k. by apply (std_sort_small_stable burst_time).
  - split; [apply priority_order_ascending|].
    intros k. by apply (std_sort_small_stable priority).
  - intros larger. split; [apply sjf_order_ascending|apply priority_order_ascending].
Qed.

Lemma sort_strategies_stable_small_witness :
  (length scenario_batch ≤ 16)%nat ∧
  stable_ascending burst_time scenario_batch (order (shortest_job_first scenario_batch)) ∧
  stable_ascending priority scenario_batch (order (priority_scheduling scenario_batch)).
Proof.
  split; [simpl; lia|].
  destruct (sort_strategies_stable_small scenario_batch) as (Hb & Hp & _); [simpl; lia|].
  split; [exact Hb|exact Hp].
Defined.

(** ** Shortest job first minimises the total waiting time *)

Lemma waiting_loop_prefix (processes : list Process) :
  Forall (λ p, 0 ≤ burst_time p) processes →
  Zsum (burst_time <$> processes) ≤ INT_MAX →
  waiting_loop (length processes) processes
  = prefix_burst processes <$> seq 0 (length processes).
Proof.
  intros Hb Htotal.
  destruct (waiting_loop_spec (length processes) processes) as [Hlen _]; [done|].
  apply list_eq. intros i. rewrite list_lookup_fmap.
  destruct (decide (i < length processes)%nat) as [Hi|Hi].
  - rewrite waiting_loop_exact by done. by rewrite lookup_seq_lt.
  - rewrite !lookup_ge_None_2; [done|rewrite length_seq; lia|lia].
Qed.

Lemma Zsum_shift (f : nat → Z) (b : Z) (l : list nat) :
  Zsum ((λ i, b + f i) <$> l) = Z.of_nat (length l) * b + Zsum (f <$> l).
Proof.
  induction l as [|i l IH]; [done|].
  rewrite !fmap_cons, !Zsum_cons, IH. simpl length. lia.
Qed.

Lemma Zsum_prefix_burst (processes : list Process) :
  Zsum (prefix_burst processes <$> seq 0 (length processes))
  = total_wait (burst_time <$> processes).
Proof.
  induction processes as [|p processes IH]; [done|].
  simpl length. cbn [seq]. rewrite fmap_cons, Zsum_cons, prefix_burst_0.
  rewrite <- fmap_S_seq, <- list_fmap_compose.
  rewrite (list_fmap_ext _ (λ i, burst_time p + prefix_burst processes i) (seq 0 _) )
    by done.
  rewrite Zsum_shift, IH, length_seq. rewrite fmap_cons. cbn [total_wait].
  rewrite length_fmap. lia.
Qed.

Lemma total_wait_insert_back (v : Z) (l : list Z) :
  total_wait (insert_back Z.ltb v l) ≤ total_wait l + Zsum l.
Proof.
  induction l as [|x l IH]; [done|].
  cbn [insert_back]. destruct (forallb (Z.ltb v) (x :: l)) eqn:Hall.
  - apply (forallb_comp id Z.ltb) in Hall; [|done].
    assert (Z.of_nat (length (x :: l)) * v ≤ Zsum (x :: l)) as Hle.
    { clear IH. induction Hall as [|y k Hy _ IH]; [done|].
      rewrite Zsum_cons. simpl length. simpl in *. lia. }
    cbn [total_wait]. cbn [total_wait] in Hle. lia.
  - cbn [total_wait]. rewrite insert_back_length, Zsum_cons. lia.
Qed.

Lemma insertion_sorted_snoc (l : list Z) (v : Z) :
  insertion_sorted (l ++ [v]) = insert_back Z.ltb v (insertion_sorted l).
Proof. unfold insertion_sorted. by rewrite foldl_snoc. Qed.

Lemma insertion_sorted_perm (l : list Z) : insertion_sorted l ≡ₚ l.
Proof.
  induction l as [|v l IH] using rev_ind; [done|].
  rewrite insertion_sorted_snoc, insert_back_perm, IH.
  by rewrite Permutation_cons_append.
Qed.

Lemma insertion_sorted_sorted (l : list Z) : StronglySorted Z.le (insertion_sorted l).
Proof.
  induction l as [|v l IH] using rev_ind; [constructor|].
  rewrite insertion_sorted_snoc. by apply (insert_back_sorted id Z.ltb).
Qed.

Lemma total_wait_snoc (l : list Z) (v : Z) :
  total_wait (l ++ [v]) = total_wait l + Zsum l.
Proof.
  induction l as [|x l IH]; [done|].
  cbn [app total_wait]. rewrite IH, length_app, Zsum_cons. simpl length. lia.
Qed.

Lemma total_wait_insertion_sorted (l : list Z) :
  total_wait (insertion_sorted l) ≤ total_wait l.
Proof.
  induction l as [|v l IH] using rev_ind; [done|].
  rewrite insertion_sorted_snoc, total_wait_snoc.
  pose proof (total_wait_insert_back v (insertion_sorted l)).
  rewrite (Zsum_perm _ _ (insertion_sorted_perm l)) in *. lia.
Qed.

(** Among the orderings of a multiset of bursts, the ascending one has the
    least total waiting time. *)
Lemma total_wait_sorted_le (l k : list Z) :
  StronglySorted Z.le l → l ≡ₚ k → total_wait l ≤ total_wait k.
Proof.
  intros Hsorted Hperm.
  assert (l = insertion_sorted k) as ->; [|apply total_wait_insertion_sorted].
  apply (StronglySorted_unique Z.le); [done|apply insertion_sorted_sorted|].
  by rewrite insertion_sorted_perm.
Qed.

Lemma avg_waiting_time_total (N : nat) (processes : list Process) :
  length processes = N → N ≠ O → Z.of_nat N ≤ 2 ^ 22 →
  Forall (λ p, 0 ≤ burst_time p) processes →
  Zsum (burst_time <$> processes) ≤ INT_MAX →
  avg_waiting_time (non_preemptive_metrics N processes)
  = Finite (round_double (inject_Z (total_wait (burst_time <$> processes))
                          / inject_Z (Z.of_nat N))).
Proof.
  intros Hlen HN Hcap Hb Htotal.
  rewrite (proj1 (non_preemptive_metrics_averages N processes Hlen HN Hcap)).
  unfold mean. rewrite (proj1 (non_preemptive_metrics_length N processes Hlen)).
  cbn [non_preemptive_metrics waiting_time]. subst N.
  by rewrite waiting_loop_prefix, Zsum_prefix_burst.
Qed.

Lemma Qdiv_le_compat (x y : Z) (n : nat) :
  x ≤ y → (inject_Z x / inject_Z (Z.of_nat n) <= inject_Z y / inject_Z (Z.of_nat n))%Q.
Proof.
  intros Hxy. unfold Qdiv. apply Qmult_le_compat_r; [by rewrite <- Zle_Qle|].
  apply Qinv_le_0_compat. replace 0%Q with (inject_Z 0) by done.
  rewrite <- Zle_Qle. lia.
Qed.

(** The sum of the first elements of an ascending list is at most the sum
    of as many of its elements, whichever they are. *)
Lemma Zsum_take_sorted_le (l m : list Z) :
  StronglySorted Z.le l → m ⊆+ l → Zsum (take (length m) l) ≤ Zsum m.
Proof.
  intros Hsorted. revert m. induction Hsorted as [|x l Hl IH Hx]; intros m Hm.
  - apply submseteq_nil_r in Hm as ->. done.
  - apply submseteq_cons_r in Hm as [Hm|(m' & Hperm & Hm')].
    + destruct m as [|y m]; [done|].
      specialize (IH _ Hm). pose proof (submseteq_length _ _ Hm) as Hlen.
      cbn [length] in *. cbn [take]. rewrite Zsum_cons.
      rewrite Zsum_take_S in IH by lia.
      assert (x ≤ l !!! length m); [|lia].
      rewrite Forall_forall in Hx. apply Hx, list_elem_of_lookup_total_2. lia.
    + rewrite (Permutation_length Hperm), (Zsum_perm _ _ Hperm).
      cbn [length take]. rewrite !Zsum_cons. specialize (IH _ Hm'). lia.
Qed.

Lemma prefix_sorted_le (l k : list Z) (i : nat) :
  StronglySorted Z.le l → l ≡ₚ k → Zsum (take i l) ≤ Zsum (take i k).
Proof.
  intros Hsorted Hperm. destruct (decide (i ≤ length k)%nat) as [Hi|Hi].
  - rewrite <- (length_take_le k i) at 1 by done.
    apply Zsum_take_sorted_le; [done|]. rewrite Hperm.
    apply sublist_submseteq, sublist_take.
  - rewrite !take_ge by (rewrite ?(Permutation_length Hperm); lia).
    by rewrite (Zsum_perm _ _ Hperm).
Qed.

(** Every process of an ascending order waits at most as long as the
    process in the same row of any other order. *)
Lemma prefix_burst_ascending_le (ordered other : list Process) (i : nat) :
  StronglySorted (λ a b, burst_time a ≤ burst_time b) ordered →
  ordered ≡ₚ other →
  prefix_burst ordered i ≤ prefix_burst other i.
Proof.
  intros Hsorted Hperm. unfold prefix_burst. rewrite !fmap_take.
  apply prefix_sorted_le.
  - eapply StronglySorted_fmap; [|done]. done.
  - by rewrite Hperm.
Qed.

(** C10, refuted as stated: on three processes whose burst times add up to
    more than [INT_MAX], the last waiting time of FCFS wraps around to
    [- INT_MAX - 1]; FCFS then returns the double nearest to -1/3, and SJF,
    which runs the two short processes first, returns 1. *)
Lemma sjf_average_above_fcfs_on_overflow :
  overflow_batch ≠ [] ∧
  avg_waiting_time (shortest_job_first overflow_batch) = Finite 1 ∧
  avg_waiting_time (first_come_first_served overflow_batch)
  = Finite (round_double (- 1 # 3)) ∧
  ¬ (1 <= round_double (- 1 # 3))%Q.
Proof.
  split; [done|]. split; [by vm_compute|]. split; [by vm_compute|].
  vm_compute. by intros H.
Qed.

(** C10, amended: for every non-empty batch whose burst times are not
    negative and add up to at most [INT_MAX], the average waiting time SJF
    returns is at most the one FCFS returns; more generally, running the
    batch in any ascending burst-time order, however ties are broken, waits
    no longer on average than running it in any other order. *)
Theorem sjf_minimises_average_wait (batch : list Process) :
  batch ≠ [] →
  Forall (λ p, 0 ≤ burst_time p) batch →
  Zsum (burst_time <$> batch) ≤ INT_MAX →
  (∃ sjf fcfs : Q,
     avg_waiting_time (shortest_job_first batch) = Finite sjf ∧
     avg_waiting_time (first_come_first_served batch) = Finite fcfs ∧
     (sjf <= fcfs)%Q) ∧
  (∀ ordered other : list Process,
     ascending burst_time batch ordered → other ≡ₚ batch →
     ∃ a b : Q,
       avg_waiting_time (first_come_first_served ordered) = Finite a ∧
       avg_waiting_time (first_come_first_served other) = Finite b ∧
       (a <= b)%Q).
Proof.
  intros Hne Hb Htotal. assert (length batch ≠ O) as HN by by destruct batch.
  assert (∀ ordered other : list Process,
            ascending burst_time batch ordered → other ≡ₚ batch →
            ∃ a b : Q,
              avg_waiting_time (non_preemptive_metrics (length batch) ordered) = Finite a ∧
              avg_waiting_time (non_preemptive_metrics (length batch) other) = Finite b ∧
              (a <= b)%Q) as Hmin.
  { intros ordered other [Hsorted Hperm] Hother.
    assert (∀ l i, l ≡ₚ batch → (i < length batch)%nat →
              waiting_loop (length batch) l !!! i = prefix_burst l i) as Htable.
    { intros l i Hl Hi. apply list_lookup_total_correct.
      apply waiting_loop_exact; [by rewrite (Permutation_length Hl)| | |done].
      - by rewrite Hl.
      - by rewrite (Zsum_perm _ _ (fmap_Permutation burst_time _ _ Hl)). }
    cbn [non_preemptive_metrics avg_waiting_time].
    apply average_loop_mono; [done|]. intros i Hi.
    rewrite !Htable by done. apply prefix_burst_ascending_le; [done|].
    by rewrite Hperm, Hother. }
  split.
  - apply (Hmin _ batch); [apply sjf_order_ascending|done].
  - intros ordered other Hordered Hother. unfold first_come_first_served.
    rewrite (Permutation_length (proj2 Hordered)), (Permutation_length Hother).
    by apply Hmin.
Qed.

Lemma sjf_minimises_average_wait_witness :
  scenario_batch ≠ [] ∧
  Forall (λ p, 0 ≤ burst_time p) scenario_batch ∧
  Zsum (burst_time <$> scenario_batch) ≤ INT_MAX ∧
  ∃ sjf fcfs : Q,
    avg_waiting_time (shortest_job_first scenario_batch) = Finite sjf ∧
    avg_waiting_time (first_come_first_served scenario_batch) = Finite fcfs ∧
    (sjf <= fcfs)%Q.
Proof.
  assert (scenario_batch ≠ []) as Hne by done.
  assert (Forall (λ p, 0 ≤ burst_time p) scenario_batch) as Hb.
  { repeat constructor; simpl; lia. }
  assert (Zsum (burst_time <$> scenario_batch) ≤ INT_MAX) as Htotal.
  { vm_compute. discriminate. }
  split; [exact Hne|]. split; [exact Hb|]. split; [exact Htotal|].
  exact (proj1 (sjf_minimises_average_wait scenario_batch Hne Hb Htotal)).
Defined.

(** ** Round robin: the invariant *)

Lemma ran_by_snoc (i : nat) (trace : list Slice) (e : Slice) :
  ran_by i (trace ++ [e]) = ran_by i trace + (if decide (who e = i) then ran e else 0).
Proof.
  unfold ran_by. rewrite filter_app, fmap_app, Zsum_app. f_equal.
  rewrite filter_cons, filter_nil. case_decide; [|done].
  unfold Zsum; simpl; lia.
Qed.

Lemma finishing_snoc (i : nat) (trace : list Slice) (e : Slice) :
  finishing i (trace ++ [e])
  = finishing i trace ++ (if decide (who e = i ∧ finished e = true) then [e] else []).
Proof. unfold finishing. rewrite filter_app. f_equal. Qed.

Lemma elapsed_clocks_snoc (trace : list Slice) (e : Slice) :
  elapsed_clocks trace → clock e = Zsum (ran <$> trace) + ran e →
  elapsed_clocks (trace ++ [e]).
Proof.
  intros Hclocks He k e' Hk.
  destruct (decide (k < length trace)%nat) as [Hlt|Hge].
  - rewrite lookup_app_l in Hk by done. rewrite take_app_le by lia. by apply Hclocks.
  - rewrite lookup_app_r in Hk by lia.
    destruct (k - length trace)%nat eqn:Hkl; simplify_eq/=.
    rewrite take_ge by (rewrite length_app; simpl; lia).
    by rewrite fmap_app, (Zsum_snoc _ (ran e')).
Qed.

(** The invariant holds when no addition overflows: on a batch whose
    burst times add up to at most [INT_MAX]. *)
Section rr_invariant.
Context (quantum : Z) (processes : list Process).
Hypothesis quantum_pos : 0 < quantum.
Hypothesis total_le : Zsum (burst_time <$> processes) ≤ INT_MAX.

(** The clock and the waiting time that a slice of length [q] computes do
    not overflow. *)
Lemma rr_slice_no_overflow (i : nat) (s : RRState) (q : Z) :
  (i < length processes)%nat → rr_inv processes s →
  0 < q ≤ rr_remaining_burst_time s !!! i →
  int_add (rr_time s) q = rr_time s + q ∧
  int_sub (rr_time s + q) (burst_time (processes !!! i))
  = rr_time s + q - burst_time (processes !!! i).
Proof.
  intros Hi [Hrl Hwl Hcl Hrange Htime Htrace Hclocks Hran Hfin Hunfin Hlast Hcle Hwr] Hq.
  assert (Forall (λ x, 0 ≤ x) (rr_remaining_burst_time s)) as Hrem.
  { apply Forall_lookup_2. intros j x Hx.
    assert (j < length processes)%nat as Hj by (apply lookup_lt_Some in Hx; lia).
    specialize (Hrange j Hj). rewrite (list_lookup_total_correct _ _ _ Hx) in Hrange.
    simpl. lia. }
  assert (Forall (λ x, 0 ≤ x) (burst_time <$> processes)) as Hbursts.
  { apply Forall_lookup_2. intros j x Hx.
    assert (j < length processes)%nat as Hj
      by (apply lookup_lt_Some in Hx; by rewrite length_fmap in Hx).
    specialize (Hrange j Hj). apply list_lookup_total_correct in Hx.
    rewrite (list_lookup_total_fmap burst_time) in Hx by done. simpl. lia. }
  pose proof (Zsum_lookup_le _ i Hrem ltac:(lia)) as Hri.
  pose proof (Zsum_lookup_le _ i Hbursts ltac:(rewrite length_fmap; lia)) as Hbi.
  rewrite (list_lookup_total_fmap burst_time) in Hbi by done.
  pose proof (Hcle i Hi) as Ht. pose proof (Hrange i Hi) as Hrb.
  split.
  - apply int_add_small. unfold in_int_range, INT_MAX in *. lia.
  - apply int_sub_small. unfold in_int_range, INT_MAX in *. lia.
Qed.

Lemma rr_body_inv (i : nat) (s : RRState) :
  (i < length processes)%nat → rr_inv processes s →
  rr_inv processes (rr_body quantum processes i s).
Proof.
  intros Hi Hinv. pose proof (rr_slice_no_overflow i s) as Hslice.
  specialize (Hslice) with (1 := Hi) (2 := Hinv). revert Hslice.
  destruct Hinv as [Hrl Hwl Hcl Hrange Htime Htrace Hclocks Hran Hfin Hunfin Hlast Hcle
                      Hwr].
  intros Hslice. unfold rr_body. pose proof (Hrange i Hi) as Hri.
  destruct (0 <? _) eqn:Hpos; [apply Z.ltb_lt in Hpos|done].
  destruct (quantum <? _) eqn:Hq; [apply Z.ltb_lt in Hq|apply Z.ltb_ge in Hq].
  all: match goal with
       | |- context [int_add _ ?q] =>
           destruct (Hslice q) as [Hadd Hsub]; [lia|rewrite ?Hadd, ?Hsub]
       end.
  - (* a full quantum *)
    split; cbn [rr_time rr_remaining_burst_time rr_waiting_time rr_completion_time
                  rr_trace]; try done.
    + by rewrite length_insert.
    + intros j Hj. destruct (decide (i = j)) as [<-|Hne].
      * rewrite list_lookup_total_insert_eq by lia. lia.
      * rewrite list_lookup_total_insert_ne by done. by apply Hrange.
    + rewrite Zsum_insert_total by lia. lia.
    + rewrite fmap_app, Zsum_app. unfold Zsum at 2. simpl. lia.
    + apply elapsed_clocks_snoc; [done|]. simpl. lia.
    + intros j Hj. rewrite ran_by_snoc. simpl.
      destruct (decide (i = j)) as [<-|Hne].
      * rewrite list_lookup_total_insert_eq, Hran by lia. lia.
      * rewrite list_lookup_total_insert_ne, Hran by done. lia.
    + intros j Hj. rewrite finishing_snoc. simpl.
      rewrite decide_False, (right_id_L [] (++)) by by intros [??].
      destruct (decide (i = j)) as [<-|Hne].
      * rewrite list_lookup_total_insert_eq by lia. lia.
      * rewrite list_lookup_total_insert_ne by done. by apply Hfin.
    + intros j Hj. rewrite finishing_snoc. simpl.
      rewrite decide_False, (right_id_L [] (++)) by by intros [??].
      destruct (decide (i = j)) as [<-|Hne].
      * intros _. apply Hunfin; lia.
      * rewrite list_lookup_total_insert_ne by done. by apply Hunfin.
    + intros e. rewrite last_snoc. intros [= <-]. split_and!; [done..|].
      right. simpl. rewrite list_lookup_total_insert_eq by lia. lia.
    + intros j Hj. specialize (Hcle j Hj). lia.
    + intros j Hj. specialize (Hwr j Hj). lia.
  - (* the last slice of process [i] *)
    split; cbn [rr_time rr_remaining_burst_time rr_waiting_time rr_completion_time
                  rr_trace]; try done.
    + by rewrite length_insert.
    + by rewrite length_insert.
    + by rewrite length_insert.
    + intros j Hj. destruct (decide (i = j)) as [<-|Hne].
      * rewrite list_lookup_total_insert_eq by lia. lia.
      * rewrite list_lookup_total_insert_ne by done. by apply Hrange.
    + rewrite Zsum_insert_total by lia. lia.
    + rewrite fmap_app, Zsum_app. unfold Zsum at 2. simpl. lia.
    + apply elapsed_clocks_snoc; [done|]. simpl. lia.
    + intros j Hj. rewrite ran_by_snoc. simpl.
      destruct (decide (i = j)) as [<-|Hne].
      * rewrite list_lookup_total_insert_eq, Hran by lia. lia.
      * rewrite list_lookup_total_insert_ne, Hran by done. lia.
    + intros j Hj. rewrite finishing_snoc. simpl.
      destruct (decide (i = j)) as [<-|Hne].
      * intros _. rewrite decide_True by done.
        rewrite !list_lookup_total_insert_eq by lia.
        rewrite Hunfin by lia. eexists. split; [done|lia].
      * rewrite decide_False, (right_id_L [] (++)) by by intros [??].
        rewrite !list_lookup_total_insert_ne by done. by apply Hfin.
    + intros j Hj. rewrite finishing_snoc. simpl.
      destruct (decide (i = j)) as [<-|Hne].
      * rewrite list_lookup_total_insert_eq by lia. done.
      * rewrite decide_False, (right_id_L [] (++)) by by intros [??].
        rewrite list_lookup_total_insert_ne by done. by apply Hunfin.
    + intros e. rewrite last_snoc. intros [= <-]. split_and!; [done..|]. by left.
    + pose proof (Hcle i Hi).
      intros j Hj. destruct (decide (i = j)) as [<-|Hne].
      * rewrite list_lookup_total_insert_eq by lia. lia.
      * rewrite list_lookup_total_insert_ne by done. specialize (Hcle j Hj). lia.
    + pose proof (Hcle i Hi).
      intros j Hj. destruct (decide (i = j)) as [<-|Hne].
      * rewrite list_lookup_total_insert_eq by lia. lia.
      * rewrite list_lookup_total_insert_ne by done. specialize (Hwr j Hj). lia.
Qed.
Lemma rr_body_progress (i : nat) (s : RRState) :
  (i < length processes)%nat → rr_inv processes s → rr_progress processes s →
  rr_progress processes (rr_body quantum processes i s).
Proof.
  intros Hi Hinv Hrun j Hj. destruct (Hrun j Hj) as (Hran & Hcomp & Hw).
  pose proof (rr_slice_no_overflow i s) as Hslice.
  specialize (Hslice) with (1 := Hi) (2 := Hinv).
  pose proof (inv_remaining_range _ _ Hinv i Hi) as Hri.
  pose proof (inv_remaining_length _ _ Hinv) as Hrl.
  pose proof (inv_waiting_length _ _ Hinv) as Hwl.
  pose proof (inv_completion_length _ _ Hinv) as Hcl.
  destruct (Hrun i Hi) as (Hrani & _ & _).
  unfold rr_body. destruct (0 <? _) eqn:Hpos; [apply Z.ltb_lt in Hpos|done].
  destruct (quantum <? _) eqn:Hq; [apply Z.ltb_lt in Hq|apply Z.ltb_ge in Hq].
  all: match goal with
       | |- context [int_add _ ?q] =>
           destruct (Hslice q) as [Hadd Hsub]; [lia|rewrite ?Hadd, ?Hsub]
       end.
  all: cbn [rr_remaining_burst_time rr_completion_time rr_waiting_time rr_time].
  all: destruct (decide (j = i)) as [->|Hne];
    [rewrite ?list_lookup_total_insert_eq by lia
    |rewrite ?list_lookup_total_insert_ne by done]; lia.
Qed.

Lemma rr_sweep_inv (s : RRState) :
  rr_inv processes s → rr_inv processes (rr_sweep quantum processes s).
Proof.
  intros Hinv. unfold rr_sweep.
  loop_invariant (λ (k : nat) (st : RRState), rr_inv processes st).
  - lia.
  - by destruct Hinv.
  - intros i st Hi Hst. apply rr_body_inv; [lia|done].
  - done.
Qed.
Lemma rr_sweep_progress (s : RRState) :
  rr_inv processes s → rr_progress processes s →
  rr_progress processes (rr_sweep quantum processes s).
Proof.
  intros Hinv Hrun. unfold rr_sweep.
  loop_invariant (λ (k : nat) (st : RRState),
                    rr_inv processes st ∧ rr_progress processes st).
  - lia.
  - split; [by destruct Hinv|done].
  - intros i st Hi [Hst Hpr]. split; [apply rr_body_inv|apply rr_body_progress]; done || lia.
  - by intros st [_ Hpr].
Qed.
End rr_invariant.

Lemma rr_init_remaining (processes : list Process) :
  rr_remaining_burst_time (rr_init processes) = burst_time <$> processes.
Proof.
  unfold rr_init. cbn [rr_remaining_burst_time].
  set (N := length processes).
  loop_invariant
    (λ (k : nat) (remaining : list Z),
       length remaining = N ∧
       ∀ i, (i < N)%nat →
            remaining !! i = Some (if decide (i < k)%nat
                                   then burst_time (processes !!! i) else 0)).
  - lia.
  - split; [by rewrite length_replicate|].
    intros i Hi. rewrite lookup_replicate_2 by done. case_decide; [lia|done].
  - intros k remaining Hk [Hlen Hrem]. split; [by rewrite length_insert|].
    intros i Hi. destruct (decide (i = k)) as [->|Hne].
    + rewrite list_lookup_insert_eq by lia. by rewrite decide_True by lia.
    + rewrite list_lookup_insert_ne by done. rewrite Hrem by done.
      repeat case_decide; try done; lia.
  - intros remaining [Hlen Hrem]. apply list_eq. intros i.
    rewrite list_lookup_fmap. destruct (decide (i < N)%nat) as [Hi|Hi].
    + rewrite Hrem, decide_True by done.
      by rewrite (list_lookup_lookup_total_lt processes) by done.
    + rewrite !lookup_ge_None_2; [done|fold N; lia|lia].
Qed.

Lemma rr_init_inv (processes : list Process) :
  Forall (λ p, 1 ≤ burst_time p) processes → rr_inv processes (rr_init processes).
Proof.
  intros Hburst.
  assert (∀ i, (i < length processes)%nat → 1 ≤ burst_time (processes !!! i)) as Hb.
  { intros i Hi.
    apply (Forall_lookup_1 (λ p, 1 ≤ burst_time p) processes i); [done|].
    by apply list_lookup_lookup_total_lt. }
  split; rewrite ?rr_init_remaining; cbn [rr_init rr_time rr_waiting_time
    rr_completion_time rr_trace]; rewrite ?length_fmap, ?length_replicate; try done.
  - intros i Hi. rewrite (list_lookup_total_fmap burst_time) by done. specialize (Hb i Hi). lia.
  - intros i Hi. rewrite (list_lookup_total_fmap burst_time) by done. unfold ran_by. simpl.
    unfold Zsum; simpl; lia.
  - intros i Hi. rewrite (list_lookup_total_fmap burst_time) by done. specialize (Hb i Hi). lia.
  - intros i Hi. by rewrite lookup_total_replicate_2.
  - intros i Hi. rewrite lookup_total_replicate_2 by done. specialize (Hb i Hi). lia.
Qed.

Section rr_sweeps.
Context (quantum : Z) (processes : list Process).
Hypothesis quantum_pos : 0 < quantum.

Lemma rr_measure_insert (s : RRState) (i : nat) (y : Z) :
  (i < length (rr_remaining_burst_time s))%nat →
  Zsum (Z.max 0 <$> <[i := y]> (rr_remaining_burst_time s))
  = rr_measure s - Z.max 0 (rr_remaining_burst_time s !!! i) + Z.max 0 y.
Proof.
  intros Hi. unfold rr_measure.
  rewrite list_fmap_insert, Zsum_insert_total by by rewrite length_fmap.
  by rewrite (list_lookup_total_fmap (Z.max 0)).
Qed.

(** What a sweep does: it leaves [done] set exactly when no process had
    anything left to run, and then changes nothing; otherwise what
    remains to run decreases. *)
Lemma rr_sweep_spec (s : RRState) :
  length (rr_remaining_burst_time s) = length processes →
  let s' := rr_sweep quantum processes s in
  length (rr_remaining_burst_time s') = length processes ∧
  (rr_done s' = true ↔
     ∀ i, (i < length processes)%nat → rr_remaining_burst_time s !!! i ≤ 0) ∧
  (rr_done s' = true →
     s' = mkRRState (rr_time s) (rr_remaining_burst_time s) (rr_waiting_time s)
                    (rr_completion_time s) true (rr_trace s)) ∧
  (rr_done s' = false → rr_measure s' < rr_measure s).
Proof.
  intros Hlen. unfold rr_sweep.
  set (s0 := mkRRState _ _ _ _ true _).
  loop_invariant
    (λ (k : nat) (st : RRState),
       length (rr_remaining_burst_time st) = length processes ∧
       (∀ j, (k ≤ j)%nat →
             rr_remaining_burst_time st !!! j = rr_remaining_burst_time s !!! j) ∧
       (rr_done st = true ↔
          ∀ i, (i < k)%nat → rr_remaining_burst_time s !!! i ≤ 0) ∧
       (rr_done st = true → st = s0) ∧
       (rr_done st = false → rr_measure st < rr_measure s) ∧
       rr_measure st ≤ rr_measure s).
  - lia.
  - split_and!; try done. split; [intros _ i; lia|done].
  - intros k st Hk (Hl & Hframe & Hdone & Hsame & Hless & Hle).
    unfold rr_body. rewrite (Hframe k) by lia.
    destruct (0 <? _) eqn:Hpos; [apply Z.ltb_lt in Hpos|apply Z.ltb_ge in Hpos].
    + assert (rr_remaining_burst_time st !!! k = rr_remaining_burst_time s !!! k)
        as Hrk by (apply Hframe; lia).
      destruct (quantum <? _) eqn:Hq;
        [apply Z.ltb_lt in Hq|apply Z.ltb_ge in Hq];
        cbn [rr_remaining_burst_time rr_done];
        (split_and!;
         [ by rewrite length_insert
         | intros j Hj; rewrite list_lookup_total_insert_ne by lia; apply Hframe; lia
         | split; [done|]; intros Hall; specialize (Hall k); lia
         | done
         | intros _; unfold rr_measure at 1; cbn [rr_remaining_burst_time];
           rewrite rr_measure_insert by lia; lia
         | unfold rr_measure at 1; cbn [rr_remaining_burst_time];
           rewrite rr_measure_insert by lia; lia ]).
    + split_and!; try done.
      * intros j Hj. apply Hframe. lia.
      * rewrite Hdone. split; intros Hall i Hi.
        -- destruct (decide (i = k)) as [->|]; [done|]. apply Hall. lia.
        -- apply Hall. lia.
  - intros st (Hl & _ & Hdone & Hsame & Hless & _). done.
Qed.
End rr_sweeps.

(** ** Round robin: termination *)

Lemma rr_measure_nonneg (s : RRState) : 0 ≤ rr_measure s.
Proof.
  apply Zsum_nonneg. apply Forall_fmap, Forall_true. intros x. simpl. lia.
Qed.

Lemma rr_measure_inv (processes : list Process) (s : RRState) :
  rr_inv processes s → rr_measure s = Zsum (rr_remaining_burst_time s).
Proof.
  intros Hinv. unfold rr_measure. f_equal.
  rewrite <- (list_fmap_id (rr_remaining_burst_time s)) at 2.
  apply list_fmap_ext. intros i r Hr.
  pose proof (lookup_lt_Some _ _ _ Hr) as Hi.
  rewrite (inv_remaining_length _ _ Hinv) in Hi.
  pose proof (inv_remaining_range _ _ Hinv i Hi) as Hrange.
  rewrite (list_lookup_total_correct _ _ _ Hr) in Hrange. simpl. lia.
Qed.

Section rr_loop.
Context (quantum : Z) (processes : list Process).

Lemma rr_while_iter (fuel : nat) (s s' : RRState) :
  rr_while fuel quantum processes s = Some s' →
  ∃ n, (n < fuel)%nat ∧
       s' = Nat.iter (S n) (rr_sweep quantum processes) s ∧
       rr_done s' = true ∧
       ∀ k, (k < n)%nat →
            rr_done (Nat.iter (S k) (rr_sweep quantum processes) s) = false.
Proof.
  revert s. induction fuel as [|fuel IH]; intros s; [done|].
  cbn [rr_while]. destruct (rr_done (rr_sweep quantum processes s)) eqn:Hdone.
  - intros [= <-]. exists O. split_and!; [lia|done..|lia].
  - intros Hwhile. destruct (IH _ Hwhile) as (n & Hn & -> & Hd & Hbefore).
    exists (S n). split_and!; [lia| |done|].
    + by rewrite <- !Nat.iter_succ_r.
    + intros [|k] Hk; [done|]. rewrite Nat.iter_succ_r. apply Hbefore. lia.
Qed.

Lemma rr_while_more_fuel (fuel fuel' : nat) (s s' : RRState) :
  rr_while fuel quantum processes s = Some s' → (fuel ≤ fuel')%nat →
  rr_while fuel' quantum processes s = Some s'.
Proof.
  revert fuel' s. induction fuel as [|fuel IH]; intros fuel' s; [done|].
  intros Hwhile Hle. destruct fuel' as [|fuel']; [lia|].
  cbn [rr_while] in *. destruct (rr_done _); [done|]. apply IH; [done|lia].
Qed.

Hypothesis quantum_pos : 0 < quantum.

Lemma rr_while_terminates (fuel : nat) (s : RRState) :
  length (rr_remaining_burst_time s) = length processes →
  rr_measure s < Z.of_nat fuel →
  is_Some (rr_while fuel quantum processes s).
Proof.
  revert s. induction fuel as [|fuel IH]; intros s Hlen Hfuel.
  { pose proof (rr_measure_nonneg s). lia. }
  cbn [rr_while].
  destruct (rr_sweep_spec quantum processes quantum_pos s Hlen)
    as (Hlen' & _ & _ & Hless).
  destruct (rr_done _); [done|]. apply IH; [done|]. specialize (Hless eq_refl). lia.
Qed.

Hypothesis total_le : Zsum (burst_time <$> processes) ≤ INT_MAX.

Lemma rr_while_inv (fuel : nat) (s s' : RRState) :
  rr_inv processes s → rr_while fuel quantum processes s = Some s' →
  rr_inv processes s' ∧
  ∀ i, (i < length processes)%nat → rr_remaining_burst_time s' !!! i = 0.
Proof.
  revert s. induction fuel as [|fuel IH]; intros s Hinv; [done|].
  cbn [rr_while].
  pose proof (rr_sweep_inv quantum processes quantum_pos total_le s Hinv) as Hinv'.
  destruct (rr_sweep_spec quantum processes quantum_pos s
              (inv_remaining_length _ _ Hinv)) as (_ & Hdone & Hsame & _).
  destruct (rr_done _) eqn:Hd; [|by apply IH].
  intros [= <-]. split; [done|]. intros i Hi.
  rewrite (Hsame eq_refl). cbn [rr_remaining_burst_time].
  pose proof (proj1 Hdone eq_refl i Hi).
  pose proof (inv_remaining_range _ _ Hinv i Hi). lia.
Qed.
End rr_loop.

Lemma rr_fuel_enough (processes : list Process) :
  rr_measure (rr_init processes) < Z.of_nat (rr_fuel processes).
Proof.
  unfold rr_measure, rr_fuel. rewrite rr_init_remaining.
  induction processes as [|p processes IH]; [done|].
  rewrite !fmap_cons, Zsum_cons. cbn [foldr]. lia.
Qed.

Lemma rr_init_length (processes : list Process) :
  length (rr_remaining_burst_time (rr_init processes)) = length processes.
Proof. by rewrite rr_init_remaining, length_fmap. Qed.

(** The loop of [round_robin] reaches its [break] on every batch. *)
Lemma round_robin_returns (processes : list Process) :
  is_Some (round_robin processes).
Proof.
  unfold round_robin, round_robin_with.
  destruct (rr_while_terminates QUANTUM processes eq_refl (rr_fuel processes)
              (rr_init processes)) as [s ->]; [apply rr_init_length|apply rr_fuel_enough|].
  done.
Qed.

(** What one sweep does to the remaining burst of each process. *)
Lemma rr_sweep_remaining (quantum : Z) (processes : list Process) (s : RRState) :
  length (rr_remaining_burst_time s) = length processes →
  length (rr_remaining_burst_time (rr_sweep quantum processes s)) = length processes ∧
  ∀ i, (i < length processes)%nat →
       rr_remaining_burst_time (rr_sweep quantum processes s) !!! i
       = if 0 <? rr_remaining_burst_time s !!! i
         then if quantum <? rr_remaining_burst_time s !!! i
              then rr_remaining_burst_time s !!! i - quantum else 0
         else rr_remaining_burst_time s !!! i.
Proof.
  intros Hlen. unfold rr_sweep.
  loop_invariant
    (λ (k : nat) (st : RRState),
       length (rr_remaining_burst_time st) = length processes ∧
       ∀ i, (i < length processes)%nat →
            rr_remaining_burst_time st !!! i
            = if decide (i < k)%nat
              then if 0 <? rr_remaining_burst_time s !!! i
                   then if quantum <? rr_remaining_burst_time s !!! i
                        then rr_remaining_burst_time s !!! i - quantum else 0
                   else rr_remaining_burst_time s !!! i
              else rr_remaining_burst_time s !!! i).
  - lia.
  - split; [done|]. intros i Hi. by rewrite decide_False by lia.
  - intros k st Hk [Hl Hrem]. unfold rr_body.
    pose proof (Hrem k ltac:(lia)) as Hk'. rewrite decide_False in Hk' by lia.
    rewrite Hk'.
    destruct (0 <? _) eqn:Hpos; [destruct (quantum <? _) eqn:Hq|];
      cbn [rr_remaining_burst_time]; rewrite ?length_insert; (split; [done|]);
      intros i Hi; (destruct (decide (i = k)) as [->|Hne];
        [rewrite ?list_lookup_total_insert_eq by lia
        |rewrite ?list_lookup_total_insert_ne by done; rewrite Hrem by done]);
      rewrite ?Hpos, ?Hq; repeat case_decide; try lia; try done.
  - intros st [Hl Hrem]. split; [done|]. intros i Hi.
    by rewrite Hrem, decide_True by done.
Qed.

Lemma rr_sweeps_remaining_length (n : nat) (batch : list Process) :
  length (rr_remaining_burst_time (rr_sweeps n batch)) = length batch.
Proof.
  unfold rr_sweeps. induction n as [|n IH]; [apply rr_init_length|].
  rewrite Nat.iter_succ. by apply rr_sweep_remaining.
Qed.

Lemma rr_sweeps_remaining (batch : list Process) (n i : nat) :
  (i < length batch)%nat →
  rr_remaining_burst_time (rr_sweeps n batch) !!! i
  = if decide (0 < burst_time (batch !!! i))
    then Z.max 0 (burst_time (batch !!! i) - QUANTUM * Z.of_nat n)
    else burst_time (batch !!! i).
Proof.
  intros Hi. induction n as [|n IH].
  - change (rr_sweeps 0 batch) with (rr_init batch). rewrite rr_init_remaining.
    rewrite (list_lookup_total_fmap burst_time) by done. case_decide; lia.
  - change (rr_sweeps (S n) batch) with (rr_sweep QUANTUM batch (rr_sweeps n batch)).
    pose proof (rr_sweeps_remaining_length n batch) as Hlen.
    destruct (rr_sweep_remaining QUANTUM batch _ Hlen) as [_ Hstep].
    rewrite Hstep, IH by done. unfold QUANTUM.
    case_decide; repeat case_match;
      rewrite ?Z.ltb_lt, ?Z.ltb_ge in *; lia.
Qed.

Lemma rr_measure_nonneg_eq (s : RRState) :
  Forall (λ x, 0 ≤ x) (rr_remaining_burst_time s) →
  rr_measure s = Zsum (rr_remaining_burst_time s).
Proof.
  intros Hrem. unfold rr_measure. f_equal.
  rewrite <- (list_fmap_id (rr_remaining_burst_time s)) at 2.
  apply list_fmap_ext. intros i r Hr.
  pose proof (Forall_lookup_1 _ _ _ _ Hrem Hr) as Hr0. simpl in *. lia.
Qed.

Lemma rr_sweeps_remaining_nonneg (n : nat) (batch : list Process) :
  Forall (λ p, 1 ≤ burst_time p) batch →
  Forall (λ x, 0 ≤ x) (rr_remaining_burst_time (rr_sweeps n batch)).
Proof.
  intros Hburst. apply Forall_lookup_2. intros i x Hx.
  assert (i < length batch)%nat as Hi.
  { apply lookup_lt_Some in Hx. by rewrite rr_sweeps_remaining_length in Hx. }
  apply list_lookup_total_correct in Hx. rewrite rr_sweeps_remaining in Hx by done.
  pose proof (Forall_lookup_1 _ _ i _ Hburst (list_lookup_lookup_total_lt _ _ Hi)) as Hb.
  simpl in Hb. subst x. case_decide; simpl; lia.
Qed.

Lemma rr_init_progress (processes : list Process) :
  Forall (λ p, 1 ≤ burst_time p) processes → rr_progress processes (rr_init processes).
Proof.
  intros Hburst i Hi. rewrite rr_init_remaining.
  rewrite (list_lookup_total_fmap burst_time) by done.
  cbn [rr_init rr_time rr_completion_time rr_waiting_time].
  rewrite lookup_total_replicate_2 by done.
  pose proof (Forall_lookup_1 _ _ i _ Hburst (list_lookup_lookup_total_lt _ _ Hi)) as Hb.
  simpl in Hb. lia.
Qed.

Lemma rr_sweeps_inv (n : nat) (processes : list Process) :
  Forall (λ p, 1 ≤ burst_time p) processes →
  Zsum (burst_time <$> processes) ≤ INT_MAX →
  rr_inv processes (rr_sweeps n processes).
Proof.
  intros Hburst Htotal. unfold rr_sweeps.
  induction n as [|n IH]; [by apply rr_init_inv|].
  rewrite Nat.iter_succ. by apply rr_sweep_inv.
Qed.

Lemma rr_sweeps_progress (n : nat) (processes : list Process) :
  Forall (λ p, 1 ≤ burst_time p) processes →
  Zsum (burst_time <$> processes) ≤ INT_MAX →
  rr_progress processes (rr_sweeps n processes).
Proof.
  intros Hburst Htotal. unfold rr_sweeps.
  induction n as [|n IH]; [by apply rr_init_progress|].
  rewrite Nat.iter_succ. apply rr_sweep_progress; [done..| |done].
  by apply rr_sweeps_inv.
Qed.

(** C7: on every batch whose processes all have [burst_time >= 1], the
    sweep loop of round robin terminates.  It stops after sweep [n + 1],
    the first full sweep over the indices that finds no process with a
    nonzero remaining burst; each of the [n] sweeps before it finds one and
    strictly decreases the total remaining burst, and [n] is less than
    [rr_fuel batch]. *)
Theorem round_robin_terminates (batch : list Process) :
  Forall (λ p, 1 ≤ burst_time p) batch →
  ∃ n : nat,
    (n < rr_fuel batch)%nat ∧
    (∀ fuel, (n < fuel)%nat →
       rr_while fuel QUANTUM batch (rr_init batch) = Some (rr_sweeps (S n) batch)) ∧
    Forall (λ r, r = 0) (rr_remaining_burst_time (rr_sweeps n batch)) ∧
    ∀ k, (k < n)%nat →
      Exists (λ r, r ≠ 0) (rr_remaining_burst_time (rr_sweeps k batch)) ∧
      Zsum (rr_remaining_burst_time (rr_sweeps (S k) batch))
      < Zsum (rr_remaining_burst_time (rr_sweeps k batch)).
Proof.
  intros Hburst.
  destruct (rr_while_terminates QUANTUM batch eq_refl (rr_fuel batch) (rr_init batch))
    as [s Hs]; [apply rr_init_length|apply rr_fuel_enough|].
  destruct (rr_while_iter _ _ _ _ _ Hs) as (n & Hn & -> & Hdone & Hbefore).
  assert (∀ k, rr_sweeps (S k) batch = rr_sweep QUANTUM batch (rr_sweeps k batch))
    as Hstep by done.
  assert (∀ k, length (rr_remaining_burst_time (rr_sweeps k batch)) = length batch)
    as Hlen by (intros k; apply rr_sweeps_remaining_length).
  exists n. split_and!; [done| | |].
  - intros fuel Hfuel. clear Hs Hn.
    assert (∀ m s, (∀ k, (k < m)%nat →
                         rr_done (Nat.iter (S k) (rr_sweep QUANTUM batch) s) = false) →
                   rr_done (Nat.iter (S m) (rr_sweep QUANTUM batch) s) = true →
                   rr_while (S m) QUANTUM batch s
                   = Some (Nat.iter (S m) (rr_sweep QUANTUM batch) s)) as Hrun.
    { induction m as [|m IH]; intros s Hfalse Htrue.
      - cbn [rr_while]. simpl in Htrue. by rewrite Htrue.
      - cbn [rr_while]. pose proof (Hfalse O ltac:(lia)) as H0. simpl in H0.
        rewrite H0. rewrite Nat.iter_succ_r. apply IH.
        + intros k Hk. rewrite <- Nat.iter_succ_r. apply Hfalse. lia.
        + by rewrite <- Nat.iter_succ_r. }
    apply (rr_while_more_fuel _ _ (S n)); [|lia]. by apply Hrun.
  - apply Forall_lookup. intros i r Hr.
    pose proof (lookup_lt_Some _ _ _ Hr) as Hi. rewrite Hlen in Hi.
    destruct (rr_sweep_spec QUANTUM batch eq_refl (rr_sweeps n batch) (Hlen n))
      as (_ & Hiff & _).
    pose proof (proj1 Hiff Hdone i Hi) as Hle.
    pose proof (Forall_lookup_1 _ _ _ _ (rr_sweeps_remaining_nonneg n batch Hburst) Hr)
      as Hrange.
    rewrite (list_lookup_total_correct _ _ _ Hr) in Hle. simpl in Hrange. lia.
  - intros k Hk. specialize (Hbefore k Hk).
    destruct (rr_sweep_spec QUANTUM batch eq_refl (rr_sweeps k batch) (Hlen k))
      as (_ & Hiff & _ & Hless).
    split.
    + destruct (decide (Forall (λ r, r = 0) (rr_remaining_burst_time (rr_sweeps k batch))))
        as [Hall|Hex].
      * assert (rr_done (rr_sweep QUANTUM batch (rr_sweeps k batch)) = true) as Htrue.
        { apply Hiff. intros i Hi.
          rewrite (Forall_lookup_1 _ _ i _ Hall
                     (list_lookup_lookup_total_lt _ _ ltac:(rewrite Hlen; exact Hi))).
          done. }
        fold (rr_sweeps (S k) batch) in Hbefore. rewrite Hstep in Hbefore. congruence.
      * apply not_Forall_Exists in Hex; [|apply _].
        eapply Exists_impl; [done|]. by intros r Hr.
    + rewrite <- !rr_measure_nonneg_eq by by apply rr_sweeps_remaining_nonneg.
      rewrite Hstep. by apply Hless.
Qed.

Lemma round_robin_terminates_witness :
  Forall (λ p, 1 ≤ burst_time p) scenario_batch ∧
  ∃ n : nat,
    (n < rr_fuel scenario_batch)%nat ∧
    (∀ fuel, (n < fuel)%nat →
       rr_while fuel QUANTUM scenario_batch (rr_init scenario_batch)
       = Some (rr_sweeps (S n) scenario_batch)) ∧
    Forall (λ r, r = 0) (rr_remaining_burst_time (rr_sweeps n scenario_batch)) ∧
    ∀ k, (k < n)%nat →
      Exists (λ r, r ≠ 0) (rr_remaining_burst_time (rr_sweeps k scenario_batch)) ∧
      Zsum (rr_remaining_burst_time (rr_sweeps (S k) scenario_batch))
      < Zsum (rr_remaining_burst_time (rr_sweeps k scenario_batch)).
Proof.
  assert (Forall (λ p, 1 ≤ burst_time p) scenario_batch) as Hburst.
  { repeat constructor; simpl; lia. }
  split; [exact Hburst|]. exact (round_robin_terminates scenario_batch Hburst).
Defined.

(** ** Round robin: the result *)

(** A property of the loop state that every step of the inner loop keeps,
    and that does not depend on the flag [done], holds when the loop
    returns. *)
Section rr_preservation.
Context (quantum : Z) (processes : list Process) (P : RRState → Prop).
Hypothesis P_done : ∀ s b,
  P s → P (mkRRState (rr_time s) (rr_remaining_burst_time s) (rr_waiting_time s)
             (rr_completion_time s) b (rr_trace s)).
Hypothesis P_body : ∀ i s,
  (i < length processes)%nat → P s → P (rr_body quantum processes i s).

Lemma rr_sweep_preserves (s : RRState) : P s → P (rr_sweep quantum processes s).
Proof.
  intros Hs. unfold rr_sweep.
  apply (for_loop_ind (λ _ st, P st)); [lia|by apply P_done|].
  intros i st Hi Hst. apply P_body; [lia|done].
Qed.

Lemma rr_while_preserves (fuel : nat) (s s' : RRState) :
  P s → rr_while fuel quantum processes s = Some s' → P s'.
Proof.
  revert s. induction fuel as [|fuel IH]; intros s Hs; [done|].
  cbn [rr_while]. pose proof (rr_sweep_preserves s Hs) as Hs'.
  destruct (rr_done _); [by intros [= <-]|]. by apply IH.
Qed.
End rr_preservation.

(** Whatever the batch, the clock and the tables of round robin hold
    [int]s. *)
Lemma rr_state_int (processes : list Process) (fuel : nat) (s : RRState) :
  rr_while fuel QUANTUM processes (rr_init processes) = Some s →
  in_int_range (rr_time s) ∧
  Forall in_int_range (rr_waiting_time s) ∧
  Forall in_int_range (rr_completion_time s).
Proof.
  apply (rr_while_preserves QUANTUM processes
           (λ s, in_int_range (rr_time s) ∧
                 Forall in_int_range (rr_waiting_time s) ∧
                 Forall in_int_range (rr_completion_time s))).
  - done.
  - intros i st Hi (Ht & Hw & Hc). unfold rr_body.
    destruct (0 <? _); [|done]. destruct (QUANTUM <? _);
      cbn [rr_time rr_waiting_time rr_completion_time];
      split_and!; try done; try apply wrap_range;
      apply Forall_insert; try done; apply wrap_range.
  - cbn [rr_init rr_time rr_waiting_time rr_completion_time]. split_and!.
    + by vm_compute.
    + apply Forall_replicate. by vm_compute.
    + apply Forall_replicate. by vm_compute.
Qed.

Lemma rr_while_progress (processes : list Process) (fuel : nat) (s : RRState) :
  Forall (λ p, 1 ≤ burst_time p) processes →
  Zsum (burst_time <$> processes) ≤ INT_MAX →
  rr_while fuel QUANTUM processes (rr_init processes) = Some s →
  rr_progress processes s.
Proof.
  intros Hburst Htotal Hwhile.
  apply (rr_while_preserves QUANTUM processes
           (λ s, rr_inv processes s ∧ rr_progress processes s)) in Hwhile.
  - by destruct Hwhile.
  - intros st b [Hst Hrun]. split; [by destruct Hst|done].
  - intros i st Hi [Hst Hrun].
    split; [by apply rr_body_inv|by apply rr_body_progress].
  - split; [by apply rr_init_inv|by apply rr_init_progress].
Qed.

Lemma rr_final_accounts (processes : list Process) (s : RRState) :
  processes ≠ [] → rr_inv processes s →
  (∀ i, (i < length processes)%nat → rr_remaining_burst_time s !!! i = 0) →
  round_robin_accounts processes
    (mkRoundRobinResult (rr_waiting_time s) (rr_completion_time s)
       (turnaround_loop (length processes) processes (rr_waiting_time s))
       (average_loop (length processes) (rr_waiting_time s)
          (turnaround_loop (length processes) processes (rr_waiting_time s))).1
       (average_loop (length processes) (rr_waiting_time s)
          (turnaround_loop (length processes) processes (rr_waiting_time s))).2
       (rr_trace s)).
Proof.
  intros Hne Hinv Hzero.
  assert (rr_time s = Zsum (burst_time <$> processes)) as Htime.
  { rewrite <- (inv_time_remaining _ _ Hinv). rewrite Zsum_zero; [lia|].
    apply Forall_lookup. intros i r Hr.
    rewrite <- (list_lookup_total_correct _ _ _ Hr). apply Hzero.
    rewrite <- (inv_remaining_length _ _ Hinv). by eapply lookup_lt_Some. }
  unfold round_robin_accounts; cbn [rr_waiting rr_completion rr_slices].
  split_and!.
  - apply Hinv.
  - apply Hinv.
  - apply Hinv.
  - intros i Hi.
    destruct (inv_finished _ _ Hinv i Hi (Hzero i Hi)) as (r & Hfin & Hwait).
    eexists. split_and!; [done..|]. done.
  - intros i Hi. rewrite (inv_ran_by _ _ Hinv i Hi), (Hzero i Hi). lia.
  - assert (0 < length processes)%nat as H0 by (destruct processes; simpl; [done|lia]).
    destruct (inv_finished _ _ Hinv O H0 (Hzero O H0)) as (r0 & Hfin0 & _).
    destruct (last (rr_trace s)) as [e|] eqn:Hlast.
    2:{ apply last_None in Hlast. by rewrite Hlast in Hfin0. }
    destruct (inv_last _ _ Hinv e Hlast) as (Hclock & Hwho & Hfinished).
    assert (finished e = true) as Hf.
    { destruct Hfinished as [|Hpos]; [done|]. rewrite (Hzero _ Hwho) in Hpos. lia. }
    exists e. split_and!; [done..|].
    destruct (inv_finished _ _ Hinv (who e) Hwho (Hzero _ Hwho)) as (r & Hfin & _).
    assert (e ∈ finishing (who e) (rr_trace s)) as Hin.
    { apply list_elem_of_filter. split; [done|].
      apply last_Some in Hlast as [l' ->]. apply elem_of_app. right. by left. }
    rewrite Hfin in Hin. apply list_elem_of_singleton in Hin.
    rewrite <- Htime, <- Hclock. rewrite Hin at 2. done.
  - intros j Hj. rewrite <- Htime. by apply Hinv.
Qed.

(** Every completion time that round robin returns is an [int]. *)
Lemma round_robin_completion_int (batch : list Process) (r : RoundRobinResult) :
  round_robin batch = Some r → Forall in_int_range (rr_completion r).
Proof.
  unfold round_robin, round_robin_with.
  destruct (rr_while _ _ _ _) as [s|] eqn:Hwhile; [|done].
  intros [= <-]. cbn [rr_completion].
  by destruct (rr_state_int _ _ _ Hwhile) as (_ & _ & Hc).
Qed.

(** C3, refuted as stated: on two processes with burst times [INT_MAX] and
    1 the clock of round robin wraps around before the long process
    finishes.  Every completion time is an [int], and the sum of the burst
    times, [INT_MAX + 1], is none: no process has it as its completion
    time. *)
Lemma round_robin_completion_wraps :
  long_batch ≠ [] ∧ Forall (λ p, 1 ≤ burst_time p) long_batch ∧
  ∃ r, round_robin long_batch = Some r ∧
       (∀ i, rr_completion r !!! i ≠ Zsum (burst_time <$> long_batch)) ∧
       ¬ round_robin_accounts long_batch r.
Proof.
  split; [done|]. split; [repeat constructor; by vm_compute|].
  destruct (round_robin_returns long_batch) as [r Hr]. exists r. split; [exact Hr|].
  assert (Zsum (burst_time <$> long_batch) = INT_MAX + 1) as Hsum by reflexivity.
  pose proof (round_robin_completion_int long_batch r Hr) as Hc.
  assert (∀ i, rr_completion r !!! i ≠ Zsum (burst_time <$> long_batch)) as Hno.
  { intros i. rewrite Hsum, list_lookup_total_alt.
    destruct (rr_completion r !! i) as [x|] eqn:Hx.
    - pose proof (Forall_lookup_1 _ _ _ _ Hc Hx) as Hrange.
      unfold in_int_range in Hrange. cbn [default id]. lia.
    - cbn [default]. unfold inhabitant, Z.inhabited, INT_MAX. lia. }
  split; [done|].
  intros (_ & _ & _ & _ & _ & (e & _ & _ & _ & Hlast) & _). by apply (Hno (who e)).
Qed.

(** C3, amended: for every non-empty batch of processes with
    [burst_time >= 1] whose burst times add up to at most [INT_MAX], round
    robin with quantum 4 returns a result in which every process finishes
    in exactly one slice, [completion_time[i]] is the time elapsed at the
    end of that slice and [waiting_time[i]] is that time minus
    [burst_time[i]]; the slices of each process add up to its burst time;
    and the process that finishes last has a completion time equal to the
    sum of all burst times.  The batch of scenario D takes a slice of 4 and
    a slice of 1, with waiting = [0], completion = [5] and average 0. *)
Theorem round_robin_accounting (batch : list Process) :
  batch ≠ [] → Forall (λ p, 1 ≤ burst_time p) batch →
  Zsum (burst_time <$> batch) ≤ INT_MAX →
  (∃ r, round_robin batch = Some r ∧ round_robin_accounts batch r) ∧
  round_robin [mkProcess 0 5 1]
  = Some (mkRoundRobinResult [0] [5] [5] (Finite 0) (Finite 5)
            [mkSlice 0 4 4 false; mkSlice 0 1 5 true]).
Proof.
  intros Hne Hburst Htotal. split; [|by vm_compute].
  unfold round_robin, round_robin_with.
  destruct (rr_while_terminates QUANTUM batch eq_refl (rr_fuel batch) (rr_init batch))
    as [s Hs]; [apply rr_init_length|apply rr_fuel_enough|].
  rewrite Hs. eexists. split; [done|].
  destruct (rr_while_inv QUANTUM batch eq_refl Htotal _ _ _ (rr_init_inv batch Hburst) Hs)
    as [Hinv Hzero].
  by apply rr_final_accounts.
Qed.

Lemma round_robin_accounting_witness :
  scenario_batch ≠ [] ∧ Forall (λ p, 1 ≤ burst_time p) scenario_batch ∧
  Zsum (burst_time <$> scenario_batch) ≤ INT_MAX ∧
  ∃ r, round_robin scenario_batch = Some r ∧ round_robin_accounts scenario_batch r.
Proof.
  assert (Forall (λ p, 1 ≤ burst_time p) scenario_batch) as Hburst.
  { repeat constructor; simpl; lia. }
  assert (scenario_batch ≠ []) as Hne by done.
  assert (Zsum (burst_time <$> scenario_batch) ≤ INT_MAX) as Htotal.
  { vm_compute. discriminate. }
  split; [exact Hne|]. split; [exact Hburst|]. split; [exact Htotal|].
  exact (proj1 (round_robin_accounting scenario_batch Hne Hburst Htotal)).
Defined.

(** ** The multilevel queues *)

Lemma queue_number_lt (rand : nat → nat) (k : nat) : (queue_number rand k < 3)%nat.
Proof.
  unfold queue_number, NUM_QUEUES.
  pose proof (Z.rem_bound_pos (Z.of_nat (rand k)) 3). lia.
Qed.

Lemma assigned_snoc (rand : nat → nat) (k : nat) (batch : list Process) (p : Process) :
  assigned rand k (batch ++ [p])
  = assigned rand k batch
    ++ (if decide (queue_number rand (length batch) = k) then [p] else []).
Proof.
  unfold assigned. rewrite imap_app, filter_app, fmap_app. f_equal.
  cbn [imap]. rewrite Nat.add_0_r, filter_cons, filter_nil. simpl.
  by case_decide.
Qed.

Lemma distribute_state (rand : nat → nat) (batch : list Process) :
  let st := foldl (distribute_step rand) (replicate (Z.to_nat NUM_QUEUES) [], O) batch in
  st.2 = length batch ∧ length st.1 = 3%nat ∧
  ∀ k, (k < 3)%nat → st.1 !!! k = assigned rand k batch.
Proof.
  induction batch as [|p batch IH] using rev_ind.
  - split_and!; [done..|]. intros k Hk. simpl.
    by do 3 (destruct k as [|k]; [done|]); lia.
  - rewrite foldl_snoc.
    destruct (foldl _ _ batch) as [queues calls]. simpl in IH.
    destruct IH as (-> & Hlen & Hqueues). cbn [distribute_step fst snd].
    split_and!.
    + rewrite length_app. simpl. lia.
    + by rewrite length_insert.
    + intros k Hk. rewrite assigned_snoc.
      pose proof (queue_number_lt rand (length batch)) as Hq.
      destruct (decide (queue_number rand (length batch) = k)) as [<-|Hne].
      * rewrite list_lookup_total_insert_eq by lia. by rewrite Hqueues.
      * rewrite list_lookup_total_insert_ne by done.
        by rewrite (right_id_L [] (++)), Hqueues.
Qed.

Lemma assigned_partition (rand : nat → nat) (batch : list Process) :
  assigned rand 0 batch ++ assigned rand 1 batch ++ assigned rand 2 batch ≡ₚ batch.
Proof.
  induction batch as [|p batch IH] using rev_ind; [done|].
  rewrite !assigned_snoc. pose proof (queue_number_lt rand (length batch)) as Hq.
  transitivity ((assigned rand 0 batch ++ assigned rand 1 batch ++ assigned rand 2 batch)
                ++ [p]); [|by apply Permutation_app_tail].
  destruct (queue_number rand (length batch)) as [|[|[|q]]]; [| | |lia]; simpl;
    rewrite ?(right_id_L [] (++)); solve_Permutation.
Qed.

(** C8: for every batch and every outcome of the draws, queue [k] holds
    the processes whose draw is [k], in arrival order; each process has
    one draw, which is 0, 1 or 2; the three queues together are a
    permutation of the batch, and their sizes add up to its size. *)
Theorem multilevel_partition (rand : nat → nat) (batch : list Process) :
  length (distribute rand batch) = 3%nat ∧
  (∀ k, (k < 3)%nat → distribute rand batch !!! k = assigned rand k batch) ∧
  (∀ i, (i < length batch)%nat → (queue_number rand i < 3)%nat) ∧
  distribute rand batch !!! 0%nat ++ distribute rand batch !!! 1%nat
    ++ distribute rand batch !!! 2%nat ≡ₚ batch ∧
  (length (distribute rand batch !!! 0%nat) + length (distribute rand batch !!! 1%nat)
   + length (distribute rand batch !!! 2%nat) = length batch)%nat.
Proof.
  destruct (distribute_state rand batch) as (_ & Hlen & Hqueues).
  unfold distribute.
  assert (∀ k, (k < 3)%nat →
               (foldl (distribute_step rand) (replicate (Z.to_nat NUM_QUEUES) [], O) batch).1
                 !!! k = assigned rand k batch) as Hq by done.
  split_and!; [done|done| |..].
  - intros i _. apply queue_number_lt.
  - rewrite !Hq by lia. apply assigned_partition.
  - rewrite !Hq by lia.
    rewrite <- (Permutation_length (assigned_partition rand batch)).
    rewrite !length_app. lia.
Qed.

Lemma rr_body_waiting_length (quantum : Z) (processes : list Process) (i : nat)
    (s : RRState) :
  length (rr_waiting_time (rr_body quantum processes i s)) = length (rr_waiting_time s).
Proof.
  unfold rr_body. repeat case_match; cbn [rr_waiting_time]; by rewrite ?length_insert.
Qed.

Lemma rr_sweep_waiting_length (quantum : Z) (processes : list Process) (s : RRState) :
  length (rr_waiting_time (rr_sweep quantum processes s)) = length (rr_waiting_time s).
Proof.
  unfold rr_sweep.
  loop_invariant (λ (k : nat) (st : RRState),
                    length (rr_waiting_time st) = length (rr_waiting_time s)).
  - lia.
  - done.
  - intros i st _ Hst. by rewrite rr_body_waiting_length.
  - done.
Qed.

Lemma rr_while_waiting_length (fuel : nat) (quantum : Z) (processes : list Process)
    (s s' : RRState) :
  rr_while fuel quantum processes s = Some s' →
  length (rr_waiting_time s') = length (rr_waiting_time s).
Proof.
  revert s. induction fuel as [|fuel IH]; intros s; [done|].
  cbn [rr_while]. destruct (rr_done _).
  - intros [= <-]. apply rr_sweep_waiting_length.
  - intros Hwhile. rewrite (IH _ Hwhile). apply rr_sweep_waiting_length.
Qed.

#[local] Arguments average_loop : simpl never.

Lemma round_robin_average (processes : list Process) (r : RoundRobinResult) :
  processes ≠ [] → round_robin processes = Some r →
  ∃ a : Q, rr_avg_waiting_time r = Finite a ∧
           (Z.of_nat (length processes) ≤ 2 ^ 22 →
            a = round_double (mean (rr_waiting r))).
Proof.
  intros Hne. unfold round_robin, round_robin_with.
  destruct (rr_while _ _ _ _) as [s|] eqn:Hs; [|done].
  intros Hr.
  assert (length processes ≠ O) as HN by by destruct processes.
  assert (length (rr_waiting_time s) = length processes) as Hlen.
  { rewrite (rr_while_waiting_length _ _ _ _ _ Hs). simpl. apply length_replicate. }
  destruct (average_loop_finite (length processes) (rr_waiting_time s)
              (turnaround_loop (length processes) processes (rr_waiting_time s)) HN)
    as (a & b & Heq).
  rewrite Heq in Hr. injection Hr as <-. cbn [rr_avg_waiting_time rr_waiting fst].
  exists a. split; [done|]. intros Hcap.
  rewrite average_loop_exact in Heq.
  - by injection Heq as <- _.
  - done.
  - apply turnaround_loop_spec.
  - by destruct (rr_state_int _ _ _ Hs) as (_ & Hw & _).
  - apply turnaround_loop_int.
  - done.
  - done.
Qed.

Lemma total_burst_time_finite (processes : list Process) :
  ∃ t : Q, total_burst_time processes = Finite t.
Proof.
  unfold total_burst_time.
  induction processes as [|p processes IH] using rev_ind.
  - by exists 0%Q.
  - destruct IH as (t & Ht). rewrite foldl_snoc, Ht. simpl. by eexists.
Qed.

(** The sum of at most [2^22] [int]s is exact in double precision. *)
Lemma total_burst_time_exact (processes : list Process) :
  Forall (λ p, in_int_range (burst_time p)) processes →
  Z.of_nat (length processes) ≤ 2 ^ 22 →
  total_burst_time processes = Finite (inject_Z (Zsum (burst_time <$> processes))).
Proof.
  unfold total_burst_time.
  induction processes as [|p processes IH] using rev_ind; [done|].
  intros Hint Hcap. rewrite length_app in Hcap. simpl in Hcap.
  assert (Forall in_int_range (burst_time <$> processes ++ [p])) as Hall.
  { by apply Forall_fmap. }
  apply Forall_app in Hint as [Hint _].
  rewrite foldl_snoc, IH; [|done|lia].
  cbn [dadd_int]. f_equal. rewrite fmap_app, Zsum_app.
  apply round_double_idem_Z.
  - apply Zsum_int_bound in Hall.
    rewrite length_fmap, fmap_app, Zsum_app, length_app in Hall. simpl in Hall.
    change (Zsum (burst_time <$> [p])) with (burst_time p + 0).
    change (2 ^ 53) with (2 ^ 22 * 2 ^ 31).
    assert (Z.of_nat (length processes + 1) * 2 ^ 31 ≤ 2 ^ 22 * 2 ^ 31)
      by (apply Z.mul_le_mono_nonneg_r; lia).
    lia.
  - change (Zsum (burst_time <$> [p])) with (burst_time p + 0).
    by rewrite Z.add_0_r, inject_Z_plus.
Qed.

Lemma fcfs_average (processes : list Process) :
  processes ≠ [] →
  ∃ a : Q, avg_waiting_time (first_come_first_served processes) = Finite a ∧
           (Z.of_nat (length processes) ≤ 2 ^ 22 →
            a = round_double (mean (waiting_time (first_come_first_served processes)))).
Proof.
  intros Hne. assert (length processes ≠ O) as HN by by destruct processes.
  unfold first_come_first_served.
  destruct (non_preemptive_metrics_finite (length processes) processes HN)
    as (a & b & Ha & _).
  exists a. split; [done|]. intros Hcap.
  destruct (non_preemptive_metrics_averages (length processes) processes eq_refl HN Hcap)
    as [Hw _].
  rewrite Hw in Ha. by injection Ha.
Qed.

Lemma sjf_average (processes : list Process) :
  processes ≠ [] →
  ∃ a : Q, avg_waiting_time (shortest_job_first processes) = Finite a ∧
           (Z.of_nat (length processes) ≤ 2 ^ 22 →
            a = round_double (mean (waiting_time (shortest_job_first processes)))).
Proof.
  intros Hne. assert (length processes ≠ O) as HN by by destruct processes.
  unfold shortest_job_first.
  assert (length (std_sort compareByBurstTime processes) = length processes) as Hlen.
  { apply Permutation_length, sjf_order_ascending. }
  destruct (non_preemptive_metrics_finite (length processes)
              (std_sort compareByBurstTime processes) HN) as (a & b & Ha & _).
  exists a. split; [done|]. intros Hcap.
  destruct (non_preemptive_metrics_averages (length processes)
              (std_sort compareByBurstTime processes) Hlen HN Hcap) as [Hw _].
  rewrite Hw in Ha. by injection Ha.
Qed.

Lemma is_empty_false {A : Type} (v : list A) : is_empty v = false → v ≠ [].
Proof. by destruct v. Qed.

Lemma distribute_queues (rand : nat → nat) (batch : list Process) :
  distribute rand batch !!! 0%nat ++ distribute rand batch !!! 1%nat
    ++ distribute rand batch !!! 2%nat ≡ₚ batch.
Proof.
  destruct (distribute_state rand batch) as (_ & _ & Hqueues).
  unfold distribute. rewrite !Hqueues by lia. apply assigned_partition.
Qed.

(** C4: for every batch and every outcome of the draws, the multilevel
    coordinator returns a result whose queue-1 average is queue 1's FCFS
    average plus the total burst time of queue 0, whose queue-2 average is
    queue 2's SJF average plus the total burst time of queues 0 and 1,
    where an empty queue reports 0, and whose overall average is the sum
    of the three averages divided by 3, all in double precision.  When the
    burst times are [int]s and the batch has at most [2^22] processes, the
    total burst times are exact and the averages of the strategies are the
    doubles nearest to the means of their waiting times.  The overall
    average is not the mean weighted by queue size: with scenario's batch
    split into queues of sizes 2, 1 and 0 the averages are 7/2, 8 and 0,
    the overall average is the double nearest to 23/6, which prints as
    3.83, and the weighted mean is 5. *)
Theorem multilevel_composition (rand : nat → nat) (batch : list Process) :
  (∃ r rr a0 a1 a2,
     multilevel_queue_scheduling rand batch = Some r ∧
     queues r = distribute rand batch ∧
     round_robin (queues r !!! 0%nat) = Some rr ∧
     multilevel_composes r rr a0 a1 a2 ∧
     (Forall (λ p, in_int_range (burst_time p)) batch →
      Z.of_nat (length batch) ≤ 2 ^ 22 →
      multilevel_values r rr a0 a1 a2)) ∧
  (∃ r,
     multilevel_queue_scheduling (λ i, i / 2)%nat scenario_batch = Some r ∧
     length <$> queues r = [2; 1; 0]%nat ∧
     avg_waiting_time_0 r = Finite (7 # 2) ∧
     avg_waiting_time_1 r = Finite 8 ∧
     avg_waiting_time_2 r = Finite 0 ∧
     overall_avg_waiting_time r = Finite (round_double (23 # 6)) ∧
     shown_as (round_double (23 # 6)) 383 ∧
     (weighted_mean 2 1 0 (7 # 2) 8 0 == 5)%Q ∧
     ¬ (round_double (23 # 6) == weighted_mean 2 1 0 (7 # 2) 8 0)%Q).
Proof.
  split; [|eexists; split_and!; by vm_compute].
  unfold multilevel_queue_scheduling.
  pose proof (distribute_queues rand batch) as Hperm.
  set (qs := distribute rand batch) in *.
  destruct (round_robin_returns (qs !!! 0%nat)) as [rr Hrr].
  destruct (total_burst_time_finite (qs !!! 0%nat)) as (t0 & Ht0).
  destruct (total_burst_time_finite (qs !!! 1%nat)) as (t1 & Ht1).
  rewrite Hrr, Ht0, Ht1.
  assert (∃ a0 : Q,
            (if negb (is_empty (qs !!! 0%nat))
             then rr_avg_waiting_time <$> Some rr else Some (Finite 0)) = Some (Finite a0) ∧
            Finite a0
            = (if is_empty (qs !!! 0%nat) then Finite 0 else rr_avg_waiting_time rr) ∧
            (Z.of_nat (length (qs !!! 0%nat)) ≤ 2 ^ 22 →
             a0 = if is_empty (qs !!! 0%nat) then 0%Q
                  else round_double (mean (rr_waiting rr))))
    as (a0 & -> & Hc0 & Hv0).
  { destruct (is_empty (qs !!! 0%nat)) eqn:Hempty; cbn [negb]; [by exists 0%Q|].
    destruct (round_robin_average _ _ (is_empty_false _ Hempty) Hrr) as (a & Heq & Ha).
    exists a. simpl. by rewrite Heq. }
  assert (∃ a1 : Q,
            (if negb (is_empty (qs !!! 1%nat))
             then dadd (avg_waiting_time (first_come_first_served (qs !!! 1%nat)))
                       (Finite t0)
             else Finite 0) = Finite a1 ∧
            Finite a1
            = (if is_empty (qs !!! 1%nat) then Finite 0
               else dadd (avg_waiting_time (first_come_first_served (qs !!! 1%nat)))
                         (Finite t0)) ∧
            (Z.of_nat (length (qs !!! 1%nat)) ≤ 2 ^ 22 →
             a1 = if is_empty (qs !!! 1%nat) then 0%Q
                  else round_double
                         (round_double
                            (mean (waiting_time (first_come_first_served (qs !!! 1%nat))))
                          + t0)))
    as (a1 & -> & Hc1 & Hv1).
  { destruct (is_empty (qs !!! 1%nat)) eqn:Hempty; cbn [negb]; [by exists 0%Q|].
    destruct (fcfs_average _ (is_empty_false _ Hempty)) as (a & -> & Ha).
    eexists. split; [done|]. split; [done|]. intros Hcap. by rewrite <- (Ha Hcap). }
  assert (∃ a2 : Q,
            (if negb (is_empty (qs !!! 2%nat))
             then dadd (avg_waiting_time (shortest_job_first (qs !!! 2%nat)))
                       (dadd (Finite t0) (Finite t1))
             else Finite 0) = Finite a2 ∧
            Finite a2
            = (if is_empty (qs !!! 2%nat) then Finite 0
               else dadd (avg_waiting_time (shortest_job_first (qs !!! 2%nat)))
                         (dadd (Finite t0) (Finite t1))) ∧
            (Z.of_nat (length (qs !!! 2%nat)) ≤ 2 ^ 22 →
             a2 = if is_empty (qs !!! 2%nat) then 0%Q
                  else round_double
                         (round_double
                            (mean (waiting_time (shortest_job_first (qs !!! 2%nat))))
                          + round_double (t0 + t1))))
    as (a2 & -> & Hc2 & Hv2).
  { destruct (is_empty (qs !!! 2%nat)) eqn:Hempty; cbn [negb]; [by exists 0%Q|].
    destruct (sjf_average _ (is_empty_false _ Hempty)) as (a & -> & Ha).
    eexists. split; [done|]. split; [done|]. intros Hcap. by rewrite <- (Ha Hcap). }
  eexists _, rr, a0, a1, a2. split; [done|]. split; [done|]. split; [done|]. split.
  { unfold multilevel_composes. cbn [queues avg_waiting_time_0 avg_waiting_time_1
      avg_waiting_time_2 overall_avg_waiting_time]. rewrite Ht0, Ht1. done. }
  intros Hint Hcap.
  assert (length (qs !!! 0%nat) + length (qs !!! 1%nat) + length (qs !!! 2%nat)
          = length batch)%nat as Hlen.
  { rewrite <- (Permutation_length Hperm), !length_app. lia. }
  rewrite <- Hperm in Hint. apply Forall_app in Hint as [Hint0 Hint].
  apply Forall_app in Hint as [Hint1 _].
  rewrite (total_burst_time_exact _ Hint0) in Ht0 by lia. injection Ht0 as <-.
  rewrite (total_burst_time_exact _ Hint1) in Ht1 by lia. injection Ht1 as <-.
  unfold multilevel_values. cbn [queues]. split; [apply Hv0; lia|].
  split; [apply Hv1; lia|]. rewrite Hv2 by lia.
  destruct (is_empty (qs !!! 2%nat)); [done|]. f_equal. f_equal.
  apply round_double_idem_Z; [|by rewrite inject_Z_plus].
  assert (Forall in_int_range (burst_time <$> qs !!! 0%nat)) as Hb0 by by apply Forall_fmap.
  assert (Forall in_int_range (burst_time <$> qs !!! 1%nat)) as Hb1 by by apply Forall_fmap.
  apply Zsum_int_bound in Hb0, Hb1. rewrite length_fmap in Hb0, Hb1.
  change (2 ^ 53) with (2 ^ 22 * 2 ^ 31).
  assert (Z.of_nat (length (qs !!! 0%nat)) * 2 ^ 31
          + Z.of_nat (length (qs !!! 1%nat)) * 2 ^ 31 ≤ 2 ^ 22 * 2 ^ 31).
  { rewrite <- Z.mul_add_distr_r. apply Z.mul_le_mono_nonneg_r; lia. }
  lia.
Qed.

(** ** The empty batch *)

(** C5, refuted as stated: called on the empty batch, the four strategy
    functions divide their sums by [N = 0], so the average they return is
    not a finite value, while the multilevel coordinator, which tests every
    queue for emptiness first, returns 0. *)
Lemma empty_batch_division_by_zero :
  avg_waiting_time (first_come_first_served []) = NonFinite ∧
  avg_waiting_time (shortest_job_first []) = NonFinite ∧
  avg_waiting_time (priority_scheduling []) = NonFinite ∧
  rr_avg_waiting_time <$> round_robin [] = Some NonFinite ∧
  overall_avg_waiting_time <$> multilevel_queue_scheduling (λ _, O) [] = Some (Finite 0).
Proof. split_and!; by vm_compute. Qed.

(** ** The [int]s of the program stay in range

    On a batch with non-negative bursts whose total burst time is at most
    [INT_MAX], every value the strategies store in an [int] lies between 0
    and the total burst time: no addition or subtraction wraps around. *)

Lemma non_preemptive_metrics_bounds (N : nat) (processes : list Process) :
  length processes = N →
  Forall (λ p, 0 ≤ burst_time p) processes →
  Zsum (burst_time <$> processes) ≤ INT_MAX →
  Forall (λ x, 0 ≤ x ≤ Zsum (burst_time <$> processes))
    (waiting_time (non_preemptive_metrics N processes)) ∧
  Forall (λ x, 0 ≤ x ≤ Zsum (burst_time <$> processes))
    (turnaround_time (non_preemptive_metrics N processes)).
Proof.
  intros Hlen Hb Hmax.
  destruct (non_preemptive_metrics_length N processes Hlen) as [Hwlen Htlen].
  split; apply Forall_lookup; intros i x Hx; pose proof (lookup_lt_Some _ _ _ Hx) as Hi.
  - destruct (non_preemptive_metrics_lookup N processes i Hlen ltac:(lia) Hb Hmax)
      as [Hw _].
    rewrite Hw in Hx. injection Hx as <-. by apply prefix_burst_range.
  - destruct (non_preemptive_metrics_lookup N processes i Hlen ltac:(lia) Hb Hmax)
      as [_ Ht].
    rewrite Ht in Hx. injection Hx as <-. by apply prefix_burst_range.
Qed.

Lemma round_robin_bounds (processes : list Process) (n : nat) :
  Forall (λ p, 1 ≤ burst_time p) processes →
  Zsum (burst_time <$> processes) ≤ INT_MAX →
  0 ≤ rr_time (rr_sweeps n processes) ≤ Zsum (burst_time <$> processes) ∧
  Forall (λ x, 0 ≤ x ≤ Zsum (burst_time <$> processes))
    (rr_remaining_burst_time (rr_sweeps n processes)) ∧
  Forall (λ x, 0 ≤ x ≤ Zsum (burst_time <$> processes))
    (rr_waiting_time (rr_sweeps n processes)) ∧
  Forall (λ x, 0 ≤ x ≤ Zsum (burst_time <$> processes))
    (rr_completion_time (rr_sweeps n processes)).
Proof.
  intros Hburst Hmax. pose proof (rr_sweeps_inv n processes Hburst Hmax) as Hinv.
  pose proof (rr_sweeps_progress n processes Hburst Hmax) as Hrun.
  set (s := rr_sweeps n processes) in *.
  assert (∀ i, (i < length processes)%nat →
               0 ≤ burst_time (processes !!! i) ≤ Zsum (burst_time <$> processes)) as Hb.
  { intros i Hi. split.
    - pose proof (inv_remaining_range _ _ Hinv i Hi). lia.
    - assert (Forall (λ p, 0 ≤ burst_time p) processes) as Hnonneg.
      { eapply Forall_impl; [exact Hburst|]. simpl. intros. lia. }
      pose proof (prefix_burst_range processes i Hnonneg) as H1.
      pose proof (prefix_burst_range processes (S i) Hnonneg) as H2.
      rewrite prefix_burst_S in H2 by done. lia. }
  assert (0 ≤ rr_time s ≤ Zsum (burst_time <$> processes)) as Htime.
  { pose proof (inv_time_remaining _ _ Hinv) as Heq.
    assert (0 ≤ Zsum (rr_remaining_burst_time s)).
    { apply Zsum_nonneg, Forall_lookup. intros i r Hr.
      pose proof (lookup_lt_Some _ _ _ Hr) as Hi.
      rewrite (inv_remaining_length _ _ Hinv) in Hi.
      pose proof (inv_remaining_range _ _ Hinv i Hi) as Hrange.
      rewrite (list_lookup_total_correct _ _ _ Hr) in Hrange. lia. }
    assert (Zsum (rr_remaining_burst_time s) ≤ Zsum (burst_time <$> processes)).
    { apply Zsum_le_pointwise.
      - by rewrite (inv_remaining_length _ _ Hinv), length_fmap.
      - intros i Hi. rewrite (inv_remaining_length _ _ Hinv) in Hi.
        rewrite (list_lookup_total_fmap burst_time) by done.
        apply (inv_remaining_range _ _ Hinv i Hi). }
    lia. }
  split; [lia|]. split; [|split]; apply Forall_lookup; intros i x Hx;
    pose proof (lookup_lt_Some _ _ _ Hx) as Hi;
    rewrite <- (list_lookup_total_correct _ _ _ Hx).
  - rewrite (inv_remaining_length _ _ Hinv) in Hi.
    pose proof (inv_remaining_range _ _ Hinv i Hi). specialize (Hb i Hi). lia.
  - rewrite (inv_waiting_length _ _ Hinv) in Hi.
    pose proof (inv_waiting_range _ _ Hinv i Hi).
    destruct (Hrun i Hi) as (_ & _ & Hw). lia.
  - rewrite (inv_completion_length _ _ Hinv) in Hi.
    pose proof (inv_completion_le _ _ Hinv i Hi). lia.
Qed.

(** ** The generated batches

    A batch of [generateProcesses] has the identifiers 0 to [n - 1] and
    every burst time and priority in its range, so that it meets the
    hypotheses of the round robin theorems, and its total burst time is at
    most [20 * n]. *)

Lemma generateProcesses_spec (rand : nat → nat) (n : nat) :
  length (generateProcesses rand n) = n ∧
  pid <$> generateProcesses rand n = Z.of_nat <$> seq 0 n ∧
  Forall (λ p, MIN_BURST_TIME ≤ burst_time p ≤ MAX_BURST_TIME ∧
               MIN_PRIORITY ≤ priority p ≤ MAX_PRIORITY) (generateProcesses rand n).
Proof.
  unfold generateProcesses.
  loop_invariant
    (λ (k : nat) (processes : list Process),
       length processes = k ∧
       pid <$> processes = Z.of_nat <$> seq 0 k ∧
       Forall (λ p, MIN_BURST_TIME ≤ burst_time p ≤ MAX_BURST_TIME ∧
                    MIN_PRIORITY ≤ priority p ≤ MAX_PRIORITY) processes).
  - lia.
  - done.
  - intros k processes _ (Hlen & Hpid & Hrange). split_and!.
    + rewrite length_app. simpl. lia.
    + by rewrite fmap_app, Hpid, seq_S, fmap_app.
    + apply Forall_app. split; [done|]. constructor; [|done].
      cbn [burst_time priority].
      unfold MIN_BURST_TIME, MAX_BURST_TIME, MIN_PRIORITY, MAX_PRIORITY.
      generalize (rand (2 * k)%nat) (rand (2 * k + 1)%nat). intros r1 r2.
      pose proof (Z.rem_bound_pos (Z.of_nat r1) (20 - 1 + 1)).
      pose proof (Z.rem_bound_pos (Z.of_nat r2) (3 - 1 + 1)).
      lia.
  - done.
Qed.

Lemma bounded_total_burst (processes : list Process) :
  Forall (λ p, MIN_BURST_TIME ≤ burst_time p ≤ MAX_BURST_TIME ∧
               MIN_PRIORITY ≤ priority p ≤ MAX_PRIORITY) processes →
  Forall (λ p, 1 ≤ burst_time p) processes ∧
  Zsum (burst_time <$> processes) ≤ 20 * Z.of_nat (length processes).
Proof.
  induction 1 as [|p processes [Hp _] _ [IH1 IH2]]; [done|].
  unfold MIN_BURST_TIME, MAX_BURST_TIME in Hp.
  split; [constructor; [lia|done]|].
  rewrite fmap_cons, Zsum_cons. simpl length. lia.
Qed.

Lemma generateProcesses_total_burst (rand : nat → nat) (n : nat) :
  Forall (λ p, 1 ≤ burst_time p) (generateProcesses rand n) ∧
  Zsum (burst_time <$> generateProcesses rand n) ≤ 20 * Z.of_nat n.
Proof.
  destruct (generateProcesses_spec rand n) as (Hlen & _ & Hrange).
  apply bounded_total_burst in Hrange. by rewrite Hlen in Hrange.
Qed.

(** The batch [main] generates (lines 458 and 511) has 10 processes: it is
    not empty, it is short enough for [std::sort] to be stable on it, its
    bursts are positive and its total burst time is far below [INT_MAX]. *)
Lemma default_batch_well_formed (rand : nat → nat) :
  let batch := generateProcesses rand (Z.to_nat DEFAULT_PROCESS_COUNT) in
  batch ≠ [] ∧ (length batch ≤ 16)%nat ∧
  Forall (λ p, 1 ≤ burst_time p) batch ∧
  Zsum (burst_time <$> batch) ≤ INT_MAX.
Proof.
  intros batch.
  destruct (generateProcesses_spec rand (Z.to_nat DEFAULT_PROCESS_COUNT)) as (Hlen & _).
  destruct (generateProcesses_total_burst rand (Z.to_nat DEFAULT_PROCESS_COUNT))
    as [Hburst Htotal].
  fold batch in Hlen, Hburst, Htotal. split_and!; [| |done|].
  - intros Hnil. by rewrite Hnil in Hlen.
  - rewrite Hlen. unfold DEFAULT_PROCESS_COUNT. lia.
  - unfold INT_MAX. unfold DEFAULT_PROCESS_COUNT in Htotal. lia.
Qed.

(** ** The fuel of the loops of [std::sort]

    The loops of the model of [std::sort] that are not structural run on
    fuel.  The fuel their callers give them is never used up before the loop
    ends: with any larger amount the result is the same. *)

Section std_sort_fuel.
Context {A : Type} (comp : A → A → bool).

Lemma scan_up_fuel (fuel fuel' : nat) (a : list A) (pivot : A) (first : nat) :
  (length a - first ≤ fuel)%nat → (length a - first ≤ fuel')%nat →
  scan_up comp fuel a pivot first = scan_up comp fuel' a pivot first.
Proof.
  revert fuel' first. induction fuel as [|fuel IH]; intros [|fuel'] first Hf Hf';
    cbn [scan_up]; try done.
  - by rewrite lookup_ge_None_2 by lia.
  - by rewrite lookup_ge_None_2 by lia.
  - destruct (a !! first) as [x|] eqn:Hx; [|done].
    destruct (comp x pivot); [|done]. apply IH; lia.
Qed.

Lemma scan_up_ge (fuel : nat) (a : list A) (pivot : A) (first : nat) :
  (first ≤ scan_up comp fuel a pivot first)%nat.
Proof.
  revert first. induction fuel as [|fuel IH]; intros first; cbn [scan_up]; [done|].
  destruct (a !! first); [|done]. destruct (comp _ _); [|done].
  specialize (IH (S first)). lia.
Qed.

Lemma scan_down_le (a : list A) (pivot : A) (last : nat) :
  (scan_down comp a pivot last ≤ last)%nat.
Proof.
  induction last as [|last IH]; cbn [scan_down].
  - by repeat case_match.
  - destruct (a !! S last); [|done]. destruct (comp _ _); [lia|done].
Qed.

Lemma iter_swap_length (i j : nat) (a : list A) : length (iter_swap i j a) = length a.
Proof. by rewrite iter_swap_perm. Qed.

Lemma unguarded_partition_fuel (fuel fuel' : nat) (first last pivot : nat) (a : list A) :
  (last - first < fuel)%nat → (last - first < fuel')%nat →
  unguarded_partition comp fuel first last pivot a
  = unguarded_partition comp fuel' first last pivot a.
Proof.
  revert fuel' first last a.
  induction fuel as [|fuel IH]; intros [|fuel'] first last a Hf Hf'; try lia.
  cbn [unguarded_partition]. destruct (a !! pivot) as [p|]; [|done].
  pose proof (scan_up_ge (length a - first) a p first).
  pose proof (scan_down_le a p (last - 1)).
  destruct (negb _) eqn:Hlt; [done|].
  apply negb_false_iff, Nat.ltb_lt in Hlt. apply IH; lia.
Qed.

Lemma push_heap_fuel (fuel fuel' : nat) (holeIndex topIndex : nat) (value : A)
    (a : list A) :
  (holeIndex ≤ fuel)%nat → (holeIndex ≤ fuel')%nat →
  push_heap comp fuel holeIndex topIndex value a
  = push_heap comp fuel' holeIndex topIndex value a.
Proof.
  revert fuel' holeIndex a.
  induction fuel as [|fuel IH]; intros [|fuel'] hole a Hf Hf'; cbn [push_heap];
    try done.
  - replace hole with O by lia. by destruct (a !! _).
  - replace hole with O by lia. by destruct (a !! _).
  - destruct (a !! ((hole - 1) / 2)%nat) as [x|]; [|done].
    destruct (topIndex <? hole)%nat eqn:Htop; [|done]. apply Nat.ltb_lt in Htop.
    destruct (comp x value); [|done]. cbn [andb].
    assert ((hole - 1) / 2 < hole)%nat.
    { apply Nat.Div0.div_lt_upper_bound. lia. }
    apply IH; lia.
Qed.

Lemma adjust_heap_loop_fuel (fuel fuel' : nat) (holeIndex len : nat) (a : list A) :
  ((len - 1) / 2 - holeIndex ≤ fuel)%nat → ((len - 1) / 2 - holeIndex ≤ fuel')%nat →
  adjust_heap_loop comp fuel holeIndex len a
  = adjust_heap_loop comp fuel' holeIndex len a.
Proof.
  revert fuel' holeIndex a.
  induction fuel as [|fuel IH]; intros [|fuel'] hole a Hf Hf';
    cbn [adjust_heap_loop]; try done.
  - by rewrite (proj2 (Nat.ltb_ge _ _)) by lia.
  - by rewrite (proj2 (Nat.ltb_ge _ _)) by lia.
  - destruct (hole <? (len - 1) / 2)%nat eqn:Hlt; [|done]. apply Nat.ltb_lt in Hlt.
    destruct (a !! (2 * (hole + 1))%nat) as [r|]; [|done].
    destruct (a !! (2 * (hole + 1) - 1)%nat) as [l|]; [|done].
    destruct (comp r l); (destruct (a !! _); [|done]); apply IH; lia.
Qed.

(** The fuel of the calls in [__unguarded_partition_pivot] and
    [__adjust_heap]. *)
Lemma unguarded_partition_pivot_fuel (fuel : nat) (a : list A) :
  a ≠ [] → (length a ≤ fuel)%nat →
  unguarded_partition comp fuel 1 (length a) 0 a
  = unguarded_partition comp (length a) 1 (length a) 0 a.
Proof.
  intros Hne Hfuel. assert (0 < length a)%nat by (destruct a; simpl; [done|lia]).
  apply unguarded_partition_fuel; lia.
Qed.

Lemma adjust_heap_loop_enough (fuel : nat) (holeIndex len : nat) (a : list A) :
  (len ≤ fuel)%nat →
  adjust_heap_loop comp fuel holeIndex len a = adjust_heap_loop comp len holeIndex len a.
Proof.
  intros Hfuel. assert ((len - 1) / 2 ≤ len)%nat.
  { etrans; [apply Nat.Div0.div_le_upper_bound with (q := len)|done]. lia. }
  apply adjust_heap_loop_fuel; lia.
Qed.

Lemma push_heap_enough (fuel : nat) (holeIndex topIndex : nat) (value : A) (a : list A) :
  (holeIndex < length a)%nat → (length a ≤ fuel)%nat →
  push_heap comp fuel holeIndex topIndex value a
  = push_heap comp (length a) holeIndex topIndex value a.
Proof. intros Hhole Hfuel. apply push_heap_fuel; lia. Qed.
End std_sort_fuel.

(** * Further properties of the program *)

(** ** The generator *)

(** X1: [generateProcesses] returns as many processes as asked for, with
    the identifiers 0, 1, ..., n - 1 in this order, hence pairwise
    distinct, every burst time between 1 and 20 and every priority
    between 1 and 3, whatever [rand()] returns. *)
Theorem generated_batch_shape (rand : nat → nat) (n : nat) :
  length (generateProcesses rand n) = n ∧
  pid <$> generateProcesses rand n = Z.of_nat <$> seq 0 n ∧
  NoDup (pid <$> generateProcesses rand n) ∧
  Forall (λ p, 1 ≤ burst_time p ≤ 20 ∧ 1 ≤ priority p ≤ 3) (generateProcesses rand n).
Proof.
  destruct (generateProcesses_spec rand n) as (Hlen & Hpid & Hrange).
  split_and!; [done|done| |done].
  rewrite Hpid. apply (NoDup_fmap_2 _), NoDup_seq.
Qed.

(** ** The metrics of the non-preemptive strategies *)

Lemma sjf_order_length (batch : list Process) :
  length (order (shortest_job_first batch)) = length batch.
Proof. apply Permutation_length, sjf_order_ascending. Qed.

(** A reordered batch has the same size and total burst time. *)
Lemma ordered_no_overflow (batch ordered : list Process) :
  ordered ≡ₚ batch →
  Forall (λ p, 0 ≤ burst_time p) batch →
  Zsum (burst_time <$> batch) ≤ INT_MAX →
  length ordered = length batch ∧
  Forall (λ p, 0 ≤ burst_time p) ordered ∧
  Zsum (burst_time <$> ordered) = Zsum (burst_time <$> batch) ∧
  Zsum (burst_time <$> ordered) ≤ INT_MAX.
Proof.
  intros Hp Hb Htotal.
  pose proof (Zsum_perm _ _ (fmap_Permutation burst_time _ _ Hp)) as Hsum.
  split_and!; [by apply Permutation_length|by rewrite Hp|done|lia].
Qed.

(** X2: on a batch of non-negative burst times that add up to at most
    [INT_MAX], under FCFS, SJF and Priority the process in row [i] of the
    table waits exactly the total burst time of the rows above it, and
    its turnaround time is the total burst time of the rows up to its
    own. *)
Theorem waiting_is_burst_of_predecessors (batch : list Process) (i : nat) :
  Forall (λ p, 0 ≤ burst_time p) batch →
  Zsum (burst_time <$> batch) ≤ INT_MAX →
  (i < length batch)%nat →
  (waiting_time (first_come_first_served batch) !! i
   = Some (Zsum (burst_time <$> take i batch)) ∧
   turnaround_time (first_come_first_served batch) !! i
   = Some (Zsum (burst_time <$> take (S i) batch))) ∧
  (waiting_time (shortest_job_first batch) !! i
   = Some (Zsum (burst_time <$> take i (order (shortest_job_first batch)))) ∧
   turnaround_time (shortest_job_first batch) !! i
   = Some (Zsum (burst_time <$> take (S i) (order (shortest_job_first batch))))) ∧
  (waiting_time (priority_scheduling batch) !! i
   = Some (Zsum (burst_time <$> take i (order (priority_scheduling batch)))) ∧
   turnaround_time (priority_scheduling batch) !! i
   = Some (Zsum (burst_time <$> take (S i) (order (priority_scheduling batch))))).
Proof.
  intros Hb Htotal Hi. split; [|split].
  - by apply non_preemptive_metrics_lookup.
  - destruct (ordered_no_overflow batch (order (shortest_job_first batch)))
      as (Hlen & Hb' & _ & Htotal'); [apply sjf_order_ascending|done..|].
    by apply (non_preemptive_metrics_lookup (length batch)
                (order (shortest_job_first batch))).
  - destruct (ordered_no_overflow batch (order (priority_scheduling batch)))
      as (Hlen & Hb' & _ & Htotal'); [apply priority_order_ascending|done..|].
    by apply (non_preemptive_metrics_lookup (length batch)
                (order (priority_scheduling batch))).
Qed.

Lemma waiting_is_burst_of_predecessors_witness :
  Forall (λ p, 0 ≤ burst_time p) scenario_batch ∧
  Zsum (burst_time <$> scenario_batch) ≤ INT_MAX ∧
  (1 < length scenario_batch)%nat ∧
  waiting_time (first_come_first_served scenario_batch) !! 1%nat
  = Some (Zsum (burst_time <$> take 1 scenario_batch)).
Proof.
  assert (Forall (λ p, 0 ≤ burst_time p) scenario_batch) as Hb.
  { repeat constructor; simpl; lia. }
  assert (Zsum (burst_time <$> scenario_batch) ≤ INT_MAX) as Htotal.
  { vm_compute. discriminate. }
  assert (1 < length scenario_batch)%nat as Hi by (simpl; lia).
  split; [exact Hb|]. split; [exact Htotal|]. split; [exact Hi|].
  exact (proj1 (proj1 (waiting_is_burst_of_predecessors scenario_batch 1 Hb Htotal Hi))).
Defined.

Lemma prefix_burst_all (processes : list Process) :
  prefix_burst processes (length processes) = Zsum (burst_time <$> processes).
Proof. unfold prefix_burst. by rewrite firstn_all. Qed.

Lemma non_preemptive_metrics_last (N : nat) (processes : list Process) :
  length processes = N → N ≠ O →
  Forall (λ p, 0 ≤ burst_time p) processes →
  Zsum (burst_time <$> processes) ≤ INT_MAX →
  last (turnaround_time (non_preemptive_metrics N processes))
  = Some (Zsum (burst_time <$> processes)).
Proof.
  intros Hlen HN Hb Htotal.
  destruct (non_preemptive_metrics_lookup N processes (N - 1)) as [_ Ht];
    [done|lia|done..|].
  destruct (turnaround_loop_spec N processes (waiting_loop N processes)) as [Htlen _].
  rewrite last_lookup. cbn [non_preemptive_metrics turnaround_time] in *.
  rewrite Htlen. replace (Nat.pred N) with (N - 1)%nat by lia. rewrite Ht.
  replace (S (N - 1)) with N by lia. subst N. by rewrite prefix_burst_all.
Qed.

(** X3: on a non-empty batch of non-negative burst times that add up to
    at most [INT_MAX], the process that FCFS, SJF or Priority runs last
    has a turnaround time equal to the total burst time of the batch,
    whatever the order the strategy has chosen. *)
Theorem last_turnaround_is_total_burst (batch : list Process) :
  batch ≠ [] →
  Forall (λ p, 0 ≤ burst_time p) batch →
  Zsum (burst_time <$> batch) ≤ INT_MAX →
  last (turnaround_time (first_come_first_served batch))
  = Some (Zsum (burst_time <$> batch)) ∧
  last (turnaround_time (shortest_job_first batch))
  = Some (Zsum (burst_time <$> batch)) ∧
  last (turnaround_time (priority_scheduling batch))
  = Some (Zsum (burst_time <$> batch)).
Proof.
  intros Hne Hb Htotal. assert (length batch ≠ O) as HN by by destruct batch.
  split_and!.
  - by apply non_preemptive_metrics_last.
  - destruct (ordered_no_overflow batch (order (shortest_job_first batch)))
      as (Hlen & Hb' & Hsum & Htotal'); [apply sjf_order_ascending|done..|].
    rewrite <- Hsum.
    by apply (non_preemptive_metrics_last (length batch)
                (order (shortest_job_first batch))).
  - destruct (ordered_no_overflow batch (order (priority_scheduling batch)))
      as (Hlen & Hb' & Hsum & Htotal'); [apply priority_order_ascending|done..|].
    rewrite <- Hsum.
    by apply (non_preemptive_metrics_last (length batch)
                (order (priority_scheduling batch))).
Qed.

Lemma last_turnaround_is_total_burst_witness :
  scenario_batch ≠ [] ∧
  Forall (λ p, 0 ≤ burst_time p) scenario_batch ∧
  Zsum (burst_time <$> scenario_batch) ≤ INT_MAX ∧
  last (turnaround_time (shortest_job_first scenario_batch))
  = Some (Zsum (burst_time <$> scenario_batch)).
Proof.
  assert (scenario_batch ≠ []) as Hne by done.
  assert (Forall (λ p, 0 ≤ burst_time p) scenario_batch) as Hb.
  { repeat constructor; simpl; lia. }
  assert (Zsum (burst_time <$> scenario_batch) ≤ INT_MAX) as Htotal.
  { vm_compute. discriminate. }
  split; [exact Hne|]. split; [exact Hb|]. split; [exact Htotal|].
  exact (proj1 (proj2 (last_turnaround_is_total_burst scenario_batch Hne Hb Htotal))).
Defined.

Lemma Zsum_pointwise_add (t w b : list Z) :
  length w = length t → length b = length t →
  (∀ i, (i < length t)%nat → t !!! i = w !!! i + b !!! i) →
  Zsum t = Zsum w + Zsum b.
Proof.
  revert w b. induction t as [|x t IH]; intros [|y w] [|z b] Hw Hb Hsum; try done.
  injection Hw as Hw. injection Hb as Hb. rewrite !Zsum_cons.
  pose proof (Hsum O ltac:(simpl; lia)) as H0. simpl in H0.
  rewrite (IH w b Hw Hb); [lia|]. intros i Hi. apply (Hsum (S i)). simpl. lia.
Qed.

Lemma non_preemptive_average_turnaround (N : nat) (processes : list Process) :
  length processes = N → N ≠ O →
  Forall (λ p, 0 ≤ burst_time p) processes →
  Zsum (burst_time <$> processes) ≤ INT_MAX →
  Z.of_nat N ≤ 2 ^ 22 →
  avg_waiting_time (non_preemptive_metrics N processes)
  = Finite (round_double (mean (waiting_time (non_preemptive_metrics N processes)))) ∧
  avg_turnaround_time (non_preemptive_metrics N processes)
  = Finite (round_double (mean (waiting_time (non_preemptive_metrics N processes))
                          + mean (burst_time <$> processes))).
Proof.
  intros Hlen HN Hb Htotal Hcap.
  destruct (non_preemptive_metrics_recurrence N processes Hlen HN Hb Htotal)
    as (_ & Hwlen & Htlen & _ & _ & Hturn & Havg).
  destruct (Havg Hcap) as [Hw Ht]. split; [done|]. rewrite Ht. f_equal.
  apply round_double_comp. unfold mean. rewrite Hwlen, Htlen, length_fmap, Hlen.
  rewrite (Zsum_pointwise_add (turnaround_time (non_preemptive_metrics N processes))
             (waiting_time (non_preemptive_metrics N processes))
             (burst_time <$> processes)).
  - rewrite inject_Z_plus. unfold Qdiv. ring.
  - lia.
  - rewrite length_fmap. lia.
  - intros i Hi. rewrite Htlen in Hi. rewrite Hturn by done.
    rewrite (list_lookup_total_fmap burst_time) by lia. done.
Qed.

(** X4: on a non-empty batch of at most [2^22] processes with non-negative
    burst times that add up to at most [INT_MAX], the average waiting time
    that FCFS, SJF and Priority report is the double nearest to the mean of
    the waiting times, and the average turnaround time is the double
    nearest to that mean plus the mean burst time of the batch. *)
Theorem average_turnaround_is_wait_plus_burst (batch : list Process) :
  batch ≠ [] →
  Forall (λ p, 0 ≤ burst_time p) batch →
  Zsum (burst_time <$> batch) ≤ INT_MAX →
  Z.of_nat (length batch) ≤ 2 ^ 22 →
  (avg_waiting_time (first_come_first_served batch)
   = Finite (round_double (mean (waiting_time (first_come_first_served batch)))) ∧
   avg_turnaround_time (first_come_first_served batch)
   = Finite (round_double (mean (waiting_time (first_come_first_served batch))
                           + mean (burst_time <$> batch)))) ∧
  (avg_waiting_time (shortest_job_first batch)
   = Finite (round_double (mean (waiting_time (shortest_job_first batch)))) ∧
   avg_turnaround_time (shortest_job_first batch)
   = Finite (round_double (mean (waiting_time (shortest_job_first batch))
                           + mean (burst_time <$> batch)))) ∧
  (avg_waiting_time (priority_scheduling batch)
   = Finite (round_double (mean (waiting_time (priority_scheduling batch)))) ∧
   avg_turnaround_time (priority_scheduling batch)
   = Finite (round_double (mean (waiting_time (priority_scheduling batch))
                           + mean (burst_time <$> batch)))).
Proof.
  intros Hne Hb Htotal Hcap. assert (length batch ≠ O) as HN by by destruct batch.
  assert (∀ ordered, ordered ≡ₚ batch →
            mean (burst_time <$> ordered) = mean (burst_time <$> batch)) as Hmean.
  { intros ordered Hp. unfold mean.
    by rewrite !length_fmap, (Permutation_length Hp),
         (Zsum_perm _ _ (fmap_Permutation burst_time _ _ Hp)). }
  split; [|split].
  - by apply non_preemptive_average_turnaround.
  - destruct (ordered_no_overflow batch (order (shortest_job_first batch)))
      as (Hlen & Hb' & _ & Htotal'); [apply sjf_order_ascending|done..|].
    rewrite <- (Hmean (order (shortest_job_first batch)))
      by apply sjf_order_ascending.
    by apply (non_preemptive_average_turnaround (length batch)
                (order (shortest_job_first batch))).
  - destruct (ordered_no_overflow batch (order (priority_scheduling batch)))
      as (Hlen & Hb' & _ & Htotal'); [apply priority_order_ascending|done..|].
    rewrite <- (Hmean (order (priority_scheduling batch)))
      by apply priority_order_ascending.
    by apply (non_preemptive_average_turnaround (length batch)
                (order (priority_scheduling batch))).
Qed.

Lemma average_turnaround_is_wait_plus_burst_witness :
  scenario_batch ≠ [] ∧
  Forall (λ p, 0 ≤ burst_time p) scenario_batch ∧
  Zsum (burst_time <$> scenario_batch) ≤ INT_MAX ∧
  Z.of_nat (length scenario_batch) ≤ 2 ^ 22 ∧
  avg_turnaround_time (first_come_first_served scenario_batch)
  = Finite (round_double (mean (waiting_time (first_come_first_served scenario_batch))
                          + mean (burst_time <$> scenario_batch))).
Proof.
  assert (scenario_batch ≠ []) as Hne by done.
  assert (Forall (λ p, 0 ≤ burst_time p) scenario_batch) as Hb.
  { repeat constructor; simpl; lia. }
  assert (Zsum (burst_time <$> scenario_batch) ≤ INT_MAX) as Htotal.
  { vm_compute. discriminate. }
  assert (Z.of_nat (length scenario_batch) ≤ 2 ^ 22) as Hcap.
  { vm_compute. discriminate. }
  split; [exact Hne|]. split; [exact Hb|]. split; [exact Htotal|]. split; [exact Hcap|].
  exact (proj2 (proj1 (average_turnaround_is_wait_plus_burst scenario_batch
                         Hne Hb Htotal Hcap))).
Defined.

(** The metrics depend on the burst times of the rows only. *)
Lemma metrics_depend_on_bursts (N : nat) (processes processes' : list Process) :
  length processes = N → burst_time <$> processes = burst_time <$> processes' →
  waiting_time (non_preemptive_metrics N processes)
  = waiting_time (non_preemptive_metrics N processes') ∧
  turnaround_time (non_preemptive_metrics N processes)
  = turnaround_time (non_preemptive_metrics N processes') ∧
  avg_waiting_time (non_preemptive_metrics N processes)
  = avg_waiting_time (non_preemptive_metrics N processes') ∧
  avg_turnaround_time (non_preemptive_metrics N processes)
  = avg_turnaround_time (non_preemptive_metrics N processes').
Proof.
  intros Hlen Hbursts.
  assert (length processes' = N) as Hlen'.
  { rewrite <- Hlen, <- (length_fmap burst_time processes'), <- Hbursts.
    by rewrite length_fmap. }
  assert (∀ i, prefix_burst processes i = prefix_burst processes' i) as Hprefix.
  { intros i. unfold prefix_burst. by rewrite !fmap_take, Hbursts. }
  assert (waiting_loop N processes = waiting_loop N processes') as Hw.
  { destruct (waiting_loop_spec N processes) as [Hl1 H1]; [lia|].
    destruct (waiting_loop_spec N processes') as [Hl2 H2]; [lia|].
    apply list_eq. intros i. destruct (decide (i < N)%nat) as [Hi|Hi].
    - by rewrite H1, H2, Hprefix.
    - by rewrite !lookup_ge_None_2 by lia. }
  assert (turnaround_loop N processes (waiting_loop N processes)
          = turnaround_loop N processes' (waiting_loop N processes')) as Ht.
  { rewrite <- Hw.
    destruct (turnaround_loop_spec N processes (waiting_loop N processes)) as [Hl1 H1].
    destruct (turnaround_loop_spec N processes' (waiting_loop N processes)) as [Hl2 H2].
    apply list_eq. intros i. destruct (decide (i < N)%nat) as [Hi|Hi].
    - rewrite H1, H2 by done. do 2 f_equal.
      rewrite <- !(list_lookup_total_fmap burst_time) by lia. by rewrite Hbursts.
    - by rewrite !lookup_ge_None_2 by lia. }
  cbn [non_preemptive_metrics waiting_time turnaround_time avg_waiting_time
         avg_turnaround_time]. by rewrite Ht, Hw.
Qed.

Lemma sorted_bursts_unique (l l' : list Process) :
  StronglySorted (λ a b, burst_time a ≤ burst_time b) l →
  StronglySorted (λ a b, burst_time a ≤ burst_time b) l' →
  l ≡ₚ l' → burst_time <$> l = burst_time <$> l'.
Proof.
  intros Hl Hl' Hperm. apply (StronglySorted_unique Z.le).
  - eapply StronglySorted_fmap; [|done]. done.
  - eapply StronglySorted_fmap; [|done]. done.
  - by rewrite Hperm.
Qed.

(** X5: the waiting times, turnaround times and averages that SJF reports
    do not depend on the arrival order: two batches with the same
    processes in different orders get the same columns of figures. *)
Theorem sjf_independent_of_arrival_order (batch batch' : list Process) :
  batch ≡ₚ batch' →
  waiting_time (shortest_job_first batch) = waiting_time (shortest_job_first batch') ∧
  turnaround_time (shortest_job_first batch)
  = turnaround_time (shortest_job_first batch') ∧
  avg_waiting_time (shortest_job_first batch)
  = avg_waiting_time (shortest_job_first batch') ∧
  avg_turnaround_time (shortest_job_first batch)
  = avg_turnaround_time (shortest_job_first batch').
Proof.
  intros Hperm. unfold shortest_job_first.
  rewrite <- (Permutation_length Hperm).
  apply metrics_depend_on_bursts; [apply sjf_order_length|].
  destruct (sjf_order_ascending batch) as [Hs Hp].
  destruct (sjf_order_ascending batch') as [Hs' Hp'].
  apply sorted_bursts_unique; [done..|].
  etrans; [exact Hp|]. etrans; [exact Hperm|]. by symmetry.
Qed.

Lemma sjf_independent_of_arrival_order_witness :
  scenario_batch ≡ₚ rev scenario_batch ∧
  waiting_time (shortest_job_first scenario_batch)
  = waiting_time (shortest_job_first (rev scenario_batch)).
Proof.
  assert (scenario_batch ≡ₚ rev scenario_batch) as Hperm by apply Permutation_rev.
  split; [exact Hperm|].
  exact (proj1 (sjf_independent_of_arrival_order _ _ Hperm)).
Defined.

(** X6: on a batch that arrives in non-decreasing order of burst time, of
    any size, SJF reports the waiting times, turnaround times and averages
    of FCFS. *)
Theorem sjf_on_sorted_batch_is_fcfs (batch : list Process) :
  StronglySorted (λ a b, burst_time a ≤ burst_time b) batch →
  waiting_time (shortest_job_first batch) = waiting_time (first_come_first_served batch) ∧
  turnaround_time (shortest_job_first batch)
  = turnaround_time (first_come_first_served batch) ∧
  avg_waiting_time (shortest_job_first batch)
  = avg_waiting_time (first_come_first_served batch) ∧
  avg_turnaround_time (shortest_job_first batch)
  = avg_turnaround_time (first_come_first_served batch).
Proof.
  intros Hsorted. unfold shortest_job_first, first_come_first_served.
  apply metrics_depend_on_bursts; [apply sjf_order_length|].
  destruct (sjf_order_ascending batch) as [Hs Hp].
  by apply sorted_bursts_unique.
Qed.

Lemma sjf_on_sorted_batch_is_fcfs_witness :
  StronglySorted (λ a b, burst_time a ≤ burst_time b)
    [mkProcess 0 3 2; mkProcess 1 5 1; mkProcess 2 5 3] ∧
  waiting_time (shortest_job_first [mkProcess 0 3 2; mkProcess 1 5 1; mkProcess 2 5 3])
  = waiting_time (first_come_first_served
                    [mkProcess 0 3 2; mkProcess 1 5 1; mkProcess 2 5 3]).
Proof.
  assert (StronglySorted (λ a b, burst_time a ≤ burst_time b)
            [mkProcess 0 3 2; mkProcess 1 5 1; mkProcess 2 5 3]) as Hsorted.
  { repeat constructor; simpl; lia. }
  split; [exact Hsorted|].
  exact (proj1 (sjf_on_sorted_batch_is_fcfs _ Hsorted)).
Defined.

(** A list in ascending order of a key is determined by its sublists of
    equal keys. *)
Lemma sorted_filter_unique (key : Process → Z) (l l' : list Process) :
  StronglySorted (λ a b, key a ≤ key b) l →
  StronglySorted (λ a b, key a ≤ key b) l' →
  (∀ k : Z, filter (λ p, key p = k) l = filter (λ p, key p = k) l') →
  l = l'.
Proof.
  intros Hl. revert l'. induction Hl as [|x t Ht IH Hx]; intros l' Hl' Hf.
  - destruct l' as [|y t']; [done|]. specialize (Hf (key y)).
    by rewrite filter_nil, filter_cons_True in Hf.
  - destruct l' as [|y t']. 
    { specialize (Hf (key x)). by rewrite filter_nil, filter_cons_True in Hf. }
    apply StronglySorted_inv in Hl' as [Ht' Hy].
    assert (key x ≤ key y) as Hxy.
    { assert (y ∈ filter (λ p, key p = key y) (x :: t)) as Hin.
      { rewrite Hf, filter_cons_True by done. left. }
      apply list_elem_of_filter in Hin as [_ Hin].
      apply elem_of_cons in Hin as [->|Hin]; [lia|].
      rewrite Forall_forall in Hx. by apply Hx. }
    assert (key y ≤ key x) as Hyx.
    { assert (x ∈ filter (λ p, key p = key x) (y :: t')) as Hin.
      { rewrite <- Hf, filter_cons_True by done. left. }
      apply list_elem_of_filter in Hin as [_ Hin].
      apply elem_of_cons in Hin as [->|Hin]; [lia|].
      rewrite Forall_forall in Hy. by apply Hy. }
    assert (key x = key y) as Hkey by lia.
    pose proof (Hf (key x)) as Hhead.
    rewrite !filter_cons_True in Hhead by done. injection Hhead as -> Hhead.
    f_equal. apply IH; [done|]. intros k.
    destruct (decide (key y = k)) as [<-|Hk]; [done|].
    specialize (Hf k). by rewrite !filter_cons_False in Hf.
Qed.

(** X7: a batch of at most 16 processes that arrives in non-decreasing
    order of priority is left in arrival order by Priority, which then
    returns the result of FCFS; likewise SJF on a batch in non-decreasing
    order of burst time. *)
Theorem sorted_small_batch_runs_in_arrival_order (batch : list Process) :
  (length batch ≤ 16)%nat →
  (StronglySorted (λ a b, priority a ≤ priority b) batch →
   priority_scheduling batch = first_come_first_served batch) ∧
  (StronglySorted (λ a b, burst_time a ≤ burst_time b) batch →
   shortest_job_first batch = first_come_first_served batch).
Proof.
  intros Hlen. split; intros Hsorted.
  - unfold priority_scheduling, first_come_first_served. f_equal.
    apply (sorted_filter_unique priority); [|done|].
    + by apply (std_sort_sorted priority).
    + intros k. by apply (std_sort_small_stable priority).
  - unfold shortest_job_first, first_come_first_served. f_equal.
    apply (sorted_filter_unique burst_time); [|done|].
    + apply (std_sort_sorted burst_time), compareByBurstTime_key.
    + intros k. apply (std_sort_small_stable burst_time); [|done].
      apply compareByBurstTime_key.
Qed.

Lemma sorted_small_batch_runs_in_arrival_order_witness :
  (length [mkProcess 0 7 1; mkProcess 1 2 1; mkProcess 2 9 3] ≤ 16)%nat ∧
  StronglySorted (λ a b, priority a ≤ priority b)
    [mkProcess 0 7 1; mkProcess 1 2 1; mkProcess 2 9 3] ∧
  priority_scheduling [mkProcess 0 7 1; mkProcess 1 2 1; mkProcess 2 9 3]
  = first_come_first_served [mkProcess 0 7 1; mkProcess 1 2 1; mkProcess 2 9 3].
Proof.
  assert (length [mkProcess 0 7 1; mkProcess 1 2 1; mkProcess 2 9 3] ≤ 16)%nat
    as Hlen by (simpl; lia).
  assert (StronglySorted (λ a b, priority a ≤ priority b)
            [mkProcess 0 7 1; mkProcess 1 2 1; mkProcess 2 9 3]) as Hsorted.
  { repeat constructor; simpl; lia. }
  split; [exact Hlen|]. split; [exact Hsorted|].
  exact (proj1 (sorted_small_batch_runs_in_arrival_order _ Hlen) Hsorted).
Defined.

Lemma strictly_sorted_unique (key : Process → Z) (l l' : list Process) :
  StronglySorted (λ a b, key a ≤ key b) l →
  StronglySorted (λ a b, key a < key b) l' →
  l ≡ₚ l' → l = l'.
Proof.
  intros Hl. revert l'. induction Hl as [|x t Ht IH Hx]; intros l' Hl' Hperm.
  - by apply Permutation_nil_l in Hperm.
  - destruct l' as [|y t']; [by apply Permutation_nil_r in Hperm|].
    apply StronglySorted_inv in Hl' as [Ht' Hy].
    rewrite Forall_forall in Hx, Hy.
    assert (x = y) as ->.
    { assert (x ∈ y :: t') as Hin1 by (rewrite <- Hperm; left).
      assert (y ∈ x :: t) as Hin2 by (rewrite Hperm; left).
      apply elem_of_cons in Hin1 as [->|Hin1]; [done|].
      apply elem_of_cons in Hin2 as [->|Hin2]; [done|].
      specialize (Hx _ Hin2). specialize (Hy _ Hin1). lia. }
    f_equal. apply IH; [done|]. by apply Permutation_cons_inv in Hperm.
Qed.

(** X8: on a batch of any size whose burst times strictly increase in
    arrival order, SJF leaves the batch in arrival order and returns the
    result of FCFS (no two processes tie, so the unstable sort has no
    freedom). *)
Theorem sjf_on_strictly_increasing_batch (batch : list Process) :
  StronglySorted (λ a b, burst_time a < burst_time b) batch →
  shortest_job_first batch = first_come_first_served batch.
Proof.
  intros Hsorted. unfold shortest_job_first, first_come_first_served. f_equal.
  apply (strictly_sorted_unique burst_time); [|done|].
  - apply (std_sort_sorted burst_time), compareByBurstTime_key.
  - apply (std_sort_perm burst_time), compareByBurstTime_key.
Qed.

Lemma sjf_on_strictly_increasing_batch_witness :
  StronglySorted (λ a b, burst_time a < burst_time b)
    (imap (λ i _, mkProcess (Z.of_nat i) (Z.of_nat i + 1) 1) (replicate 20 tt)) ∧
  shortest_job_first
    (imap (λ i _, mkProcess (Z.of_nat i) (Z.of_nat i + 1) 1) (replicate 20 tt))
  = first_come_first_served
      (imap (λ i _, mkProcess (Z.of_nat i) (Z.of_nat i + 1) 1) (replicate 20 tt)).
Proof.
  assert (StronglySorted (λ a b, burst_time a < burst_time b)
            (imap (λ i _, mkProcess (Z.of_nat i) (Z.of_nat i + 1) 1)
               (replicate 20 tt))) as Hsorted.
  { repeat constructor; simpl; lia. }
  split; [exact Hsorted|].
  exact (sjf_on_strictly_increasing_batch _ Hsorted).
Defined.

(** ** Round robin *)

(** X9: on every batch, whatever its burst times, round robin hands out
    only slices of positive length at most [QUANTUM], to processes of the
    batch, and a slice that does not finish its process is exactly
    [QUANTUM] long. *)
Theorem round_robin_slices_bounded (batch : list Process) :
  ∃ r, round_robin batch = Some r ∧
       Forall (λ e, 0 < ran e ≤ QUANTUM ∧ (finished e = false → ran e = QUANTUM) ∧
                    (who e < length batch)%nat) (rr_slices r).
Proof.
  destruct (round_robin_returns batch) as [r Hr]. exists r. split; [done|].
  unfold round_robin, round_robin_with in Hr.
  destruct (rr_while _ _ _ _) as [s|] eqn:Hwhile; [|done].
  injection Hr as <-. cbn [rr_slices].
  refine (rr_while_preserves QUANTUM batch
            (λ s, Forall (λ e, 0 < ran e ≤ QUANTUM ∧
                               (finished e = false → ran e = QUANTUM) ∧
                               (who e < length batch)%nat) (rr_trace s))
            _ _ _ _ _ _ Hwhile); [done| |by constructor].
  intros i st Hi Hst. unfold rr_body.
  destruct (0 <? _) eqn:Hpos; [apply Z.ltb_lt in Hpos|done].
  destruct (QUANTUM <? _) eqn:Hq; cbn [rr_trace]; apply Forall_app; (split; [done|]);
    repeat constructor; cbn [ran finished who]; try done.
  - apply Z.ltb_ge in Hq. lia.
Qed.

(** X10: round robin never runs a process whose burst time is zero or
    negative: it gets no slice, its waiting and completion times stay 0,
    and the turnaround time reported for it is its burst time (as an
    [int]: the burst time itself, which is one). *)
Theorem round_robin_skips_nonpositive_bursts (batch : list Process) :
  ∃ r, round_robin batch = Some r ∧
       ∀ i, (i < length batch)%nat → burst_time (batch !!! i) ≤ 0 →
            rr_waiting r !!! i = 0 ∧ rr_completion r !!! i = 0 ∧
            rr_turnaround r !!! i = wrap (burst_time (batch !!! i)) ∧
            (in_int_range (burst_time (batch !!! i)) →
             rr_turnaround r !!! i = burst_time (batch !!! i)) ∧
            Forall (λ e, who e ≠ i) (rr_slices r).
Proof.
  destruct (round_robin_returns batch) as [r Hr]. exists r. split; [done|].
  unfold round_robin, round_robin_with in Hr.
  destruct (rr_while _ _ _ _) as [s|] eqn:Hwhile; [|done].
  injection Hr as <-. cbn [rr_slices rr_waiting rr_completion rr_turnaround].
  assert (∀ i, (i < length batch)%nat → burst_time (batch !!! i) ≤ 0 →
               rr_remaining_burst_time s !!! i = burst_time (batch !!! i) ∧
               rr_waiting_time s !!! i = 0 ∧ rr_completion_time s !!! i = 0 ∧
               Forall (λ e, who e ≠ i) (rr_trace s)) as Hskip.
  { refine (rr_while_preserves QUANTUM batch
              (λ s, ∀ i, (i < length batch)%nat → burst_time (batch !!! i) ≤ 0 →
                 rr_remaining_burst_time s !!! i = burst_time (batch !!! i) ∧
                 rr_waiting_time s !!! i = 0 ∧ rr_completion_time s !!! i = 0 ∧
                 Forall (λ e, who e ≠ i) (rr_trace s))
              _ _ _ _ _ _ Hwhile); [done| |].
    - intros j st Hj Hst i Hi Hb. destruct (Hst i Hi Hb) as (Hr & Hw & Hc & Ht).
      unfold rr_body. destruct (0 <? _) eqn:Hpos; [apply Z.ltb_lt in Hpos|done].
      assert (i ≠ j) as Hne by (intros ->; lia).
      destruct (QUANTUM <? _);
        cbn [rr_remaining_burst_time rr_waiting_time rr_completion_time rr_trace];
        rewrite ?list_lookup_total_insert_ne by done;
        (split_and!; [done..|]); apply Forall_app; (split; [done|]);
        by repeat constructor.
    - intros i Hi Hb. rewrite rr_init_remaining.
      rewrite (list_lookup_total_fmap burst_time) by done.
      cbn [rr_init rr_waiting_time rr_completion_time rr_trace].
      by rewrite !lookup_total_replicate_2. }
  intros i Hi Hb. destruct (Hskip i Hi Hb) as (Hr & Hw & Hc & Ht).
  destruct (turnaround_loop_spec (length batch) batch (rr_waiting_time s)) as [_ Hturn].
  rewrite (list_lookup_total_correct _ _ _ (Hturn i Hi)), Hw.
  unfold int_add. rewrite Z.add_0_l.
  split_and!; [done..| |done]. apply wrap_small.
Qed.

(** X11: on a batch whose processes all have [burst_time >= 1] and whose
    burst times add up to at most [INT_MAX], the turnaround time round
    robin reports for a process is its completion time; the completion
    time lies between the burst time of the process and the total burst
    time of the batch, so the waiting time is never negative and at most
    the total burst time of the other processes. *)
Theorem round_robin_completion_bounds (batch : list Process) :
  Forall (λ p, 1 ≤ burst_time p) batch →
  Zsum (burst_time <$> batch) ≤ INT_MAX →
  ∃ r, round_robin batch = Some r ∧
       ∀ i, (i < length batch)%nat →
            rr_turnaround r !!! i = rr_completion r !!! i ∧
            burst_time (batch !!! i) ≤ rr_completion r !!! i
              ≤ Zsum (burst_time <$> batch) ∧
            0 ≤ rr_waiting r !!! i
              ≤ Zsum (burst_time <$> batch) - burst_time (batch !!! i).
Proof.
  intros Hburst Htotal.
  destruct (round_robin_returns batch) as [r Hr]. exists r. split; [done|].
  unfold round_robin, round_robin_with in Hr.
  destruct (rr_while _ _ _ _) as [s|] eqn:Hwhile; [|done].
  injection Hr as <-. cbn [rr_waiting rr_completion rr_turnaround].
  pose proof (rr_init_inv batch Hburst) as Hinit.
  destruct (rr_while_inv QUANTUM batch eq_refl Htotal _ _ _ Hinit Hwhile)
    as [Hinv Hzero].
  pose proof (rr_while_progress batch _ _ Hburst Htotal Hwhile) as Hdone.
  assert (rr_time s ≤ Zsum (burst_time <$> batch)) as Htime.
  { pose proof (inv_time_remaining _ _ Hinv) as Htr.
    assert (0 ≤ Zsum (rr_remaining_burst_time s)); [|lia].
    apply Zsum_nonneg, Forall_lookup_2. intros i x Hx.
    assert (i < length batch)%nat as Hi.
    { rewrite <- (inv_remaining_length _ _ Hinv). by eapply lookup_lt_Some. }
    specialize (Hzero i Hi).
    rewrite (list_lookup_total_correct _ _ _ Hx) in Hzero. simpl. lia. }
  intros i Hi. destruct (Hdone i Hi) as (_ & Hcomp & _).
  specialize (Hcomp (Hzero i Hi)).
  destruct (inv_finished _ _ Hinv i Hi (Hzero i Hi)) as (x & _ & Hwait).
  pose proof (inv_completion_le _ _ Hinv i Hi) as Hcle.
  destruct (turnaround_loop_spec (length batch) batch (rr_waiting_time s)) as [_ Hturn].
  rewrite (list_lookup_total_correct _ _ _ (Hturn i Hi)).
  rewrite int_add_small by (unfold in_int_range, INT_MAX in *; lia). lia.
Qed.

Lemma round_robin_completion_bounds_witness :
  Forall (λ p, 1 ≤ burst_time p) scenario_batch ∧
  Zsum (burst_time <$> scenario_batch) ≤ INT_MAX ∧
  ∃ r, round_robin scenario_batch = Some r ∧
       ∀ i, (i < length scenario_batch)%nat →
            rr_turnaround r !!! i = rr_completion r !!! i ∧
            burst_time (scenario_batch !!! i) ≤ rr_completion r !!! i
              ≤ Zsum (burst_time <$> scenario_batch) ∧
            0 ≤ rr_waiting r !!! i
              ≤ Zsum (burst_time <$> scenario_batch) - burst_time (scenario_batch !!! i).
Proof.
  assert (Forall (λ p, 1 ≤ burst_time p) scenario_batch) as Hburst.
  { repeat constructor; simpl; lia. }
  assert (Zsum (burst_time <$> scenario_batch) ≤ INT_MAX) as Htotal.
  { vm_compute. discriminate. }
  split; [exact Hburst|]. split; [exact Htotal|].
  exact (round_robin_completion_bounds scenario_batch Hburst Htotal).
Defined.

(** X12: after [n] sweeps of round robin the remaining burst of a process
    with a positive burst time [b] is [max 0 (b - QUANTUM * n)]: every
    sweep gives every unfinished process one slice.  A burst time that is
    not positive is left as it is. *)
Theorem round_robin_remaining_after_sweeps (batch : list Process) (n : nat) :
  rr_remaining_burst_time (rr_sweeps n batch)
  = (λ p, if decide (0 < burst_time p)
          then Z.max 0 (burst_time p - QUANTUM * Z.of_nat n)
          else burst_time p) <$> batch.
Proof.
  apply list_eq_same_length with (length batch);
    [by rewrite length_fmap|apply rr_sweeps_remaining_length|].
  intros i x y Hi Hx Hy.
  apply list_lookup_total_correct in Hx. rewrite list_lookup_fmap in Hy.
  rewrite (list_lookup_lookup_total_lt batch i) in Hy by done.
  injection Hy as <-. subst x. by apply rr_sweeps_remaining.
Qed.

(** X13: the loop of round robin makes exactly [n + 1] sweeps, where [n]
    is the least number of quanta that covers the longest burst: [n]
    sweeps that run a process, and one that finds nothing left to run. *)
Theorem round_robin_sweep_count (batch : list Process) (n : nat) :
  Forall (λ p, burst_time p ≤ QUANTUM * Z.of_nat n) batch →
  (n ≠ O → Exists (λ p, QUANTUM * (Z.of_nat n - 1) < burst_time p) batch) →
  ∀ fuel, (n < fuel)%nat →
    rr_while fuel QUANTUM batch (rr_init batch) = Some (rr_sweeps (S n) batch) ∧
    ∀ k, (k < S n)%nat →
      rr_while (S k) QUANTUM batch (rr_init batch) = None ∨ k = n.
Proof.
  intros Hmax Hmin.
  assert (∀ k, rr_done (rr_sweeps (S k) batch) = true ↔ (n ≤ k)%nat) as Hdone.
  { intros k.
    change (rr_sweeps (S k) batch) with (rr_sweep QUANTUM batch (rr_sweeps k batch)).
    pose proof (rr_sweeps_remaining_length k batch) as Hlen.
    destruct (rr_sweep_spec QUANTUM batch eq_refl _ Hlen) as (_ & -> & _).
    split.
    - intros Hall. destruct (decide (n ≤ k)%nat) as [|Hlt]; [done|].
      pose proof (Hmin ltac:(lia)) as Hex.
      apply Exists_exists in Hex as (p & Hp & Hlong).
      apply list_elem_of_lookup in Hp as [i Hi].
      pose proof (lookup_lt_Some _ _ _ Hi) as Hlt'.
      specialize (Hall i Hlt'). rewrite rr_sweeps_remaining in Hall by done.
      rewrite (list_lookup_total_correct _ _ _ Hi) in Hall.
      unfold QUANTUM in *. case_decide; lia.
    - intros Hle i Hi. rewrite rr_sweeps_remaining by done.
      pose proof (Forall_lookup_1 _ _ i _ Hmax (list_lookup_lookup_total_lt _ _ Hi)) as Hb.
      simpl in Hb. unfold QUANTUM in *. case_decide; lia. }
  assert (∀ fuel k, (k ≤ n)%nat → (n - k < fuel)%nat →
            rr_while fuel QUANTUM batch (rr_sweeps k batch)
            = Some (rr_sweeps (S n) batch)) as Hrun.
  { induction fuel as [|fuel IH]; intros k Hk Hfuel; [lia|].
    cbn [rr_while]. change (rr_sweep QUANTUM batch (rr_sweeps k batch))
      with (rr_sweeps (S k) batch).
    destruct (rr_done (rr_sweeps (S k) batch)) eqn:Hd.
    - apply Hdone in Hd. by replace k with n by lia.
    - assert (¬ (n ≤ k)%nat) by (rewrite <- Hdone; congruence).
      apply IH; lia. }
  assert (∀ fuel k, (k + fuel ≤ n)%nat →
            rr_while fuel QUANTUM batch (rr_sweeps k batch) = None) as Hstop.
  { induction fuel as [|fuel IH]; intros k Hk; [done|].
    cbn [rr_while]. change (rr_sweep QUANTUM batch (rr_sweeps k batch))
      with (rr_sweeps (S k) batch).
    destruct (rr_done (rr_sweeps (S k) batch)) eqn:Hd.
    - apply Hdone in Hd. lia.
    - apply IH. lia. }
  intros fuel Hfuel. split.
  - apply (Hrun fuel O); lia.
  - intros k Hk. destruct (decide (k = n)) as [|Hne]; [by right|left].
    apply (Hstop (S k) O). lia.
Qed.

Lemma round_robin_sweep_count_witness :
  Forall (λ p, burst_time p ≤ QUANTUM * Z.of_nat 2) scenario_batch ∧
  (2%nat ≠ O → Exists (λ p, QUANTUM * (Z.of_nat 2 - 1) < burst_time p) scenario_batch) ∧
  rr_while 3 QUANTUM scenario_batch (rr_init scenario_batch)
  = Some (rr_sweeps 3 scenario_batch).
Proof.
  assert (Forall (λ p, burst_time p ≤ QUANTUM * Z.of_nat 2) scenario_batch) as Hmax.
  { repeat constructor; vm_compute; discriminate. }
  assert (2%nat ≠ O → Exists (λ p, QUANTUM * (Z.of_nat 2 - 1) < burst_time p)
                        scenario_batch) as Hmin.
  { intros _. left. reflexivity. }
  split; [exact Hmax|]. split; [exact Hmin|].
  exact (proj1 (round_robin_sweep_count scenario_batch 2 Hmax Hmin 3 ltac:(lia))).
Defined.

(** Once no process has a remaining burst, a sweep changes nothing but the
    flag [done]. *)
Lemma rr_sweep_idle (processes : list Process) (s : RRState) :
  length (rr_remaining_burst_time s) = length processes →
  (∀ i, (i < length processes)%nat → rr_remaining_burst_time s !!! i ≤ 0) →
  rr_sweep QUANTUM processes s
  = mkRRState (rr_time s) (rr_remaining_burst_time s) (rr_waiting_time s)
      (rr_completion_time s) true (rr_trace s).
Proof.
  intros Hlen Hall.
  destruct (rr_sweep_spec QUANTUM processes eq_refl s Hlen) as (_ & Hdone & Hsame & _).
  apply Hsame, Hdone, Hall.
Qed.

Lemma rr_idle_iter (processes : list Process) (s : RRState) (n : nat) :
  length (rr_remaining_burst_time s) = length processes →
  (∀ i, (i < length processes)%nat → rr_remaining_burst_time s !!! i ≤ 0) →
  rr_waiting_time (Nat.iter n (rr_sweep QUANTUM processes) s) = rr_waiting_time s ∧
  rr_trace (Nat.iter n (rr_sweep QUANTUM processes) s) = rr_trace s ∧
  rr_completion_time (Nat.iter n (rr_sweep QUANTUM processes) s) = rr_completion_time s ∧
  rr_remaining_burst_time (Nat.iter n (rr_sweep QUANTUM processes) s)
  = rr_remaining_burst_time s.
Proof.
  intros Hlen Hall. induction n as [|n (IHw & IHt & IHc & IHr)]; [done|].
  rewrite Nat.iter_succ, rr_sweep_idle; cbn [rr_waiting_time rr_trace
    rr_completion_time rr_remaining_burst_time]; rewrite ?IHr; done.
Qed.

(** The first sweep over a batch whose bursts all fit in one quantum. *)
Lemma rr_first_sweep_short (batch : list Process) :
  Forall (λ p, 1 ≤ burst_time p ≤ QUANTUM) batch →
  let s := rr_sweep QUANTUM batch (rr_init batch) in
  length (rr_remaining_burst_time s) = length batch ∧
  (∀ i, (i < length batch)%nat → rr_remaining_burst_time s !!! i = 0) ∧
  rr_waiting_time s = waiting_loop (length batch) batch ∧
  rr_trace s
  = imap (λ i p, mkSlice i (burst_time p) (wrap (prefix_burst batch (S i))) true) batch.
Proof.
  intros Hshort.
  assert (∀ i, (i < length batch)%nat → 1 ≤ burst_time (batch !!! i) ≤ QUANTUM) as Hb.
  { intros i Hi.
    apply (Forall_lookup_1 _ _ i _ Hshort (list_lookup_lookup_total_lt _ _ Hi)). }
  unfold rr_sweep.
  loop_invariant
    (λ (k : nat) (st : RRState),
       rr_time st = wrap (prefix_burst batch k) ∧
       length (rr_remaining_burst_time st) = length batch ∧
       length (rr_waiting_time st) = length batch ∧
       (∀ i, (i < length batch)%nat →
             rr_remaining_burst_time st !!! i
             = if decide (i < k)%nat then 0 else burst_time (batch !!! i)) ∧
       (∀ i, (i < k)%nat → rr_waiting_time st !!! i = wrap (prefix_burst batch i)) ∧
       rr_trace st
       = imap (λ i p, mkSlice i (burst_time p) (wrap (prefix_burst batch (S i))) true)
           (take k batch)).
  - lia.
  - cbn [rr_time rr_remaining_burst_time rr_waiting_time rr_trace].
    rewrite rr_init_remaining, length_fmap. cbn [rr_init rr_time rr_waiting_time rr_trace].
    rewrite length_replicate. split_and!; [done..| |lia|done].
    intros i Hi. rewrite (list_lookup_total_fmap burst_time) by done.
    by rewrite decide_False by lia.
  - intros k st Hk (Htime & Hrl & Hwl & Hrem & Hwait & Htrace).
    assert (k < length batch)%nat as Hk' by lia. specialize (Hb k Hk').
    unfold rr_body. rewrite (Hrem k Hk'), decide_False by lia.
    destruct (0 <? _) eqn:Hpos; [|apply Z.ltb_ge in Hpos; lia].
    destruct (QUANTUM <? _) eqn:Hq; [apply Z.ltb_lt in Hq; lia|].
    cbn [rr_time rr_remaining_burst_time rr_waiting_time rr_trace].
    assert (int_add (rr_time st) (burst_time (batch !!! k))
            = wrap (prefix_burst batch (S k))) as ->.
    { unfold int_add. by rewrite Htime, wrap_add_l, prefix_burst_S. }
    assert (int_sub (wrap (prefix_burst batch (S k))) (burst_time (batch !!! k))
            = wrap (prefix_burst batch k)) as ->.
    { unfold int_sub. rewrite wrap_sub_l, prefix_burst_S by done. f_equal. lia. }
    rewrite !length_insert.
    split_and!; [done..| | |].
    + intros i Hi. destruct (decide (i = k)) as [->|Hne].
      * rewrite list_lookup_total_insert_eq by lia. by rewrite decide_True by lia.
      * rewrite list_lookup_total_insert_ne, Hrem by done.
        repeat case_decide; try done; lia.
    + intros i Hi. destruct (decide (i = k)) as [->|Hne].
      * by rewrite list_lookup_total_insert_eq by lia.
      * rewrite list_lookup_total_insert_ne by done. apply Hwait. lia.
    + rewrite Htrace, (take_S_r batch k (batch !!! k))
        by by apply list_lookup_lookup_total_lt.
      rewrite imap_app. cbn [imap]. rewrite length_take_le by lia.
      by rewrite Nat.add_0_r.
  - intros st (Htime & Hrl & Hwl & Hrem & Hwait & Htrace). split_and!; [done| | |].
    + intros i Hi. by rewrite Hrem, decide_True by done.
    + destruct (waiting_loop_spec (length batch) batch) as [Hlen Hw]; [done|].
      apply list_eq_same_length with (length batch); [done..|].
      intros i x y Hi Hx Hy. rewrite Hw in Hy by done. injection Hy as <-.
      apply list_lookup_total_correct in Hx. rewrite <- Hx. by apply Hwait.
    + by rewrite Htrace, firstn_all.
Qed.

(** X14: on a batch whose burst times all lie between 1 and [QUANTUM],
    round robin is FCFS: every process runs to completion in one slice, in
    arrival order, and the waiting times, turnaround times and averages are
    those FCFS reports.  The clock of slice [i] is the total burst time of
    the processes up to [i], as an [int]; it is that total itself when the
    burst times of the batch add up to at most [INT_MAX]. *)
Theorem round_robin_short_bursts_is_fcfs (batch : list Process) :
  Forall (λ p, 1 ≤ burst_time p ≤ QUANTUM) batch →
  ∃ r, round_robin batch = Some r ∧
       rr_waiting r = waiting_time (first_come_first_served batch) ∧
       rr_turnaround r = turnaround_time (first_come_first_served batch) ∧
       rr_avg_waiting_time r = avg_waiting_time (first_come_first_served batch) ∧
       rr_avg_turnaround_time r = avg_turnaround_time (first_come_first_served batch) ∧
       rr_slices r
       = imap (λ i p, mkSlice i (burst_time p) (wrap (prefix_burst batch (S i))) true)
           batch ∧
       (Zsum (burst_time <$> batch) ≤ INT_MAX →
        rr_slices r
        = imap (λ i p, mkSlice i (burst_time p) (prefix_burst batch (S i)) true) batch).
Proof.
  intros Hshort.
  destruct (round_robin_returns batch) as [r Hr]. exists r. split; [done|].
  unfold round_robin, round_robin_with in Hr.
  destruct (rr_while _ _ _ _) as [s|] eqn:Hwhile; [|done].
  injection Hr as <-.
  cbn [rr_waiting rr_turnaround rr_avg_waiting_time rr_avg_turnaround_time rr_slices].
  destruct (rr_while_iter _ _ _ _ _ Hwhile) as (n & _ & -> & _ & _).
  rewrite Nat.iter_succ_r.
  destruct (rr_first_sweep_short batch Hshort) as (Hlen & Hzero & Hwait & Htrace).
  destruct (rr_idle_iter batch (rr_sweep QUANTUM batch (rr_init batch)) n Hlen)
    as (-> & -> & _ & _).
  { intros i Hi. rewrite Hzero by done. lia. }
  rewrite Hwait, Htrace. split_and!; [done..|].
  intros Htotal. apply imap_ext. intros i p Hp. simpl. f_equal.
  apply wrap_small, prefix_burst_int; [|done].
  eapply Forall_impl; [exact Hshort|]. simpl. intros q Hq. lia.
Qed.

Lemma round_robin_short_bursts_is_fcfs_witness :
  Forall (λ p, 1 ≤ burst_time p ≤ QUANTUM)
    [mkProcess 0 4 1; mkProcess 1 1 3; mkProcess 2 3 2] ∧
  ∃ r, round_robin [mkProcess 0 4 1; mkProcess 1 1 3; mkProcess 2 3 2] = Some r ∧
       rr_waiting r
       = waiting_time (first_come_first_served
                         [mkProcess 0 4 1; mkProcess 1 1 3; mkProcess 2 3 2]).
Proof.
  assert (Forall (λ p, 1 ≤ burst_time p ≤ QUANTUM)
            [mkProcess 0 4 1; mkProcess 1 1 3; mkProcess 2 3 2]) as Hshort.
  { repeat constructor; vm_compute; discriminate. }
  split; [exact Hshort|].
  destruct (round_robin_short_bursts_is_fcfs _ Hshort) as (r & Hr & Hw & _).
  exists r. split; [exact Hr|exact Hw].
Defined.

(** ** Multilevel queues *)

Lemma assigned_sublist (rand : nat → nat) (k : nat) (batch : list Process) :
  assigned rand k batch `sublist_of` batch.
Proof.
  unfold assigned.
  assert (snd <$> imap pair batch = batch) as Hsnd.
  { rewrite fmap_imap. rewrite (imap_ext _ (const id)) by done.
    by rewrite imap_const, list_fmap_id. }
  rewrite <- Hsnd at 2. apply fmap_sublist, sublist_filter.
Qed.

(** X15: each of the three queues of multilevel scheduling holds its
    processes in arrival order (it is a subsequence of the batch), and
    [total_burst_time] returns a finite double for each queue and for the
    batch.  For a batch of at most [2^22] processes whose burst times are
    [int]s these sums are exact, and the total burst times of the three
    queues add up to the one of the batch. *)
Theorem multilevel_queues_keep_order_and_burst (rand : nat → nat) (batch : list Process) :
  (∀ k, (k < 3)%nat → distribute rand batch !!! k `sublist_of` batch) ∧
  ∃ t0 t1 t2 t : Q,
    total_burst_time (distribute rand batch !!! 0%nat) = Finite t0 ∧
    total_burst_time (distribute rand batch !!! 1%nat) = Finite t1 ∧
    total_burst_time (distribute rand batch !!! 2%nat) = Finite t2 ∧
    total_burst_time batch = Finite t ∧
    (Forall (λ p, in_int_range (burst_time p)) batch →
     Z.of_nat (length batch) ≤ 2 ^ 22 →
     t = inject_Z (Zsum (burst_time <$> batch)) ∧ (t0 + t1 + t2 == t)%Q).
Proof.
  destruct (distribute_state rand batch) as (_ & _ & Hqueues).
  fold (distribute rand batch) in Hqueues. split.
  - intros k Hk. rewrite Hqueues by done. apply assigned_sublist.
  - destruct (total_burst_time_finite (distribute rand batch !!! 0%nat)) as (t0 & H0).
    destruct (total_burst_time_finite (distribute rand batch !!! 1%nat)) as (t1 & H1).
    destruct (total_burst_time_finite (distribute rand batch !!! 2%nat)) as (t2 & H2).
    destruct (total_burst_time_finite batch) as (t & Ht).
    exists t0, t1, t2, t. split_and!; [done..|]. intros Hint Hcap.
    pose proof (distribute_queues rand batch) as Hperm.
    assert (length (distribute rand batch !!! 0%nat)
            + length (distribute rand batch !!! 1%nat)
            + length (distribute rand batch !!! 2%nat) = length batch)%nat as Hlen.
    { rewrite <- (Permutation_length Hperm), !length_app. lia. }
    rewrite (total_burst_time_exact _ Hint Hcap) in Ht. injection Ht as <-.
    rewrite <- Hperm in Hint. apply Forall_app in Hint as [Hint0 Hint].
    apply Forall_app in Hint as [Hint1 Hint2].
    rewrite (total_burst_time_exact _ Hint0) in H0 by lia. injection H0 as <-.
    rewrite (total_burst_time_exact _ Hint1) in H1 by lia. injection H1 as <-.
    rewrite (total_burst_time_exact _ Hint2) in H2 by lia. injection H2 as <-.
    split; [done|]. rewrite <- !inject_Z_plus.
    rewrite <- (Zsum_perm _ _ (fmap_Permutation burst_time _ _ Hperm)).
    by rewrite !fmap_app, !Zsum_app, Z.add_assoc.
Qed.

(** ** The menu loop *)

Lemma menu_pass_again (e : Extraction) : (menu_pass e).2 = invalid_choice (value e).
Proof.
  unfold menu_pass. destruct (failed e), (invalid_choice (value e)); done.
Qed.

Lemma dispatch_valid (choice : Z) :
  invalid_choice choice = false → dispatch choice ≠ InvalidOption.
Proof.
  unfold invalid_choice. intros Hvalid.
  apply orb_false_elim in Hvalid as [Hvalid Hhigh].
  apply orb_false_elim in Hvalid as [Hvalid Hlow].
  apply orb_false_elim in Hvalid as [H6 H7].
  apply Z.eqb_neq in H6, H7. apply Z.ltb_ge in Hlow, Hhigh.
  assert (choice = 0 ∨ choice = 1 ∨ choice = 2 ∨ choice = 3 ∨ choice = 4 ∨
          choice = 5 ∨ choice = 8 ∨ choice = 9) as Hcases by lia.
  destruct Hcases as [->|[->|[->|[->|[->|[->|[->| ->]]]]]]]; done.
Qed.

(** X16: in the menu of [main] the test [std::cin.fail()] of the [while]
    condition never holds, because the body has cleared the stream by
    then: the menu is shown again exactly when the value left in [choice]
    is 6, 7, negative or above 9.  So a failed read is reported as invalid
    but the value it leaves is acted on all the same, and a failed read
    that leaves 0 ends the program.  The [default] branch of the [switch]
    is never taken. *)
Theorem menu_failed_read_is_acted_on (e : Extraction) :
  (menu_pass e).1 = failed e || invalid_choice (value e) ∧
  (menu_pass e).2 = invalid_choice (value e) ∧
  ((menu_pass e).2 = false → dispatch (value e) ≠ InvalidOption) ∧
  ∀ rands input v,
    main rands (mkExtraction true v :: input)
    = main rands (mkExtraction false v :: input) ∧
    main rands (mkExtraction true 0 :: input)
    = [(Exit, generateProcesses (rands O) (Z.to_nat DEFAULT_PROCESS_COUNT))].
Proof.
  split_and!.
  - done.
  - apply menu_pass_again.
  - rewrite menu_pass_again. apply dispatch_valid.
  - intros rands input v. split; [|done].
    unfold main. cbn [main_loop]. by rewrite !menu_pass_again.
Qed.

Lemma main_loop_generated (rands : nat → nat → nat) (input : list Extraction)
    (generation : nat) :
  Forall (λ ap, ap.1 ≠ InvalidOption ∧
                ∃ g, ap.2 = generateProcesses (rands g) (Z.to_nat DEFAULT_PROCESS_COUNT))
    (main_loop rands generation
       (generateProcesses (rands generation) (Z.to_nat DEFAULT_PROCESS_COUNT)) input).
Proof.
  revert generation. induction input as [|e input IH]; intros generation; [constructor|].
  cbn [main_loop]. rewrite menu_pass_again.
  destruct (invalid_choice (value e)) eqn:Hvalid; [apply IH|].
  pose proof (dispatch_valid _ Hvalid) as Hdispatch.
  destruct (dispatch (value e)) eqn:Haction; try done;
    repeat constructor; try done; try (by eexists); try apply IH.
Qed.

(** X17: whatever is typed, every branch [main] takes runs on a batch that
    [generateProcesses] returned for [DEFAULT_PROCESS_COUNT]: ten
    processes with the pids 0 to 9, burst times from 1 to 20 and priorities
    from 1 to 3. *)
Theorem main_runs_on_generated_batches (rands : nat → nat → nat)
    (input : list Extraction) :
  Forall (λ ap, ap.1 ≠ InvalidOption ∧
                length ap.2 = 10%nat ∧
                pid <$> ap.2 = [0; 1; 2; 3; 4; 5; 6; 7; 8; 9] ∧
                Forall (λ p, 1 ≤ burst_time p ≤ 20 ∧ 1 ≤ priority p ≤ 3) ap.2)
    (main rands input).
Proof.
  eapply Forall_impl; [apply main_loop_generated|].
  intros [action processes] [Haction [g ->]]. cbn [fst snd] in *.
  destruct (generateProcesses_spec (rands g) (Z.to_nat DEFAULT_PROCESS_COUNT))
    as (Hlen & Hpid & Hrange).
  split_and!; done.
Qed.

Lemma priority_average (processes : list Process) :
  processes ≠ [] →
  ∃ w t : Q, avg_waiting_time (priority_scheduling processes) = Finite w ∧
             avg_turnaround_time (priority_scheduling processes) = Finite t.
Proof.
  intros Hne. apply non_preemptive_metrics_finite. by destruct processes.
Qed.

(** C5, amended: the program never calls FCFS, SJF, Priority or round
    robin on an empty batch.  The multilevel coordinator returns finite
    averages on every batch: it reports 0 for an empty queue instead of
    calling the strategy of that queue, and on the empty batch its three
    averages and the overall average are 0.  Every batch [main] passes to
    a strategy is non-empty, and on a non-empty batch the averages the four
    strategies return are finite. *)
Theorem strategies_run_on_nonempty_batches (rands : nat → nat → nat)
    (input : list Extraction) (rand : nat → nat) (batch : list Process) :
  (∃ r a0 a1 a2 q,
     multilevel_queue_scheduling rand batch = Some r ∧
     avg_waiting_time_0 r = Finite a0 ∧ avg_waiting_time_1 r = Finite a1 ∧
     avg_waiting_time_2 r = Finite a2 ∧ overall_avg_waiting_time r = Finite q ∧
     (queues r !!! 0%nat = [] → a0 = 0%Q) ∧
     (queues r !!! 1%nat = [] → a1 = 0%Q) ∧
     (queues r !!! 2%nat = [] → a2 = 0%Q)) ∧
  multilevel_queue_scheduling rand []
  = Some (mkMultilevelResult [[]; []; []] (Finite 0) (Finite 0) (Finite 0) (Finite 0)) ∧
  Forall (λ ap, ap.2 ≠ []) (main rands input) ∧
  (batch ≠ [] →
   (∃ w, avg_waiting_time (first_come_first_served batch) = Finite w) ∧
   (∃ w, avg_waiting_time (shortest_job_first batch) = Finite w) ∧
   (∃ w, avg_waiting_time (priority_scheduling batch) = Finite w) ∧
   (∃ r w, round_robin batch = Some r ∧ rr_avg_waiting_time r = Finite w)).
Proof.
  split_and!.
  - unfold multilevel_queue_scheduling.
    set (qs := distribute rand batch).
    destruct (round_robin_returns (qs !!! 0%nat)) as [rr Hrr].
    destruct (total_burst_time_finite (qs !!! 0%nat)) as (t0 & Ht0).
    destruct (total_burst_time_finite (qs !!! 1%nat)) as (t1 & Ht1).
    rewrite Hrr, Ht0, Ht1.
    assert (∃ a0 : Q,
              (if negb (is_empty (qs !!! 0%nat))
               then rr_avg_waiting_time <$> Some rr else Some (Finite 0))
              = Some (Finite a0) ∧
              (qs !!! 0%nat = [] → a0 = 0%Q)) as (a0 & -> & Hz0).
    { destruct (qs !!! 0%nat) as [|p q0] eqn:Hq0; [by exists 0%Q|].
      assert (p :: q0 ≠ []) as Hne by done.
      destruct (round_robin_average _ _ Hne Hrr) as (a & Heq & _).
      exists a. simpl. by rewrite Heq. }
    assert (∃ a1 : Q,
              (if negb (is_empty (qs !!! 1%nat))
               then dadd (avg_waiting_time (first_come_first_served (qs !!! 1%nat)))
                         (Finite t0)
               else Finite 0) = Finite a1 ∧
              (qs !!! 1%nat = [] → a1 = 0%Q)) as (a1 & -> & Hz1).
    { destruct (qs !!! 1%nat) as [|p q1] eqn:Hq1; [by exists 0%Q|].
      assert (p :: q1 ≠ []) as Hne by done.
      destruct (fcfs_average (p :: q1) Hne) as (a & -> & _).
      simpl. by eexists. }
    assert (∃ a2 : Q,
              (if negb (is_empty (qs !!! 2%nat))
               then dadd (avg_waiting_time (shortest_job_first (qs !!! 2%nat)))
                         (dadd (Finite t0) (Finite t1))
               else Finite 0) = Finite a2 ∧
              (qs !!! 2%nat = [] → a2 = 0%Q)) as (a2 & -> & Hz2).
    { destruct (qs !!! 2%nat) as [|p q2] eqn:Hq2; [by exists 0%Q|].
      assert (p :: q2 ≠ []) as Hne by done.
      destruct (sjf_average (p :: q2) Hne) as (a & -> & _).
      simpl. by eexists. }
    eexists _, a0, a1, a2, _. split; [done|]. by cbn [queues avg_waiting_time_0
      avg_waiting_time_1 avg_waiting_time_2 overall_avg_waiting_time].
  - by vm_compute.
  - eapply Forall_impl; [apply main_loop_generated|].
    intros [action processes] [_ [g ->]]. cbn [snd].
    by destruct (default_batch_well_formed (rands g)) as (Hne & _).
  - intros Hne. split_and!.
    + destruct (fcfs_average _ Hne) as (w & Hw & _). by exists w.
    + destruct (sjf_average _ Hne) as (w & Hw & _). by exists w.
    + destruct (priority_average _ Hne) as (w & _ & Hw & _). by exists w.
    + destruct (round_robin_returns batch) as [r Hr].
      destruct (round_robin_average _ _ Hne Hr) as (w & Hw & _). by exists r, w.
Qed.

(** X18: the division by the number of processes in FCFS, SJF, Priority
    and round robin is never a division by zero when [main] calls them:
    every batch [main] passes is non-empty, and the averages computed on
    it are finite numbers. *)
Theorem main_never_divides_by_zero (rands : nat → nat → nat) (input : list Extraction) :
  Forall (λ ap,
            ap.2 ≠ [] ∧
            (∃ w, avg_waiting_time (first_come_first_served ap.2) = Finite w) ∧
            (∃ w, avg_waiting_time (shortest_job_first ap.2) = Finite w) ∧
            (∃ w, avg_waiting_time (priority_scheduling ap.2) = Finite w) ∧
            (∃ r w, round_robin ap.2 = Some r ∧ rr_avg_waiting_time r = Finite w))
    (main rands input).
Proof.
  eapply Forall_impl; [apply main_loop_generated|].
  intros [action processes] [_ [g ->]]. cbn [fst snd].
  destruct (default_batch_well_formed (rands g)) as (Hne & _).
  split_and!; [done| | | |].
  - destruct (fcfs_average _ Hne) as (w & Hw & _). by exists w.
  - destruct (sjf_average _ Hne) as (w & Hw & _). by exists w.
  - destruct (priority_average _ Hne) as (w & _ & Hw & _). by exists w.
  - destruct (round_robin_returns
                (generateProcesses (rands g) (Z.to_nat DEFAULT_PROCESS_COUNT)))
      as [r Hr].
    destruct (round_robin_average _ _ Hne Hr) as (w & Hw & _). by exists r, w.
Qed.

(** X19: when [main] calls SJF and Priority, [std::sort] never reorders
    processes with equal keys: a batch of [DEFAULT_PROCESS_COUNT]
    processes is below the size from which the sort is unstable. *)
Theorem main_sorts_are_stable (rands : nat → nat → nat) (input : list Extraction) :
  Forall (λ ap,
            stable_ascending burst_time ap.2 (order (shortest_job_first ap.2)) ∧
            stable_ascending priority ap.2 (order (priority_scheduling ap.2)))
    (main rands input).
Proof.
  eapply Forall_impl; [apply main_loop_generated|].
  intros [action processes] [_ [g ->]]. cbn [fst snd].
  destruct (default_batch_well_formed (rands g)) as (_ & Hsmall & _).
  split; split.
  - apply sjf_order_ascending.
  - intros k. apply (std_sort_small_stable burst_time); [|done].
    apply compareByBurstTime_key.
  - apply priority_order_ascending.
  - intros k. by apply (std_sort_small_stable priority).
Qed.

(** X20: on a batch whose burst times are at least 1 and add up to at most
    [INT_MAX], every [int] that FCFS, SJF, Priority and round robin store
    in their tables lies between 0 and the total burst time of the batch,
    which makes it a value of a 32-bit [int]: no addition or subtraction
    wraps around. *)
Theorem strategies_stay_in_int_range (batch : list Process) :
  Forall (λ p, 1 ≤ burst_time p) batch →
  Zsum (burst_time <$> batch) ≤ INT_MAX →
  (∀ x, within_total batch x → in_int_range x) ∧
  (Forall (within_total batch) (waiting_time (first_come_first_served batch)) ∧
   Forall (within_total batch) (turnaround_time (first_come_first_served batch))) ∧
  (Forall (within_total batch) (waiting_time (shortest_job_first batch)) ∧
   Forall (within_total batch) (turnaround_time (shortest_job_first batch))) ∧
  (Forall (within_total batch) (waiting_time (priority_scheduling batch)) ∧
   Forall (within_total batch) (turnaround_time (priority_scheduling batch))) ∧
  (∀ n, within_total batch (rr_time (rr_sweeps n batch)) ∧
        Forall (within_total batch) (rr_remaining_burst_time (rr_sweeps n batch)) ∧
        Forall (within_total batch) (rr_waiting_time (rr_sweeps n batch)) ∧
        Forall (within_total batch) (rr_completion_time (rr_sweeps n batch))) ∧
  ∃ r, round_robin batch = Some r ∧ Forall (within_total batch) (rr_turnaround r).
Proof.
  intros Hburst Htotal.
  assert (Forall (λ p, 0 ≤ burst_time p) batch) as Hnonneg.
  { eapply Forall_impl; [exact Hburst|]. simpl. intros p Hp. lia. }
  split; [|split; [|split; [|split; [|split]]]].
  - unfold within_total, in_int_range, INT_MAX in *. intros x Hx. lia.
  - by apply non_preemptive_metrics_bounds.
  - destruct (ordered_no_overflow batch (order (shortest_job_first batch)))
      as (Hlen & Hb' & Hsum & Htotal'); [apply sjf_order_ascending|done..|].
    unfold within_total. rewrite <- Hsum.
    by apply (non_preemptive_metrics_bounds (length batch)
                (order (shortest_job_first batch))).
  - destruct (ordered_no_overflow batch (order (priority_scheduling batch)))
      as (Hlen & Hb' & Hsum & Htotal'); [apply priority_order_ascending|done..|].
    unfold within_total. rewrite <- Hsum.
    by apply (non_preemptive_metrics_bounds (length batch)
                (order (priority_scheduling batch))).
  - intros n. by apply round_robin_bounds.
  - destruct (round_robin_returns batch) as [r Hr]. exists r. split; [done|].
    unfold round_robin, round_robin_with in Hr.
    destruct (rr_while _ _ _ _) as [s|] eqn:Hwhile; [|done].
    injection Hr as <-. cbn [rr_turnaround].
    destruct (rr_while_inv QUANTUM batch eq_refl Htotal _ _ _
                (rr_init_inv batch Hburst) Hwhile) as [Hinv Hzero].
    destruct (turnaround_loop_spec (length batch) batch (rr_waiting_time s))
      as [Htlen Hturn].
    apply Forall_lookup_2. intros i x Hx.
    assert (i < length batch)%nat as Hi.
    { apply lookup_lt_Some in Hx. by rewrite Htlen in Hx. }
    rewrite (Hturn i Hi) in Hx. injection Hx as <-.
    destruct (inv_finished _ _ Hinv i Hi (Hzero i Hi)) as (e & _ & Hwait).
    pose proof (inv_completion_le _ _ Hinv i Hi) as Hcle.
    pose proof (inv_time_remaining _ _ Hinv) as Htr.
    assert (0 ≤ Zsum (rr_remaining_burst_time s)) as Hrem.
    { apply Zsum_nonneg, Forall_lookup_2. intros j y Hy.
      assert (j < length batch)%nat as Hj.
      { rewrite <- (inv_remaining_length _ _ Hinv). by eapply lookup_lt_Some. }
      pose proof (Hzero j Hj) as Hzj.
      rewrite (list_lookup_total_correct _ _ _ Hy) in Hzj. simpl. lia. }
    rewrite int_add_small by (unfold in_int_range, INT_MAX in *; lia).
    unfold within_total. lia.
Qed.

Lemma strategies_stay_in_int_range_witness :
  Forall (λ p, 1 ≤ burst_time p) scenario_batch ∧
  Zsum (burst_time <$> scenario_batch) ≤ INT_MAX ∧
  Forall (within_total scenario_batch)
    (waiting_time (first_come_first_served scenario_batch)) ∧
  Forall (within_total scenario_batch)
    (turnaround_time (first_come_first_served scenario_batch)).
Proof.
  assert (Forall (λ p, 1 ≤ burst_time p) scenario_batch) as Hburst.
  { repeat constructor; simpl; lia. }
  assert (Zsum (burst_time <$> scenario_batch) ≤ INT_MAX) as Htotal.
  { vm_compute. discriminate. }
  split; [exact Hburst|]. split; [exact Htotal|].
  exact (proj1 (proj2 (strategies_stay_in_int_range scenario_batch Hburst Htotal))).
Defined.

(** ** Round robin against SJF *)

Lemma finished_bursts_insert_finish (processes : list Process) (remaining : list Z)
    (i : nat) :
  (i < length processes)%nat → (i < length remaining)%nat → remaining !!! i ≠ 0 →
  finished_bursts processes (<[i := 0]> remaining)
  ≡ₚ burst_time (processes !!! i) :: finished_bursts processes remaining.
Proof.
  revert remaining i. induction processes as [|p processes IH];
    intros [|r remaining] [|i] Hi Hi' Hr; cbn [length] in *; try lia.
  - cbn in Hr |- *. by destruct (r =? 0) eqn:Hz; [apply Z.eqb_eq in Hz|].
  - change (<[S i := 0]> (r :: remaining)) with (r :: <[i := 0]> remaining).
    cbn [finished_bursts]. change ((p :: processes) !!! S i) with (processes !!! i).
    change ((r :: remaining) !!! S i) with (remaining !!! i) in Hr.
    destruct (r =? 0).
    + rewrite IH by (done || lia). apply perm_swap.
    + apply IH; (done || lia).
Qed.

Lemma finished_bursts_insert_unfinished (processes : list Process)
    (remaining : list Z) (i : nat) (y : Z) :
  remaining !!! i ≠ 0 → y ≠ 0 → (i < length remaining)%nat →
  finished_bursts processes (<[i := y]> remaining) = finished_bursts processes remaining.
Proof.
  revert remaining i. induction processes as [|p processes IH];
    intros [|r remaining] [|i] Hr Hy Hi; cbn [length] in *; try done; try lia.
  - cbn in Hr |- *. apply Z.eqb_neq in Hr, Hy. by rewrite Hr, Hy.
  - change (<[S i := y]> (r :: remaining)) with (r :: <[i := y]> remaining).
    cbn [finished_bursts].
    change ((r :: remaining) !!! S i) with (remaining !!! i) in Hr.
    rewrite IH by (done || lia). done.
Qed.

Lemma finished_bursts_none (processes : list Process) (remaining : list Z) :
  Forall (λ r, r ≠ 0) remaining → finished_bursts processes remaining = [].
Proof.
  intros Hall. revert processes.
  induction Hall as [|r remaining Hr _ IH]; intros [|p processes]; try done.
  cbn [finished_bursts]. apply Z.eqb_neq in Hr. by rewrite Hr.
Qed.

Lemma finished_bursts_all (processes : list Process) (remaining : list Z) :
  length remaining = length processes → Forall (λ r, r = 0) remaining →
  finished_bursts processes remaining = burst_time <$> processes.
Proof.
  intros Hlen Hall. revert processes Hlen.
  induction Hall as [|r remaining -> _ IH]; intros [|p processes] Hlen; try done.
  cbn [finished_bursts]. rewrite fmap_cons. cbn. f_equal. apply IH.
  by injection Hlen.
Qed.

Lemma finished_bursts_sum_le (processes : list Process) (remaining : list Z) :
  length remaining = length processes →
  (∀ i, (i < length processes)%nat →
        0 ≤ remaining !!! i ≤ burst_time (processes !!! i)) →
  Zsum (finished_bursts processes remaining)
  ≤ Zsum (burst_time <$> processes) - Zsum remaining.
Proof.
  revert remaining. induction processes as [|p processes IH];
    intros [|r remaining] Hlen Hrange; try done.
  injection Hlen as Hlen.
  pose proof (Hrange O ltac:(cbn [length]; lia)) as H0. cbn in H0.
  assert (Zsum (finished_bursts processes remaining)
          ≤ Zsum (burst_time <$> processes) - Zsum remaining) as Hrest.
  { apply IH; [done|]. intros i Hi. apply (Hrange (S i)). cbn [length]. lia. }
  cbn [finished_bursts]. rewrite fmap_cons, !Zsum_cons.
  destruct (r =? 0) eqn:Hr; [apply Z.eqb_eq in Hr|]; rewrite ?Zsum_cons; lia.
Qed.

(** The total waiting time of round robin is at least the one of FCFS on
    some order of the batch: the order in which the processes finish. *)
Lemma rr_waits_like_some_order (batch : list Process) (fuel : nat) (s : RRState) :
  Forall (λ p, 1 ≤ burst_time p) batch →
  Zsum (burst_time <$> batch) ≤ INT_MAX →
  rr_while fuel QUANTUM batch (rr_init batch) = Some s →
  ∃ l, l ≡ₚ burst_time <$> batch ∧ total_wait l ≤ Zsum (rr_waiting_time s).
Proof.
  intros Hburst Htotal Hwhile.
  pose proof (rr_init_inv batch Hburst) as Hinit.
  destruct (rr_while_inv QUANTUM batch eq_refl Htotal _ _ _ Hinit Hwhile) as [Hinv Hzero].
  assert (rr_inv batch s ∧
          (∀ i, (i < length batch)%nat →
                rr_remaining_burst_time s !!! i ≠ 0 → rr_waiting_time s !!! i = 0) ∧
          ∃ l, l ≡ₚ finished_bursts batch (rr_remaining_burst_time s) ∧
               total_wait l ≤ Zsum (rr_waiting_time s)) as (_ & _ & l & Hperm & Hle).
  { refine (rr_while_preserves QUANTUM batch
              (λ s, rr_inv batch s ∧
                 (∀ i, (i < length batch)%nat →
                    rr_remaining_burst_time s !!! i ≠ 0 → rr_waiting_time s !!! i = 0) ∧
                 ∃ l, l ≡ₚ finished_bursts batch (rr_remaining_burst_time s) ∧
                      total_wait l ≤ Zsum (rr_waiting_time s))
              _ _ _ _ _ _ Hwhile).
    - intros st b (Hst & Hrest). split; [by destruct Hst|done].
    - intros j st Hj (Hst & Hwait & l & Hperm & Hle).
      pose proof (rr_body_inv QUANTUM batch eq_refl Htotal j st Hj Hst) as Hst'.
      split; [done|]. revert Hst'.
      pose proof (inv_remaining_length _ _ Hst) as Hrl.
      pose proof (inv_waiting_length _ _ Hst) as Hwl.
      pose proof (rr_slice_no_overflow batch Htotal j st) as Hslice.
      specialize (Hslice) with (1 := Hj) (2 := Hst).
      unfold rr_body. destruct (0 <? _) eqn:Hpos; [apply Z.ltb_lt in Hpos|by eauto].
      destruct (QUANTUM <? _) eqn:Hq; [apply Z.ltb_lt in Hq|apply Z.ltb_ge in Hq].
      all: match goal with
           | |- context [int_add _ ?q] =>
               destruct (Hslice q) as [Hadd Hsub];
               [unfold QUANTUM in *; lia|rewrite ?Hadd, ?Hsub]
           end.
      all: intros Hst'; cbn [rr_remaining_burst_time rr_waiting_time rr_time] in *.
      + split.
        * intros i Hi. destruct (decide (i = j)) as [->|Hne].
          -- intros _. apply Hwait; [done|lia].
          -- rewrite list_lookup_total_insert_ne by done. by apply Hwait.
        * exists l. split; [|done].
          rewrite finished_bursts_insert_unfinished; [done|lia|lia|lia].
      + split.
        * intros i Hi. destruct (decide (i = j)) as [->|Hne].
          -- by rewrite list_lookup_total_insert_eq by lia.
          -- rewrite !list_lookup_total_insert_ne by done. by apply Hwait.
        * exists (l ++ [burst_time (batch !!! j)]).
          assert (finished_bursts batch (<[j := 0]> (rr_remaining_burst_time st))
                  ≡ₚ burst_time (batch !!! j)
                     :: finished_bursts batch (rr_remaining_burst_time st)) as Hfin.
          { apply finished_bursts_insert_finish; lia. }
          split.
          { rewrite Hfin, <- Hperm. by rewrite Permutation_app_comm. }
          rewrite total_wait_snoc, Zsum_insert_total by lia.
          rewrite (Hwait j Hj) by lia.
          pose proof (finished_bursts_sum_le batch _
                        (inv_remaining_length _ _ Hst')
                        (inv_remaining_range _ _ Hst')) as Hsum.
          pose proof (inv_time_remaining _ _ Hst') as Htime.
          cbn [rr_remaining_burst_time rr_time] in Hsum, Htime.
          rewrite (Zsum_perm _ _ Hfin), Zsum_cons, <- (Zsum_perm _ _ Hperm) in Hsum.
          lia.
    - split; [done|]. split.
      + intros i Hi _. cbn [rr_init rr_waiting_time].
        by rewrite lookup_total_replicate_2.
      + exists []. rewrite rr_init_remaining, finished_bursts_none.
        * split; [done|]. cbn [rr_init rr_waiting_time]. by rewrite Zsum_replicate_0.
        * apply Forall_fmap. eapply Forall_impl; [exact Hburst|].
          simpl. intros p Hp. lia. }
  exists l. split; [|done]. rewrite Hperm. rewrite finished_bursts_all; [done| |].
  - by apply inv_remaining_length.
  - apply Forall_lookup_2. intros i x Hx.
    assert (i < length batch)%nat as Hi.
    { rewrite <- (inv_remaining_length _ _ Hinv). by eapply lookup_lt_Some. }
    specialize (Hzero i Hi). by rewrite (list_lookup_total_correct _ _ _ Hx) in Hzero.
Qed.

(** X21: on a non-empty batch of at most [2^22] processes, all with
    [burst_time >= 1], whose burst times add up to at most [INT_MAX], the
    average waiting time of round robin is never below the one of SJF. *)
Theorem sjf_average_wait_at_most_round_robin (batch : list Process) :
  batch ≠ [] → Forall (λ p, 1 ≤ burst_time p) batch →
  Zsum (burst_time <$> batch) ≤ INT_MAX →
  Z.of_nat (length batch) ≤ 2 ^ 22 →
  ∃ (r : RoundRobinResult) (sjf rr : Q),
    round_robin batch = Some r ∧
    avg_waiting_time (shortest_job_first batch) = Finite sjf ∧
    rr_avg_waiting_time r = Finite rr ∧
    (sjf <= rr)%Q.
Proof.
  intros Hne Hburst Htotal Hcap.
  assert (length batch ≠ O) as HN by by destruct batch.
  assert (Forall (λ p, 0 ≤ burst_time p) batch) as Hnonneg.
  { eapply Forall_impl; [exact Hburst|]. simpl. intros p Hp. lia. }
  destruct (round_robin_returns batch) as [r Hr].
  destruct (round_robin_average batch r Hne Hr) as (rr & Hrr & Erf).
  specialize (Erf Hcap).
  destruct (ordered_no_overflow batch (order (shortest_job_first batch)))
    as (Hlen & Hb' & _ & Htotal'); [apply sjf_order_ascending|done..|].
  pose proof (avg_waiting_time_total (length batch) (order (shortest_job_first batch))
                Hlen HN Hcap Hb' Htotal') as Hsjf.
  eexists r, _, rr. split_and!; [done|exact Hsjf|done|].
  unfold round_robin, round_robin_with in Hr.
  destruct (rr_while _ _ _ _) as [s|] eqn:Hwhile; [|done].
  injection Hr as <-. cbn [rr_waiting] in Erf.
  destruct (rr_waits_like_some_order batch _ s Hburst Htotal Hwhile) as (l & Hperm & Hle).
  destruct (sjf_order_ascending batch) as [Hsorted Hsperm].
  rewrite Erf. apply round_double_mono. unfold mean.
  rewrite (rr_while_waiting_length _ _ _ _ _ Hwhile).
  cbn [rr_init rr_waiting_time]. rewrite length_replicate.
  apply Qdiv_le_compat. etrans; [|exact Hle].
  apply total_wait_sorted_le.
  - eapply StronglySorted_fmap; [|exact Hsorted]. done.
  - rewrite Hperm. by apply fmap_Permutation.
Qed.

Lemma sjf_average_wait_at_most_round_robin_witness :
  scenario_batch ≠ [] ∧ Forall (λ p, 1 ≤ burst_time p) scenario_batch ∧
  Zsum (burst_time <$> scenario_batch) ≤ INT_MAX ∧
  Z.of_nat (length scenario_batch) ≤ 2 ^ 22 ∧
  ∃ (r : RoundRobinResult) (sjf rr : Q),
    round_robin scenario_batch = Some r ∧
    avg_waiting_time (shortest_job_first scenario_batch) = Finite sjf ∧
    rr_avg_waiting_time r = Finite rr ∧
    (sjf <= rr)%Q.
Proof.
  assert (scenario_batch ≠ []) as Hne by done.
  assert (Forall (λ p, 1 ≤ burst_time p) scenario_batch) as Hburst.
  { repeat constructor; simpl; lia. }
  assert (Zsum (burst_time <$> scenario_batch) ≤ INT_MAX) as Htotal.
  { vm_compute. discriminate. }
  assert (Z.of_nat (length scenario_batch) ≤ 2 ^ 22) as Hcap.
  { vm_compute. discriminate. }
  split; [exact Hne|]. split; [exact Hburst|]. split; [exact Htotal|].
  split; [exact Hcap|].
  exact (sjf_average_wait_at_most_round_robin scenario_batch Hne Hburst Htotal Hcap).
Defined.

(** ** The batch [main] works on *)

(** X22: [main] replaces its batch only on choice 9: a branch runs on the
    batch of the latest call of [generateProcesses], so the strategies
    leave the batch they are given as it is; and choice 0 is the last
    thing [main] acts on. *)
Theorem main_batch_changes_only_on_generate (rands : nat → nat → nat)
    (input : list Extraction) (k : nat) (action : Action) (processes : list Process) :
  main rands input !! k = Some (action, processes) →
  processes
  = generateProcesses (rands (generations (take (S k) (main rands input))))
      (Z.to_nat DEFAULT_PROCESS_COUNT) ∧
  (action = Exit → length (main rands input) = S k).
Proof.
  assert (∀ generation,
            let log := main_loop rands generation
                         (generateProcesses (rands generation)
                            (Z.to_nat DEFAULT_PROCESS_COUNT)) input in
            log !! k = Some (action, processes) →
            processes
            = generateProcesses (rands (generation + generations (take (S k) log))%nat)
                (Z.to_nat DEFAULT_PROCESS_COUNT) ∧
            (action = Exit → length log = S k)) as Hlog; [|apply (Hlog O)].
  revert k. induction input as [|e input IH]; intros k generation; [done|].
  cbn [main_loop]. destruct (menu_pass e).2; [apply IH|].
  destruct (dispatch (value e)) eqn:Hdispatch; cbn zeta;
    destruct k as [|k]; cbn [lookup list_lookup];
    try (intros [= <- <-]; unfold generations; cbn [take filter length];
         rewrite filter_cons; cbn;
         rewrite ?Nat.add_0_r, ?Nat.add_1_r; by split);
    try done.
  all: intros Hk; try (specialize (IH _ _ Hk) as [Hps Hexit]);
    unfold generations in *; rewrite firstn_cons, filter_cons; cbn [fst is_generate];
    cbn [length]; try (rewrite decide_False by done);
    try (rewrite decide_True by done); cbn [length];
    rewrite <- ?plus_n_Sm; (split; [done|]); intros Ha; by rewrite (Hexit Ha).
Qed.

Lemma main_batch_changes_only_on_generate_witness :
  main (λ g i, (g + i)%nat)
    [mkExtraction false 2; mkExtraction false 9; mkExtraction false 1;
     mkExtraction false 0; mkExtraction false 4] !! 2%nat
  = Some (RunFCFS, generateProcesses (λ i, (1 + i)%nat) 10) ∧
  generateProcesses (λ i, (1 + i)%nat) 10
  = generateProcesses
      (λ i, (generations
               (take 3 (main (λ g i, (g + i)%nat)
                          [mkExtraction false 2; mkExtraction false 9;
                           mkExtraction false 1; mkExtraction false 0;
                           mkExtraction false 4])) + i)%nat)
      (Z.to_nat DEFAULT_PROCESS_COUNT).
Proof.
  assert (main (λ g i, (g + i)%nat)
            [mkExtraction false 2; mkExtraction false 9; mkExtraction false 1;
             mkExtraction false 0; mkExtraction false 4] !! 2%nat
          = Some (RunFCFS, generateProcesses (λ i, (1 + i)%nat) 10)) as Hlog
    by reflexivity.
  split; [exact Hlog|].
  exact (proj1 (main_batch_changes_only_on_generate _ _ _ _ _ Hlog)).
Defined.
